(** * sbsigntools: the PE/COFF image engine of [image.c]

    A shallow embedding of [src/src/image.c] (header parser, checksum-region
    builder, pad-and-re-parse loader, PE checksum, certificate-table editor
    and image writer), and the properties of the specification proved or
    refuted on it.

    Conventions of the embedding.
    - Target: an LP64 little-endian host (x86-64, AArch64): [int] and
      [unsigned int] are 32 bits, [size_t] and pointers 64 bits.  Every
      conversion between C integer types is written out with the [cast_*]
      functions; signed overflow wraps (two's complement).
    - A buffer ([image->buf], [image->sigbuf]) is a [list byte]; a pointer
      into a buffer is the byte offset from its start, a [Z].
    - Every read or write of a buffer is bounds checked: an access outside
      the allocated object (undefined behaviour in C) is the outcome
      [Fault].
    - [fprintf] diagnostics are not part of the state and are left out.
    - Allocation ([talloc]) never fails. *)

From Stdlib Require Import ZArith Lia Strings.Byte Sorted Permutation.
From stdpp Require Import base list strings sorting.

Local Open Scope Z_scope.

(** ** C integer types *)

Definition cast_u8 (z : Z) : Z := z mod 2 ^ 8.
Definition cast_u16 (z : Z) : Z := z mod 2 ^ 16.
Definition cast_u32 (z : Z) : Z := z mod 2 ^ 32.
(** [size_t] *)
Definition cast_size_t (z : Z) : Z := z mod 2 ^ 64.
(** [int] *)
Definition cast_int (z : Z) : Z := (z + 2 ^ 31) mod 2 ^ 32 - 2 ^ 31.
(** [ptrdiff_t]: also the offset reached by pointer arithmetic in a 64-bit
    address space *)
Definition cast_ptrdiff (z : Z) : Z := (z + 2 ^ 63) mod 2 ^ 64 - 2 ^ 63.

(** ** Bytes and buffers *)

#[global] Instance byte_eq_dec : EqDecision byte := Byte.byte_eq_dec.

Definition u8 (b : byte) : Z := Z.of_N (Byte.to_N b).

Definition byte_of_Z (z : Z) : byte :=
  default x00 (Byte.of_N (Z.to_N (z mod 256))).

Definition len {A} (l : list A) : Z := Z.of_nat (length l).

(** Little-endian value of a byte string: what a native load of a
    [uint16_t] or [uint32_t] yields on the host. *)
Fixpoint le_val (bs : list byte) : Z :=
  match bs with
  | [] => 0
  | b :: bs' => u8 b + 256 * le_val bs'
  end.

(** The [n] little-endian bytes of [v]: a native store on the host. *)
Fixpoint le_bytes (n : nat) (v : Z) : list byte :=
  match n with
  | O => []
  | S n' => byte_of_Z v :: le_bytes n' (v / 256)
  end.

(** ** Outcomes: a value, or an access outside an allocated object *)

Inductive outcome (A : Type) : Type :=
| Done (a : A)
| Fault.
Arguments Done {A} a.
Arguments Fault {A}.

Definition obind {A B} (m : outcome A) (k : A -> outcome B) : outcome B :=
  match m with
  | Done a => k a
  | Fault => Fault
  end.

Notation "x <- m ;; k" := (obind m (fun x => k))
  (at level 100, m at next level, right associativity,
   format "'[v' x  <-  m ;;  '/' k ']'").

(** ** Memory accesses *)

(** The [n] bytes of [mem] at offset [off]. *)
Definition load_bytes (mem : list byte) (off n : Z) : outcome (list byte) :=
  if (0 <=? off) && (0 <=? n) && (off + n <=? len mem)
  then Done (take (Z.to_nat n) (drop (Z.to_nat off) mem))
  else Fault.

(** [mem] with [bs] written at offset [off]. *)
Definition store_bytes (mem : list byte) (off : Z) (bs : list byte)
  : outcome (list byte) :=
  if (0 <=? off) && (off + len bs <=? len mem)
  then Done (take (Z.to_nat off) mem ++ bs
               ++ drop (Z.to_nat (off + len bs)) mem)
  else Fault.

Definition rd_u8 (mem : list byte) (off : Z) : outcome Z :=
  bs <- load_bytes mem off 1 ;; Done (le_val bs).
Definition rd_u16 (mem : list byte) (off : Z) : outcome Z :=
  bs <- load_bytes mem off 2 ;; Done (le_val bs).
Definition rd_u32 (mem : list byte) (off : Z) : outcome Z :=
  bs <- load_bytes mem off 4 ;; Done (le_val bs).

Definition wr_u16 (mem : list byte) (off v : Z) : outcome (list byte) :=
  store_bytes mem off (le_bytes 2 v).
Definition wr_u32 (mem : list byte) (off v : Z) : outcome (list byte) :=
  store_bytes mem off (le_bytes 4 v).

(** [memset(mem + off, c, n)], [n] a [size_t] *)
Definition memset (mem : list byte) (off c n : Z) : outcome (list byte) :=
  if 0 <=? n then store_bytes mem off (replicate (Z.to_nat n) (byte_of_Z c))
  else Fault.

(** [talloc_array(ctx, uint8_t, n)]: [n] bytes, contents unspecified
    (zero here; every caller overwrites them). *)
Definition talloc_array (n : Z) : list byte := replicate (Z.to_nat n) x00.

(** [talloc_realloc(ctx, p, uint8_t, n)]: the first [n] bytes are kept, new
    bytes are unspecified (zero here). *)
Definition talloc_realloc (p : list byte) (n : Z) : list byte :=
  take (Z.to_nat n) p ++ replicate (Z.to_nat n - length p)%nat x00.

(** [__pehdr_u32] and [__pehdr_u16]: byte-wise little-endian readers. *)
Definition pehdr_u32 (mem : list byte) (field : Z) : outcome Z :=
  u0 <- rd_u8 mem field ;;
  u1 <- rd_u8 mem (field + 1) ;;
  u2 <- rd_u8 mem (field + 2) ;;
  u3 <- rd_u8 mem (field + 3) ;;
  Done (cast_u32 (Z.shiftl u3 24 + Z.shiftl u2 16 + Z.shiftl u1 8 + u0)).

Definition pehdr_u16 (mem : list byte) (field : Z) : outcome Z :=
  u0 <- rd_u8 mem field ;;
  u1 <- rd_u8 mem (field + 1) ;;
  Done (cast_u16 (Z.shiftl u1 8 + u0)).

(** ** Declarations of [image.h] and of the PE/COFF headers

    [image.h] and the [coff/] headers it includes are not among the
    sources.  The byte layout of the PE/COFF structures is a parameter of
    the model ([layout]); [pe_layout] below instantiates it with the
    PE/COFF format.  The fields of [struct image] and [struct region]
    carry the C types of their declarations: [size_t] for [size],
    [data_size] and [sigsize], [int] for [sections], [cert_table_size]
    and [region.size], [unsigned int] for [opthdr_size] and
    [opthdr_min_size], [uint32_t] for [file_alignment] and
    [header_size]. *)

(** Offsets of the fields of [PEAOUTHDR] / [PEPAOUTHDR] that the parser
    reads, and the two sizes that give [opthdr_min_size]. *)
Record opthdr_layout := {
  off_magic : Z;
  off_FileAlignment : Z;
  off_SizeOfHeaders : Z;
  off_CheckSum : Z;
  off_DataDirectory : Z;
  sizeof_opthdr : Z;
  sizeof_DataDirectory : Z;
}.

Record layout := {
  sizeof_doshdr : Z;        (* sizeof(struct external_PEI_DOS_hdr) *)
  off_e_magic : Z;
  off_e_lfanew : Z;
  sizeof_pehdr : Z;         (* sizeof(struct external_PEI_IMAGE_hdr) *)
  off_nt_signature : Z;
  off_f_magic : Z;
  off_f_nscns : Z;
  off_f_opthdr : Z;
  opt_32 : opthdr_layout;   (* PEAOUTHDR *)
  opt_64 : opthdr_layout;   (* PEPAOUTHDR *)
  sizeof_scnhdr : Z;        (* sizeof(struct external_scnhdr) *)
  off_s_name : Z;
  off_s_size : Z;
  off_s_scnptr : Z;
  IMAGE_FILE_MACHINE_AMD64 : Z;
  IMAGE_FILE_MACHINE_AARCH64 : Z;
  IMAGE_FILE_MACHINE_I386 : Z;
  IMAGE_FILE_MACHINE_THUMB : Z;
}.

(** The layout of the PE/COFF format. *)
Definition pe_opt_32 : opthdr_layout :=
  {| off_magic := 0; off_FileAlignment := 36; off_SizeOfHeaders := 60;
     off_CheckSum := 64; off_DataDirectory := 96;
     sizeof_opthdr := 224; sizeof_DataDirectory := 128 |}.

Definition pe_opt_64 : opthdr_layout :=
  {| off_magic := 0; off_FileAlignment := 36; off_SizeOfHeaders := 60;
     off_CheckSum := 64; off_DataDirectory := 112;
     sizeof_opthdr := 240; sizeof_DataDirectory := 128 |}.

Definition pe_layout : layout :=
  {| sizeof_doshdr := 128; off_e_magic := 0; off_e_lfanew := 60;
     sizeof_pehdr := 24; off_nt_signature := 0; off_f_magic := 4;
     off_f_nscns := 6; off_f_opthdr := 20;
     opt_32 := pe_opt_32; opt_64 := pe_opt_64;
     sizeof_scnhdr := 40; off_s_name := 0; off_s_size := 16;
     off_s_scnptr := 20;
     IMAGE_FILE_MACHINE_AMD64 := 0x8664;
     IMAGE_FILE_MACHINE_AARCH64 := 0xaa64;
     IMAGE_FILE_MACHINE_I386 := 0x014c;
     IMAGE_FILE_MACHINE_THUMB := 0x01c2 |}.

Definition DATA_DIR_CERT_TABLE : Z := 4.
Definition CERT_TABLE_TYPE_PKCS : Z := 0x0002.
Definition CERT_TABLE_REVISION : Z := 0x0200.

(** Modelled from the spec: [struct data_dir_entry] is declared in
    [image.h]; the spec gives it as 8 bytes, two little-endian 32-bit words
    [addr] and [size]. *)
Definition sizeof_data_dir_entry : Z := 8.
Definition off_dd_addr : Z := 0.
Definition off_dd_size : Z := 4.

(** Modelled from the spec: [struct cert_table_header] is declared in
    [image.h]; the spec gives it as the 8-byte struct
    [{ size : u32; revision : u16; type : u16 }]. *)
Definition sizeof_cert_table_header : Z := 8.
Definition off_cth_size : Z := 0.
Definition off_cth_revision : Z := 4.
Definition off_cth_type : Z := 6.

(** [struct region]: [data] is the offset of the region from [image->buf]. *)
Record region := {
  data : Z;
  size : Z;
  name : string;
}.

(** A pointer that may be null, or point into [buf] or into [sigbuf]. *)
Inductive ptr :=
| NULL
| InBuf (off : Z)
| InSig (off : Z).

(** [struct image].  The pointers into [buf] ([checksum], [doshdr],
    [pehdr], [opthdr], [data_dir], [data_dir_sigtable], [scnhdr]) are
    offsets from [buf]; [checksum_regions] holds the
    [n_checksum_regions] entries of the array. *)
Record image := {
  buf : list byte;
  image_size : Z;
  data_size : Z;
  checksum : Z;
  doshdr : Z;
  pehdr : Z;
  opthdr : Z;
  opthdr_min_size : Z;
  opthdr_size : Z;
  data_dir : Z;
  data_dir_sigtable : Z;
  scnhdr : Z;
  sections : Z;
  cert_table : ptr;
  cert_table_size : Z;
  file_alignment : Z;
  header_size : Z;
  checksum_regions : list region;
  sigbuf : option (list byte);
  sigsize : Z;
}.

(** The image as [image_load] creates it: zeroed, then [buf] and [size]
    set by [fileio_read_file]. *)
Definition image_of_file (file : list byte) : image :=
  {| buf := file; image_size := len file; data_size := 0; checksum := 0;
     doshdr := 0; pehdr := 0; opthdr := 0; opthdr_min_size := 0;
     opthdr_size := 0; data_dir := 0; data_dir_sigtable := 0; scnhdr := 0;
     sections := 0; cert_table := NULL; cert_table_size := 0;
     file_alignment := 0; header_size := 0; checksum_regions := [];
     sigbuf := None; sigsize := 0 |}.

(** Field updates. *)
Definition set_headers (i : image) (doshdr' pehdr' opthdr' : Z) : image :=
  {| buf := buf i; image_size := image_size i; data_size := data_size i;
     checksum := checksum i; doshdr := doshdr'; pehdr := pehdr';
     opthdr := opthdr'; opthdr_min_size := opthdr_min_size i;
     opthdr_size := opthdr_size i; data_dir := data_dir i;
     data_dir_sigtable := data_dir_sigtable i; scnhdr := scnhdr i;
     sections := sections i; cert_table := cert_table i;
     cert_table_size := cert_table_size i;
     file_alignment := file_alignment i; header_size := header_size i;
     checksum_regions := checksum_regions i; sigbuf := sigbuf i;
     sigsize := sigsize i |}.

Definition set_aouthdr (i : image)
    (min_size file_alignment' header_size' data_dir' checksum' : Z) : image :=
  {| buf := buf i; image_size := image_size i; data_size := data_size i;
     checksum := checksum'; doshdr := doshdr i; pehdr := pehdr i;
     opthdr := opthdr i; opthdr_min_size := min_size;
     opthdr_size := opthdr_size i; data_dir := data_dir';
     data_dir_sigtable := data_dir_sigtable i; scnhdr := scnhdr i;
     sections := sections i; cert_table := cert_table i;
     cert_table_size := cert_table_size i;
     file_alignment := file_alignment'; header_size := header_size';
     checksum_regions := checksum_regions i; sigbuf := sigbuf i;
     sigsize := sigsize i |}.

Definition set_tables (i : image) (opthdr_size' data_dir_sigtable' : Z)
    (cert_table' : ptr) (cert_table_size' sections' scnhdr' : Z) : image :=
  {| buf := buf i; image_size := image_size i; data_size := data_size i;
     checksum := checksum i; doshdr := doshdr i; pehdr := pehdr i;
     opthdr := opthdr i; opthdr_min_size := opthdr_min_size i;
     opthdr_size := opthdr_size'; data_dir := data_dir i;
     data_dir_sigtable := data_dir_sigtable'; scnhdr := scnhdr';
     sections := sections'; cert_table := cert_table';
     cert_table_size := cert_table_size';
     file_alignment := file_alignment i; header_size := header_size i;
     checksum_regions := checksum_regions i; sigbuf := sigbuf i;
     sigsize := sigsize i |}.

Definition set_sig (i : image) (sigbuf' : option (list byte)) (sigsize' : Z)
  : image :=
  {| buf := buf i; image_size := image_size i; data_size := data_size i;
     checksum := checksum i; doshdr := doshdr i; pehdr := pehdr i;
     opthdr := opthdr i; opthdr_min_size := opthdr_min_size i;
     opthdr_size := opthdr_size i; data_dir := data_dir i;
     data_dir_sigtable := data_dir_sigtable i; scnhdr := scnhdr i;
     sections := sections i; cert_table := cert_table i;
     cert_table_size := cert_table_size i;
     file_alignment := file_alignment i; header_size := header_size i;
     checksum_regions := checksum_regions i; sigbuf := sigbuf';
     sigsize := sigsize' |}.

Definition set_cert_table (i : image) (cert_table' : ptr) : image :=
  {| buf := buf i; image_size := image_size i; data_size := data_size i;
     checksum := checksum i; doshdr := doshdr i; pehdr := pehdr i;
     opthdr := opthdr i; opthdr_min_size := opthdr_min_size i;
     opthdr_size := opthdr_size i; data_dir := data_dir i;
     data_dir_sigtable := data_dir_sigtable i; scnhdr := scnhdr i;
     sections := sections i; cert_table := cert_table';
     cert_table_size := cert_table_size i;
     file_alignment := file_alignment i; header_size := header_size i;
     checksum_regions := checksum_regions i; sigbuf := sigbuf i;
     sigsize := sigsize i |}.

Definition set_regions (i : image) (regions : list region) (data_size' : Z)
  : image :=
  {| buf := buf i; image_size := image_size i; data_size := data_size';
     checksum := checksum i; doshdr := doshdr i; pehdr := pehdr i;
     opthdr := opthdr i; opthdr_min_size := opthdr_min_size i;
     opthdr_size := opthdr_size i; data_dir := data_dir i;
     data_dir_sigtable := data_dir_sigtable i; scnhdr := scnhdr i;
     sections := sections i; cert_table := cert_table i;
     cert_table_size := cert_table_size i;
     file_alignment := file_alignment i; header_size := header_size i;
     checksum_regions := regions; sigbuf := sigbuf i;
     sigsize := sigsize i |}.

Definition set_buf (i : image) (buf' : list byte) (size' : Z) : image :=
  {| buf := buf'; image_size := size'; data_size := data_size i;
     checksum := checksum i; doshdr := doshdr i; pehdr := pehdr i;
     opthdr := opthdr i; opthdr_min_size := opthdr_min_size i;
     opthdr_size := opthdr_size i; data_dir := data_dir i;
     data_dir_sigtable := data_dir_sigtable i; scnhdr := scnhdr i;
     sections := sections i; cert_table := cert_table i;
     cert_table_size := cert_table_size i;
     file_alignment := file_alignment i; header_size := header_size i;
     checksum_regions := checksum_regions i; sigbuf := sigbuf i;
     sigsize := sigsize i |}.

(** ** Arithmetic helpers of [image.c] *)

(** [align_up(int size, int align)] *)
Definition align_up (size align : Z) : Z :=
  Z.land (cast_int (cast_int (size + align) - 1))
         (Z.lnot (cast_int (align - 1))).

(** [csum_update_fold(uint16_t csum, uint16_t x)] *)
Definition csum_update_fold (csum x : Z) : Z :=
  let new := cast_u32 (csum + x) in
  let new := cast_u32 (Z.shiftr new 16 + Z.land new 0xffff) in
  cast_u16 new.

(** The loop of [csum_bytes] over the [len] bytes at [p]: 16-bit words in
    host order, then the odd byte if there is one. *)
Fixpoint csum_words (checksum : Z) (p : list byte) : Z :=
  match p with
  | b0 :: b1 :: p' => csum_words (csum_update_fold checksum (le_val [b0; b1])) p'
  | [b0] => csum_update_fold checksum (u8 b0)
  | [] => checksum
  end.

(** [csum_bytes(checksum, buf, len)], [buf] being [mem + off].  The loop
    counter [i] is an [unsigned int]: for [len >= 2^32] it wraps before
    reaching [len] and the loop runs off the buffer. *)
Definition csum_bytes (checksum : Z) (mem : list byte) (off len : Z)
  : outcome Z :=
  p <- load_bytes mem off len ;;
  if 2 ^ 32 <=? len then Fault else Done (csum_words checksum p).

(** ** Header parser *)

Section Parser.
Context (L : layout).

(** [return -1;] of the parse functions: the caller frees the image. *)
Definition reject : outcome (option image) := Done None.

(** [image_pecoff_parse_32] *)
Definition image_pecoff_parse_32 (img : image) : outcome (option image) :=
  let O := opt_32 L in
  m0 <- rd_u8 (buf img) (opthdr img + off_magic O) ;;
  if negb (m0 =? 0x0b) then reject else
  m1 <- rd_u8 (buf img) (opthdr img + off_magic O + 1) ;;
  if negb (m1 =? 0x01) then reject else
  let min_size := cast_u32 (sizeof_opthdr O - sizeof_DataDirectory O) in
  fa <- pehdr_u32 (buf img) (opthdr img + off_FileAlignment O) ;;
  hs <- pehdr_u32 (buf img) (opthdr img + off_SizeOfHeaders O) ;;
  Done (Some (set_aouthdr img min_size fa hs
                (opthdr img + off_DataDirectory O)
                (opthdr img + off_CheckSum O))).

(** [image_pecoff_parse_64] *)
Definition image_pecoff_parse_64 (img : image) : outcome (option image) :=
  let O := opt_64 L in
  m0 <- rd_u8 (buf img) (opthdr img + off_magic O) ;;
  if negb (m0 =? 0x0b) then reject else
  m1 <- rd_u8 (buf img) (opthdr img + off_magic O + 1) ;;
  if negb (m1 =? 0x02) then reject else
  let min_size := cast_u32 (sizeof_opthdr O - sizeof_DataDirectory O) in
  fa <- pehdr_u32 (buf img) (opthdr img + off_FileAlignment O) ;;
  hs <- pehdr_u32 (buf img) (opthdr img + off_SizeOfHeaders O) ;;
  Done (Some (set_aouthdr img min_size fa hs
                (opthdr img + off_DataDirectory O)
                (opthdr img + off_CheckSum O))).

(** ['P', 'E', 0, 0] *)
Definition nt_sig : list byte := [x50; x45; x00; x00].

(** The test [cert_table && cert_table->revision == CERT_TABLE_REVISION &&
    cert_table->type == CERT_TABLE_TYPE_PKCS && cert_table->size < size],
    evaluated left to right; [ct] is the offset of the table in [mem]. *)
Definition valid_cert_table (mem : list byte) (ct : ptr) (size : Z)
  : outcome bool :=
  match ct with
  | InBuf ct =>
      revision <- rd_u16 mem (ct + off_cth_revision) ;;
      if negb (revision =? CERT_TABLE_REVISION) then Done false else
      type <- rd_u16 mem (ct + off_cth_type) ;;
      if negb (type =? CERT_TABLE_TYPE_PKCS) then Done false else
      csize <- rd_u32 mem (ct + off_cth_size) ;;
      Done (csize <? size)
  | _ => Done false
  end.

(** [image_pecoff_parse] *)
Definition image_pecoff_parse (img : image) : outcome (option image) :=
  let size := image_size img in
  let buf := buf img in
  (* sanity checks *)
  if size <? sizeof_doshdr L then reject else
  let doshdr := 0 in
  e0 <- rd_u8 buf (doshdr + off_e_magic L) ;;
  if negb (e0 =? 0x4d) then reject else
  e1 <- rd_u8 buf (doshdr + off_e_magic L + 1) ;;
  if negb (e1 =? 0x5a) then reject else
  addr <- pehdr_u32 buf (doshdr + off_e_lfanew L) ;;
  if size <=? addr then reject else
  if size <? addr + sizeof_pehdr L then reject else
  let pehdr := addr in
  sig <- load_bytes buf (pehdr + off_nt_signature L) 4 ;;
  if negb (bool_decide (sig = nt_sig)) then reject else
  (* a.out header directly follows PE header *)
  let img := set_headers img doshdr pehdr (pehdr + sizeof_pehdr L) in
  magic <- pehdr_u16 buf (pehdr + off_f_magic L) ;;
  rc <- (if (magic =? IMAGE_FILE_MACHINE_AMD64 L)
            || (magic =? IMAGE_FILE_MACHINE_AARCH64 L)
         then image_pecoff_parse_64 img
         else if (magic =? IMAGE_FILE_MACHINE_I386 L)
                 || (magic =? IMAGE_FILE_MACHINE_THUMB L)
         then image_pecoff_parse_32 img
         else reject) ;;
  match rc with
  | None => reject
  | Some img =>
  opthdr_size <- pehdr_u16 buf (pehdr + off_f_opthdr L) ;;
  let cert_table_offset :=
    cast_int (sizeof_data_dir_entry * (DATA_DIR_CERT_TABLE + 1)) in
  if opthdr_size <? cast_u32 (opthdr_min_size img + cert_table_offset)
  then reject else
  let data_dir_sigtable :=
    data_dir img + sizeof_data_dir_entry * DATA_DIR_CERT_TABLE in
  if size <? sizeof_doshdr L + sizeof_pehdr L + opthdr_size
  then reject else
  dsize <- rd_u32 buf (data_dir_sigtable + off_dd_size) ;;
  let cert_table_size := cast_int dsize in
  cert_table <- (if cert_table_size =? 0 then Done NULL
                 else a <- rd_u32 buf (data_dir_sigtable + off_dd_addr) ;;
                      Done (InBuf a)) ;;
  (* if we have a valid cert table header, populate sigbuf as a shadow
     copy of the cert tables *)
  valid <- valid_cert_table buf cert_table size ;;
  img <- (if valid then
              sigsize <- rd_u32 buf (data_dir_sigtable + off_dd_size) ;;
              copy <- load_bytes buf
                        (match cert_table with InBuf a => a | _ => 0 end)
                        sigsize ;;
              Done (set_sig img (Some copy) sigsize)
            else Done img) ;;
  sections <- pehdr_u16 buf (pehdr + off_f_nscns L) ;;
  Done (Some (set_tables img opthdr_size data_dir_sigtable cert_table
                cert_table_size sections (opthdr img + opthdr_size)))
  end.

End Parser.

(** ** Region builder and loader *)

(** [cmp_regions], the comparison handed to [qsort] *)
Definition cmp_regions (r1 r2 : region) : Z :=
  if data r1 <? data r2 then -1
  else if data r2 <? data r1 then 1
  else 0.

(** [set_region_from_range] *)
Definition set_region_from_range (r : region) (start end_ : Z) : region :=
  {| data := start; size := cast_int (end_ - start); name := name r |}.

(** [region->name = ...] *)
Definition set_name (r : region) (name' : string) : region :=
  {| data := data r; size := size r; name := name' |}.

(** An entry of [talloc_zero_array(image, struct region, n)] *)
Definition zero_region : region := {| data := 0; size := 0; name := "" |}.

(** [talloc_strndup(ctx, mem + off, n)] *)
Fixpoint talloc_strndup (mem : list byte) (off : Z) (n : nat)
  : outcome string :=
  match n with
  | O => Done EmptyString
  | S n' =>
      c <- rd_u8 mem off ;;
      if c =? 0 then Done EmptyString
      else s <- talloc_strndup mem (off + 1) n' ;;
           Done (String (Ascii.ascii_of_N (Z.to_N c)) s)
  end.

(** The result of [image_load]: the image, [NULL], an access outside a
    buffer, or the bound on the number of parses reached. *)
Inductive load_result :=
| Loaded (img : image)
| LoadFailed
| LoadFault
| OutOfFuel.

Section Loader.
Context (L : layout).

(** [qsort] of the C library with [cmp_regions]: some function that
    returns its input sorted.  [qsort_regions] below is one. *)
Context (qsort : list region -> list region).

(** The loop [for (i = 0; i < image->sections; i++)] of
    [image_find_regions], with [count] iterations left. *)
Fixpoint add_coff_sections (img : image) (count : nat) (i : Z)
    (regions : list region) (bytes : Z) : outcome (list region * Z) :=
  match count with
  | O => Done (regions, bytes)
  | S count' =>
      let scn := scnhdr img + i * sizeof_scnhdr L in
      file_offset <- pehdr_u32 (buf img) (scn + off_s_scnptr L) ;;
      file_size <- pehdr_u32 (buf img) (scn + off_s_size L) ;;
      if file_size =? 0
      then add_coff_sections img count' (i + 1) regions bytes
      else
        name <- talloc_strndup (buf img) (scn + off_s_name L) 8 ;;
        let r := {| data := file_offset; size := cast_int file_size;
                    name := name |} in
        add_coff_sections img count' (i + 1) (regions ++ [r])
          (cast_size_t (bytes + size r))
  end.

(** The three header regions and the running byte count after them. *)
Definition header_regions (img : image) : list region * Z :=
  let buf := 0 in
  let bytes := 0 in
  (* first region: beginning to checksum field *)
  let r0 := set_name (set_region_from_range zero_region buf (checksum img))
              "begin->cksum" in
  let bytes := cast_size_t (bytes + size r0) in
  let bytes := cast_size_t (bytes + 4) in
  (* second region: end of checksum to certificate table entry *)
  let r1 := set_name (set_region_from_range zero_region (checksum img + 4)
                        (data_dir_sigtable img))
              "cksum->datadir[CERT]" in
  let bytes := cast_size_t (bytes + size r1) in
  let bytes := cast_size_t (bytes + sizeof_data_dir_entry) in
  (* third region: end of checksum to end of headers *)
  let r2 := set_name (set_region_from_range zero_region
                        (data_dir_sigtable img + sizeof_data_dir_entry)
                        (buf + header_size img))
              "datadir[CERT]->headers" in
  let bytes := cast_size_t (bytes + size r2) in
  ([r0; r1; r2], bytes).

(** [image_find_regions] up to and including the [qsort] call: the sorted
    regions and the byte count. *)
Definition sorted_regions (img : image) : outcome (list region * Z) :=
  let hdr := header_regions img in
  (* add COFF sections *)
  p <- add_coff_sections img (Z.to_nat (sections img)) 0 (fst hdr) (snd hdr) ;;
  Done (qsort (fst p), snd p).

(** The ["endjunk"] region appended when [bytes + cert_table_size <
    size]. *)
Definition endjunk (img : image) (bytes : Z) : region :=
  {| name := "endjunk";
     data := cast_ptrdiff (0 + bytes);
     size := cast_int (cast_size_t (cast_size_t (image_size img - bytes)
                                    - cert_table_size img)) |}.

(** [image_find_regions]; it always returns 0. *)
Definition image_find_regions (img : image) : outcome image :=
  p <- sorted_regions img ;;
  let regions := fst p in
  let bytes := snd p in
  let regions :=
    if cast_size_t (bytes + cert_table_size img) <? image_size img
    then regions ++ [endjunk img bytes]
    else regions in
  (* record the size of non-signature data *)
  match last regions with
  | Some r =>
      Done (set_regions img regions
              (cast_size_t
                 (align_up (cast_int (cast_ptrdiff (data r - 0) + size r)) 8)))
  | None => Fault
  end.

(** The [reparse:] loop of [image_load], at most [fuel] parses. *)
Fixpoint reparse (fuel : nat) (img : image) : load_result :=
  match fuel with
  | O => OutOfFuel
  | S fuel' =>
      match image_pecoff_parse L img with
      | Fault => LoadFault
      | Done None => LoadFailed
      | Done (Some img) =>
          match image_find_regions img with
          | Fault => LoadFault
          | Done img =>
              if image_size img <? data_size img then
                let buf' := talloc_realloc (buf img) (data_size img) in
                match memset buf' (image_size img) 0
                        (cast_size_t (data_size img - image_size img)) with
                | Fault => LoadFault
                | Done buf' => reparse fuel' (set_buf img buf' (data_size img))
                end
              else Loaded img
          end
      end
  end.

(** [image_load], on the contents of the file. *)
Definition image_load (fuel : nat) (file : list byte) : load_result :=
  reparse fuel (image_of_file file).

End Loader.

(** The bytes that [image_hash_sha256] feeds to [SHA256_Update], region by
    region; the length argument is a [size_t]. *)
Fixpoint hash_regions (mem : list byte) (regions : list region)
  : outcome (list byte) :=
  match regions with
  | [] => Done []
  | region :: rest =>
      bs <- load_bytes mem (data region) (cast_size_t (size region)) ;;
      tl <- hash_regions mem rest ;;
      Done (bs ++ tl)
  end.

(** [image_hash_sha256], for a hash function [SHA256] of OpenSSL that does
    not fail. *)
Definition image_hash_sha256 (SHA256 : list byte -> list byte) (img : image)
  : outcome (list byte) :=
  input <- hash_regions (buf img) (checksum_regions img) ;;
  Done (SHA256 input).

(** ** Certificate-table editor *)

(** [talloc_realloc] as the editor uses it: resizing to zero bytes frees
    the buffer and yields [NULL]. *)
Definition talloc_realloc_sig (p : list byte) (n : Z) : option (list byte) :=
  if n =? 0 then None else Some (talloc_realloc p n).

(** [image_add_signature(image, sig, size)]: the return value and the
    image. *)
Definition image_add_signature (img : image) (sig : list byte) (size : Z)
  : outcome (Z * image) :=
  let tot_size := cast_int (size + sizeof_cert_table_header) in
  let aligned_size := align_up tot_size 8 in
  let mem :=
    match sigbuf img with
    | Some p => talloc_realloc p (cast_size_t (sigsize img + aligned_size))
    | None => talloc_array aligned_size
    end in
  let start :=
    match sigbuf img with
    | Some _ => cast_ptrdiff (0 + sigsize img)
    | None => 0
    end in
  let sigsize' :=
    match sigbuf img with
    | Some _ => cast_size_t (sigsize img + aligned_size)
    | None => cast_size_t aligned_size
    end in
  let cth := start in
  let start := start + sizeof_cert_table_header in
  mem <- memset mem cth 0 sizeof_cert_table_header ;;
  mem <- wr_u32 mem (cth + off_cth_size) (cast_u32 tot_size) ;;
  mem <- wr_u16 mem (cth + off_cth_revision) CERT_TABLE_REVISION ;;
  mem <- wr_u16 mem (cth + off_cth_type) CERT_TABLE_TYPE_PKCS ;;
  payload <- load_bytes sig 0 (cast_size_t size) ;;
  mem <- store_bytes mem start payload ;;
  mem <- (if negb (aligned_size =? tot_size)
          then memset mem (start + size) 0
                 (cast_size_t (cast_int (aligned_size - tot_size)))
          else Done mem) ;;
  Done (0, set_cert_table (set_sig img (Some mem) sigsize') (InSig cth)).

(** The loop [for (i = 0; i < signum; i++)] of [image_get_signature], with
    [count] iterations left: the final [addr]. *)
Fixpoint get_signature_walk (mem : list byte) (count : nat) (addr : Z)
  : outcome Z :=
  match count with
  | O => Done addr
  | S count' =>
      hsize <- rd_u32 mem (addr + off_cth_size) ;;
      get_signature_walk mem count'
        (cast_ptrdiff (addr + align_up (cast_int hsize) 8))
  end.

(** [image_get_signature(image, signum, &buf, &size)]: [None] for the return
    value -1, else [Some (buf, size)] with [buf] an offset into
    [image->sigbuf].  The function stores nothing into the image. *)
Definition image_get_signature (img : image) (signum : Z)
  : outcome (option (Z * Z)) :=
  match sigbuf img with
  | None => Done None
  | Some mem =>
      addr <- get_signature_walk mem (Z.to_nat signum) 0 ;;
      if cast_ptrdiff (0 + sigsize img) <=? addr then Done None else
      hsize <- rd_u32 mem (addr + off_cth_size) ;;
      Done (Some (addr + sizeof_cert_table_header,
                  cast_size_t (hsize - sizeof_cert_table_header)))
  end.

(** [image_remove_signature(image, signum)]: the return value and the
    image. *)
Definition image_remove_signature (img : image) (signum : Z)
  : outcome (Z * image) :=
  rc <- image_get_signature img signum ;;
  match rc, sigbuf img with
  | None, _ => Done (-1, img)
  | Some _, None => Fault
  | Some (buf, size), Some mem =>
      let buf := buf - sizeof_cert_table_header in
      let size := cast_size_t (size + sizeof_cert_table_header) in
      let aligned_size := cast_size_t (align_up (cast_int size) 8) in
      let sigsize' := cast_size_t (sigsize img - aligned_size) in
      (* is signature at the end? *)
      if cast_ptrdiff (0 + sigsize img) <=? cast_ptrdiff (buf + aligned_size)
      then
        (* only one signature? *)
        if buf =? 0 then Done (0, set_sig img None 0)
        else Done (0, set_sig img (talloc_realloc_sig mem sigsize') sigsize')
      else
        (* sig is in the middle ... just copy the rest over it *)
        rest <- load_bytes mem (cast_ptrdiff (buf + aligned_size))
                  (cast_size_t (cast_size_t (sigsize img - (buf - 0))
                                - aligned_size)) ;;
        mem <- store_bytes mem buf rest ;;
        Done (0, set_sig img (talloc_realloc_sig mem sigsize') sigsize')
  end.

(** ** PE checksum and image writer *)

Definition is_signed (img : image) : bool :=
  bool_decide (sigbuf img <> None) && negb (sigsize img =? 0).

(** [image_pecoff_update_checksum] *)
Definition image_pecoff_update_checksum (img : image) : outcome image :=
  let sig := default [] (sigbuf img) in
  csum <- csum_bytes 0 (buf img) 0 (cast_size_t (checksum img - 0)) ;;
  csum <- csum_bytes csum (buf img) (checksum img + 4)
            (cast_size_t ((0 + data_size img) - (checksum img + 4))) ;;
  csum <- (if is_signed img then csum_bytes csum sig 0 (sigsize img)
           else Done csum) ;;
  let csum := cast_u32 (csum + data_size img) in
  let csum := if is_signed img then cast_u32 (csum + sigsize img) else csum in
  buf' <- wr_u32 (buf img) (checksum img) csum ;;
  Done (set_buf img buf' (image_size img)).

(** [image_write]: the return value, the image, and the bytes written to
    the file ([open] and [write_all] are taken to succeed). *)
Definition image_write (img : image) : outcome (Z * image * list byte) :=
  let sig := default [] (sigbuf img) in
  (* optionally update the image to contain signature data *)
  buf' <- wr_u32 (buf img) (data_dir_sigtable img + off_dd_addr)
            (if is_signed img then cast_u32 (data_size img) else 0) ;;
  buf' <- wr_u32 buf' (data_dir_sigtable img + off_dd_size)
            (if is_signed img then cast_u32 (sigsize img) else 0) ;;
  img' <- image_pecoff_update_checksum (set_buf img buf' (image_size img)) ;;
  out <- load_bytes (buf img') 0 (data_size img') ;;
  if negb (is_signed img) then Done (0, img', out) else
  sigout <- load_bytes sig 0 (sigsize img') ;;
  Done (0, img', out ++ sigout).

(** [image_write_detached]: the return value and the bytes written. *)
Definition image_write_detached (img : image) (signum : Z)
  : outcome (Z * list byte) :=
  rc <- image_get_signature img signum ;;
  match rc with
  | None => Done (-1, [])
  | Some (sig, len) =>
      out <- load_bytes (default [] (sigbuf img)) sig len ;;
      Done (0, out)
  end.

(** ** A [qsort]

    What the C library promises of [qsort]: the result is a permutation of
    the input, in ascending order of the comparison function. *)

Definition cmp_le (r1 r2 : region) : Prop := cmp_regions r1 r2 <= 0.

Definition is_qsort (qsort : list region -> list region) : Prop :=
  (forall l, Permutation (qsort l) l) /\
  (forall l, Sorted cmp_le (qsort l)).

#[global] Instance cmp_le_dec : RelDecision cmp_le.
Proof. intros r1 r2; unfold cmp_le; apply Z_le_dec. Defined.

(** One such function: the merge sort of stdpp. *)
Definition qsort_regions (l : list region) : list region :=
  merge_sort cmp_le l.

(** ** Sample files *)

(** [l] with [bs] written at offset [off] (for writing files down). *)
Definition patch (off : Z) (bs : list byte) (l : list byte) : list byte :=
  take (Z.to_nat off) l ++ bs ++ drop (Z.to_nat off + length bs) l.

Definition bytes_of (zs : list Z) : list byte := byte_of_Z <$> zs.

(** A section header: name, raw size and raw file offset. *)
Definition scn_header (name : list Z) (s_size s_scnptr : Z) : list byte :=
  patch 20 (le_bytes 4 s_scnptr)
    (patch 16 (le_bytes 4 s_size)
       (patch 0 (bytes_of name) (replicate 40 x00))).

(** A PE32+ (AMD64) file of [size] bytes: DOS header at 0, PE header at
    0x80, optional header of 240 bytes at 0x98, section table at 0x188;
    [hs] is SizeOfHeaders, [dd] the security directory entry (addr, size)
    and [scns] the section table. *)
Definition pe64_file (size hs : Z) (dd : Z * Z) (scns : list (list byte))
  : list byte :=
  patch 0x188 (concat scns)
    (patch (0x98 + 112 + 32) (le_bytes 4 (fst dd) ++ le_bytes 4 (snd dd))
    (patch (0x98 + 60) (le_bytes 4 hs)
    (patch (0x98 + 36) (le_bytes 4 0x200)
    (patch 0x98 (bytes_of [0x0b; 0x02])
    (patch (0x80 + 20) (le_bytes 2 240)
    (patch (0x80 + 6) (le_bytes 2 (len scns))
    (patch (0x80 + 4) (le_bytes 2 0x8664)
    (patch 0x80 (bytes_of [0x50; 0x45; 0; 0])
    (patch 60 (le_bytes 4 0x80)
    (patch 0 (bytes_of [0x4d; 0x5a])
       (replicate (Z.to_nat size) x00))))))))))).

Definition text_name : list Z := [0x2e; 0x74; 0x65; 0x78; 0x74].

(** The minimal binary of the spec's first scenario: 1024 bytes, one
    section [.text] at 0x200 of size 0x200, no certificate table. *)
Definition minimal_pe : list byte :=
  pe64_file 0x400 0x200 (0, 0) [scn_header text_name 0x200 0x200].

(** A WIN_CERTIFICATE entry as it lies in a file: header and payload. *)
Definition cert_entry (size revision type : Z) (payload : list byte)
  : list byte :=
  le_bytes 4 size ++ le_bytes 2 revision ++ le_bytes 2 type ++ payload.

(** A signed file whose security directory gives a table of 12 bytes at
    0x3f0: one entry of size 12 (header and 4 bytes of payload), after a
    section [.text] at 0x200 of size 0x1f0. *)
Definition presigned_pe : list byte :=
  patch 0x3f0 (cert_entry 12 0x0200 0x0002 (bytes_of [1; 2; 3; 4]))
    (pe64_file 0x3fc 0x200 (0x3f0, 12) [scn_header text_name 0x1f0 0x200]).

(** ** Sequences of edits *)

(** A call of the certificate-table editor. *)
Inductive edit :=
| Add (sig : list byte) (size : Z)
| Remove (signum : Z).

Definition run_edit (img : image) (e : edit) : outcome (Z * image) :=
  match e with
  | Add sig size => image_add_signature img sig size
  | Remove signum => image_remove_signature img signum
  end.

(** The calls [es] one after the other, whatever they return. *)
Fixpoint run_edits (img : image) (es : list edit) : outcome image :=
  match es with
  | [] => Done img
  | e :: es' => r <- run_edit img e ;; run_edits (snd r) es'
  end.

(** ** Results of sample runs *)

(** The image of a load that succeeded (the empty image otherwise). *)
Definition the_image (r : load_result) : image :=
  match r with
  | Loaded img => img
  | _ => image_of_file []
  end.

(** The value of an outcome that is not a fault ([d] otherwise). *)
Definition the_value {A} (d : A) (o : outcome A) : A :=
  match o with
  | Done a => a
  | Fault => d
  end.

(** [minimal_pe] loaded. *)
Definition minimal_image : image :=
  the_image (image_load pe_layout qsort_regions 1 minimal_pe).

(** Ten bytes 0xaa, the signature of the spec's second scenario. *)
Definition sig_aa : list byte := replicate 10 xaa.

(** [minimal_pe] loaded, signed with [sig_aa], the signature removed. *)
Definition minimal_edits : list edit := [Add sig_aa 10; Remove 0].
Definition minimal_edited : image :=
  the_value minimal_image (run_edits minimal_image minimal_edits).

(** ** The certificate table the spec describes *)

(** The spec's [align8]: the next multiple of 8. *)
Definition align8 (n : Z) : Z := 8 * ((n + 7) / 8).

(** The certificate-table entry in the words of the spec (section 6), to
    compare with what [image_add_signature] stores: [{ u32 size; u16
    revision = 0x0200; u16 type = 0x0002; u8 payload[size - 8]; u8
    pad[align8(size) - size] }]. *)
Definition win_certificate (payload : list byte) : list byte :=
  cert_entry (len payload + 8) 0x0200 0x0002 payload
    ++ replicate (Z.to_nat (align8 (len payload + 8) - (len payload + 8))) x00.

(** The table holding the payloads [sigs], in order. *)
Definition cert_table_of (sigs : list (list byte)) : list byte :=
  concat (win_certificate <$> sigs).

(** The contents of [sigbuf] ([NULL]: none). *)
Definition sig_bytes (img : image) : list byte := default [] (sigbuf img).

(** [image_add_signature] for each of [sigs] in turn. *)
Definition add_signatures (img : image) (sigs : list (list byte))
  : outcome image :=
  run_edits img ((fun sig => Add sig (len sig)) <$> sigs).

(** A payload whose length [image_add_signature] can handle in its [int]
    arithmetic: [size + 8] rounded up to a multiple of 8 fits an [int]. *)
Definition small_sig (sig : list byte) : Prop := len sig < 2 ^ 31 - 16.

(** Two payloads, of 16 and 32 bytes (the spec's third scenario). *)
Definition two_sigs : list (list byte) := [replicate 16 x0a; replicate 32 x0b].

(** ** The PE checksum the spec describes *)

(** The fold step in the words of the spec (section 4.3): [new = sum + x],
    [sum = (new >> 16) + (new & 0xFFFF)]. *)
Definition fold_step (sum x : Z) : Z :=
  let new := sum + x in
  Z.shiftr new 16 + Z.land new 0xFFFF.

(** The input as consecutive 16-bit little-endian words; an odd trailing
    byte is the low byte of a last word. *)
Fixpoint le_words (bs : list byte) : list Z :=
  match bs with
  | b0 :: b1 :: bs' => (u8 b0 + 256 * u8 b1) :: le_words bs'
  | [b0] => [u8 b0]
  | [] => []
  end.

Definition fold_sum (sum : Z) (bs : list byte) : Z :=
  fold_left fold_step (le_words bs) sum.

(** The checksum of a file made of the image bytes [image_bytes] (the
    first [data_size] bytes of the buffer) followed by the signature bytes
    [sig] (none: []), for a checksum field at offset [csum_off]: fold over
    [[0, csum_off)], over [[csum_off + 4, data_size)] and over [sig], then
    add [data_size] and the length of [sig]; 32 bits are kept. *)
Definition pe_checksum (image_bytes sig : list byte) (csum_off : Z) : Z :=
  let sum := 0 in
  let sum := fold_sum sum (take (Z.to_nat csum_off) image_bytes) in
  let sum := fold_sum sum (drop (Z.to_nat (csum_off + 4)) image_bytes) in
  let sum := fold_sum sum sig in
  (sum + len image_bytes + len sig) mod 2 ^ 32.

(** [sigsize] is the length of [sigbuf], when there is one. *)
Definition sig_consistent (img : image) : Prop :=
  match sigbuf img with
  | Some mem => sigsize img = len mem
  | None => sigsize img = 0
  end.

(** [minimal_pe] loaded and signed with [sig_aa], and what [image_write]
    does with it: return value, image, bytes of the file. *)
Definition signed_image : image :=
  snd (the_value (0, minimal_image)
         (image_add_signature minimal_image sig_aa 10)).

Definition written : Z * image * list byte :=
  the_value (0, signed_image, []) (image_write signed_image).

(** ** The regions the spec describes *)

(** The region [[start, end_)] of the spec: its offset and its length. *)
Definition range_region (start end_ : Z) (name : string) : region :=
  {| data := start; size := end_ - start; name := name |}.

(** A range as an entry of the array holds it: the [size] member of
    [struct region] is an [int]. *)
Definition int_sized (r : region) : region :=
  {| data := data r; size := cast_int (size r); name := name r |}.

(** The region of section header [i], in the words of the spec (section
    4.2): [[s_scnptr, s_scnptr + s_size)] when [s_size] is not zero, no
    region otherwise. *)
Definition section_region (L : layout) (img : image) (i : Z)
  : outcome (option region) :=
  let scn := scnhdr img + i * sizeof_scnhdr L in
  s_scnptr <- pehdr_u32 (buf img) (scn + off_s_scnptr L) ;;
  s_size <- pehdr_u32 (buf img) (scn + off_s_size L) ;;
  if s_size =? 0 then Done None
  else
    name <- talloc_strndup (buf img) (scn + off_s_name L) 8 ;;
    Done (Some (range_region s_scnptr (s_scnptr + s_size) name)).

(** R0, R1 and R2. *)
Definition fixed_regions (img : image) : list region :=
  [ range_region 0 (checksum img) "begin->cksum";
    range_region (checksum img + 4) (data_dir_sigtable img)
      "cksum->datadir[CERT]";
    range_region (data_dir_sigtable img + 8) (header_size img)
      "datadir[CERT]->headers" ].

(** In ascending order of offset. *)
Definition ordered_by_offset (rs : list region) : Prop :=
  forall i j ri rj, (i < j)%nat ->
    rs !! i = Some ri -> rs !! j = Some rj -> data ri <= data rj.

(** T1 of the spec: for all [i < j], [regions[i].end <= regions[j].start]. *)
Definition disjoint_ordered (rs : list region) : Prop :=
  forall i j ri rj, (i < j)%nat ->
    rs !! i = Some ri -> rs !! j = Some rj ->
    data ri + size ri <= data rj.

(** Byte [x] lies in one of the regions. *)
Definition in_regions (rs : list region) (x : Z) : Prop :=
  exists r, r ∈ rs /\ data r <= x < data r + size r.

(** The regions [rs], each of positive size, lie back to back from offset
    [a] to offset [b]. *)
Inductive chain : Z -> list region -> Z -> Prop :=
| chain_nil a : chain a [] a
| chain_cons a r rs b :
    data r = a -> 0 < size r -> chain (a + size r) rs b ->
    chain a (r :: rs) b.

(** The sorted regions tile the file up to offset [e]: R0 up to the
    checksum field, R1 from there to the security directory entry, R2 and
    the sections back to back after it. *)
Definition tiled (img : image) (rs : list region) (e : Z) : Prop :=
  exists r0 r1 rest,
    rs = r0 :: r1 :: rest /\
    chain 0 [r0] (checksum img) /\
    chain (checksum img + 4) [r1] (data_dir_sigtable img) /\
    chain (data_dir_sigtable img + 8) rest e.

(** The sum of the region sizes. *)
Definition total_size (rs : list region) : Z :=
  foldr (fun r acc => size r + acc) 0 rs.

(** ** More sample files *)

Definition data_name : list Z := [0x2e; 0x64; 0x61; 0x74; 0x61].

(** The spec's fifth scenario: sections at 0x200..0x300 and 0x400..0x500
    in a file of 0x500 bytes, 0x300..0x400 unclaimed. *)
Definition gap_pe : list byte :=
  pe64_file 0x500 0x200 (0, 0)
    [scn_header text_name 0x100 0x200; scn_header data_name 0x100 0x400].

(** [minimal_pe], but the security directory gives a table of 8 bytes at
    offset 0x10000, far past the end of the file. *)
Definition stray_table_pe : list byte :=
  pe64_file 0x400 0x200 (0x10000, 8) [scn_header text_name 0x200 0x200].

(** A file of 0x400 bytes whose first section, at 0x200, claims 0x400
    bytes, and whose second section is 0x10 bytes at 0x300. *)
Definition overhang_pe : list byte :=
  pe64_file 0x400 0x200 (0, 0)
    [scn_header text_name 0x400 0x200; scn_header data_name 0x10 0x300].

(** [minimal_pe], but the size field of the security directory is
    0xfffffff8. *)
Definition negsize_pe : list byte :=
  pe64_file 0x400 0x200 (0, 0xfffffff8) [scn_header text_name 0x200 0x200].



(** [minimal_pe] followed by 16 bytes that no section claims. *)
Definition trailing_pe : list byte :=
  pe64_file 0x410 0x200 (0, 0) [scn_header text_name 0x200 0x200].

Definition trailing_image : image :=
  the_image (image_load pe_layout qsort_regions 1 trailing_pe).


(** [presigned_pe] parsed. *)
Definition presigned_parsed : image :=
  default (image_of_file [])
    (the_value None
       (image_pecoff_parse pe_layout (image_of_file presigned_pe))).

(** The first pass stays within the range where no conversion wraps: no
    region has a negative size, the sizes add up to less than 2^31,
    [cert_table_size] is not negative and [data_size] is below 2^31 - 8. *)
Definition in_range (img : image) : Prop :=
  Forall (fun r => 0 <= size r) (checksum_regions img) /\
  total_size (checksum_regions img) < 2 ^ 31 /\
  0 <= cert_table_size img /\
  data_size img < 2 ^ 31 - 8.

(** ** The shadow copy of the certificate table *)

(** The test of [image_pecoff_parse] on the header at offset [addr] of
    [mem], for a buffer of [size] bytes: revision, type, and a size field
    below [size]. *)
Definition header_ok (mem : list byte) (addr size : Z) : Prop :=
  rd_u16 mem (addr + off_cth_revision) = Done CERT_TABLE_REVISION /\
  rd_u16 mem (addr + off_cth_type) = Done CERT_TABLE_TYPE_PKCS /\
  exists csize, rd_u32 mem (addr + off_cth_size) = Done csize /\
                csize < size.

(** [sigbuf], when set, is the copy of the [dsize] bytes of [mem] at the
    table [ct], whose header passes the test; [sigsize] is its length. *)
Definition shadows (mem : list byte) (size : Z) (ct : ptr) (dsize : Z)
    (img : image) : Prop :=
  match sigbuf img with
  | Some copy =>
      exists addr, ct = InBuf addr /\ header_ok mem addr size /\
                   load_bytes mem addr dsize = Done copy /\
                   sigsize img = dsize
  | None => sigsize img = 0
  end.

(** A file of 0x400 bytes whose section [.text] at 0x200 has raw size
    0x208, so that [image_load] pads the buffer to 0x408 bytes; the
    security directory gives a table of 16 bytes at 0x3f0, and the size
    field of its header is 0x400, the length of the file. *)
Definition late_table_pe : list byte :=
  patch 0x3f0 (cert_entry 0x400 0x0200 0x0002 (bytes_of [1; 2; 3; 4; 5; 6; 7; 8]))
    (pe64_file 0x400 0x200 (0x3f0, 16) [scn_header text_name 0x208 0x200]).

(** [late_table_pe] as [image_load] returns it. *)
Definition late_table_image : image :=
  the_image (image_load pe_layout qsort_regions 2 late_table_pe).

(** In both optional headers the checksum field ends before entry
    [DATA_DIR_CERT_TABLE] of the data directory starts. *)
Definition fields_apart (L : layout) : Prop :=
  off_CheckSum (opt_32 L) + 4
  <= off_DataDirectory (opt_32 L)
     + sizeof_data_dir_entry * DATA_DIR_CERT_TABLE /\
  off_CheckSum (opt_64 L) + 4
  <= off_DataDirectory (opt_64 L)
     + sizeof_data_dir_entry * DATA_DIR_CERT_TABLE.


(** ** The digest input *)

(** The bytes of [mem] from offset [a] up to offset [b]. *)
Definition slice (mem : list byte) (a b : Z) : list byte :=
  take (Z.to_nat (b - a)) (drop (Z.to_nat a) mem).

(** No region holds a byte of the checksum field or of the security
    directory entry. *)
Definition clear_of_fields (img : image) : Prop :=
  Forall (fun r =>
            (data r + cast_size_t (size r) <= checksum img \/
             checksum img + 4 <= data r) /\
            (data r + cast_size_t (size r) <= data_dir_sigtable img \/
             data_dir_sigtable img + 8 <= data r))
         (checksum_regions img).

(** ** The end of [main] in [sbsign.c] *)

(** The loop [for (i = 0; !image_get_signature(ctx->image, i, &buf, &len);
    i++) ;] of [main], run for at most [fuel] calls: the final [i] ([None]
    when the fuel runs out). *)
Fixpoint count_signatures (fuel : nat) (img : image) (i : Z)
  : outcome (option Z) :=
  match fuel with
  | O => Done None
  | S fuel' =>
      rc <- image_get_signature img i ;;
      match rc with
      | None => Done (Some i)
      | Some _ => count_signatures fuel' img (cast_int (i + 1))
      end
  end.

(** What [main] does once the PKCS#7 blob [sig] of [sigsize] bytes is
    there: the blob is added to the image, and either the image or, with
    [--detached], the last signature of its table is written to the output
    file.  The result is what the write function returns and the bytes
    written ([None] when the fuel of the loop runs out); [main] itself
    ignores the three return values and exits with [EXIT_SUCCESS]. *)
Definition sign_and_write (fuel : nat) (detached : bool) (img : image)
    (sig : list byte) (sigsize : Z) : outcome (option (Z * list byte)) :=
  r <- image_add_signature img sig sigsize ;;
  let img := snd r in
  if detached then
    n <- count_signatures fuel img 0 ;;
    match n with
    | None => Done None
    | Some i =>
        r <- image_write_detached img (i - 1) ;;
        Done (Some r)
    end
  else
    r <- image_write img ;;
    Done (Some (fst (fst r), snd r)).

(** ** Reading a written file back *)

(** The read of [n] bytes at [off] ends within the first [D] bytes and
    touches neither the 4 bytes at [ck] nor the 8 bytes at [dd]. *)
Definition in_data (D ck dd off n : Z) : Prop :=
  off + n <= D /\
  (off + n <= ck \/ ck + 4 <= off) /\
  (off + n <= dd \/ dd + 8 <= off).

(** ** More results of sample runs *)

(** [late_table_pe] parsed, and the regions found in the first pass. *)
Definition late_table_parsed : image :=
  default (image_of_file [])
    (the_value None
       (image_pecoff_parse pe_layout (image_of_file late_table_pe))).

Definition late_table_regions : image :=
  the_value (image_of_file [])
    (image_find_regions pe_layout qsort_regions late_table_parsed).

(** [minimal_pe] loaded and signed with the payloads [two_sigs]. *)
Definition twice_signed : image :=
  the_value minimal_image (add_signatures minimal_image two_sigs).

(** * Properties *)

(** ** Integer conversions *)

Lemma cast_int_id z : - 2 ^ 31 <= z < 2 ^ 31 -> cast_int z = z.
Proof. intros H. unfold cast_int. rewrite Z.mod_small; lia. Qed.

Lemma cast_u32_id z : 0 <= z < 2 ^ 32 -> cast_u32 z = z.
Proof. intros H. unfold cast_u32. rewrite Z.mod_small; lia. Qed.

Lemma cast_size_t_id z : 0 <= z < 2 ^ 64 -> cast_size_t z = z.
Proof. intros H. unfold cast_size_t. rewrite Z.mod_small; lia. Qed.

Lemma cast_ptrdiff_id z : - 2 ^ 63 <= z < 2 ^ 63 -> cast_ptrdiff z = z.
Proof. intros H. unfold cast_ptrdiff. rewrite Z.mod_small; lia. Qed.

Lemma cast_size_t_range z : 0 <= cast_size_t z < 2 ^ 64.
Proof. unfold cast_size_t. apply Z.mod_pos_bound. lia. Qed.

Lemma cast_u32_range z : 0 <= cast_u32 z < 2 ^ 32.
Proof. unfold cast_u32. apply Z.mod_pos_bound. lia. Qed.

Lemma cast_u16_range z : 0 <= cast_u16 z < 2 ^ 16.
Proof. unfold cast_u16. apply Z.mod_pos_bound. lia. Qed.

Lemma cast_int_range z : - 2 ^ 31 <= cast_int z < 2 ^ 31.
Proof.
  unfold cast_int. pose proof (Z.mod_pos_bound (z + 2 ^ 31) (2 ^ 32)). lia.
Qed.

(** Divisibility by 8 survives every conversion. *)
Lemma cast_int_mod8 z : cast_int z mod 8 = z mod 8.
Proof.
  unfold cast_int.
  rewrite (Z.mod_eq (z + 2 ^ 31) (2 ^ 32)) by lia.
  replace (z + 2 ^ 31 - 2 ^ 32 * ((z + 2 ^ 31) / 2 ^ 32) - 2 ^ 31)
    with (z + (- 2 ^ 29 * ((z + 2 ^ 31) / 2 ^ 32)) * 8) by lia.
  apply Z.mod_add. lia.
Qed.

Lemma cast_size_t_mod8 z : cast_size_t z mod 8 = z mod 8.
Proof.
  unfold cast_size_t.
  rewrite (Z.mod_eq z (2 ^ 64)) by lia.
  replace (z - 2 ^ 64 * (z / 2 ^ 64))
    with (z + (- 2 ^ 61 * (z / 2 ^ 64)) * 8) by lia.
  apply Z.mod_add. lia.
Qed.

Lemma land_lnot7 x : Z.land x (Z.lnot 7) = 8 * (x / 8).
Proof.
  change 7 with (Z.ones 3).
  rewrite <- Z.ldiff_land, Z.ldiff_ones_r by lia.
  rewrite Z.shiftl_mul_pow2, Z.shiftr_div_pow2 by lia.
  change (2 ^ 3) with 8. lia.
Qed.

Lemma align_up_8 size :
  align_up size 8 = 8 * (cast_int (cast_int (size + 8) - 1) / 8).
Proof.
  unfold align_up. change (cast_int (8 - 1)) with 7. apply land_lnot7.
Qed.

Lemma align_up_mod8 size : align_up size 8 mod 8 = 0.
Proof. rewrite align_up_8, Z.mul_comm. apply Z.mod_mul. lia. Qed.

Lemma align_up_small size :
  0 <= size < 2 ^ 31 - 8 -> align_up size 8 = 8 * ((size + 7) / 8).
Proof.
  intros H. rewrite align_up_8.
  rewrite (cast_int_id (size + 8)) by lia.
  rewrite cast_int_id by lia.
  do 2 f_equal. lia.
Qed.

Lemma align_up_bounds size :
  0 <= size < 2 ^ 31 - 8 -> size <= align_up size 8 < size + 8.
Proof.
  intros H. rewrite align_up_small by done.
  pose proof (Z.div_mod (size + 7) 8).
  pose proof (Z.mod_pos_bound (size + 7) 8). lia.
Qed.

Lemma align_up_aligned size :
  0 <= size < 2 ^ 31 - 8 -> size mod 8 = 0 -> align_up size 8 = size.
Proof.
  intros H H8. rewrite align_up_small by done.
  pose proof (Z.div_mod size 8).
  replace (size + 7) with (7 + (size / 8) * 8) by lia.
  rewrite Z.div_add by lia. change (7 / 8) with 0. lia.
Qed.

(** ** Bytes *)

Lemma u8_range b : 0 <= u8 b < 256.
Proof.
  unfold u8. pose proof (Byte.to_N_bounded b). lia.
Qed.

Lemma u8_byte_of_Z z : u8 (byte_of_Z z) = z mod 256.
Proof.
  unfold u8, byte_of_Z.
  pose proof (Z.mod_pos_bound z 256).
  destruct (Byte.of_N (Z.to_N (z mod 256))) as [b|] eqn:E; simpl.
  - apply Byte.to_of_N in E. lia.
  - apply Byte.of_N_None_iff in E. lia.
Qed.

Lemma byte_of_Z_u8 b : byte_of_Z (u8 b) = b.
Proof.
  unfold byte_of_Z, u8.
  pose proof (Byte.to_N_bounded b).
  rewrite Z.mod_small by lia.
  rewrite N2Z.id, Byte.of_to_N. done.
Qed.

Lemma length_le_bytes n v : length (le_bytes n v) = n.
Proof. revert v. induction n; intros; simpl; auto. Qed.

Lemma le_val_le_bytes n v : le_val (le_bytes n v) = v mod 256 ^ Z.of_nat n.
Proof.
  revert v. induction n as [|n IH]; intros v.
  - simpl. rewrite Z.mod_1_r. done.
  - cbn [le_bytes le_val]. rewrite IH, u8_byte_of_Z.
    rewrite Nat2Z.inj_succ, Z.pow_succ_r by lia.
    rewrite Z.rem_mul_r by lia. done.
Qed.

Lemma le_val_range bs : 0 <= le_val bs < 256 ^ len bs.
Proof.
  unfold len. induction bs as [|b bs IH].
  - simpl. lia.
  - cbn [le_val length]. rewrite Nat2Z.inj_succ, Z.pow_succ_r by lia.
    pose proof (u8_range b). lia.
Qed.

Lemma le_bytes_le_val bs : le_bytes (length bs) (le_val bs) = bs.
Proof.
  induction bs as [|b bs IH]; [done|].
  cbn [length le_bytes le_val].
  pose proof (u8_range b).
  assert (Hm : (u8 b + 256 * le_val bs) mod 256 = u8 b).
  { rewrite Z.mul_comm, Z.mod_add, Z.mod_small; lia. }
  assert (Hd : (u8 b + 256 * le_val bs) / 256 = le_val bs).
  { rewrite Z.mul_comm, Z.div_add, Z.div_small; lia. }
  rewrite Hd, IH. f_equal.
  transitivity (byte_of_Z (u8 b)); [|apply byte_of_Z_u8].
  unfold byte_of_Z. rewrite Hm, (Z.mod_small (u8 b)) by lia. done.
Qed.

(** ** Outcomes and memory accesses *)

Lemma obind_Done {A B} (m : outcome A) (k : A -> outcome B) b :
  obind m k = Done b -> exists a, m = Done a /\ k a = Done b.
Proof. destruct m; simpl; [eauto | discriminate]. Qed.

(** Split a hypothesis [x <- m ;; k = Done b] into its two steps. *)
Ltac bind_inv H :=
  let a := fresh "v" in
  let E := fresh "E" in
  apply obind_Done in H as (a & E & H).

(** Turn the boolean tests of the code found in the context into
    propositions. *)
Ltac tests :=
  repeat match goal with
  | H : (_ <=? _) = true |- _ => apply Z.leb_le in H
  | H : (_ <=? _) = false |- _ => apply Z.leb_gt in H
  | H : (_ <? _) = true |- _ => apply Z.ltb_lt in H
  | H : (_ <? _) = false |- _ => apply Z.ltb_ge in H
  | H : (_ =? _) = true |- _ => apply Z.eqb_eq in H
  | H : (_ =? _) = false |- _ => apply Z.eqb_neq in H
  | H : negb _ = true |- _ => apply negb_true_iff in H
  | H : negb _ = false |- _ => apply negb_false_iff in H
  | H : _ && _ = true |- _ => apply andb_prop in H as [? ?]
  end.

Lemma load_bytes_Done mem off n bs :
  load_bytes mem off n = Done bs ->
  0 <= off /\ 0 <= n /\ off + n <= len mem /\
  bs = take (Z.to_nat n) (drop (Z.to_nat off) mem) /\ len bs = n.
Proof.
  unfold load_bytes, len. intros H.
  destruct (0 <=? off) eqn:E1; [|discriminate].
  destruct (0 <=? n) eqn:E2; [|discriminate].
  destruct (off + n <=? Z.of_nat (length mem)) eqn:E3; [|discriminate].
  simpl in H. injection H as <-. tests.
  rewrite length_take, length_drop. repeat split; try done; lia.
Qed.

Lemma load_bytes_in_range mem off n :
  0 <= off -> 0 <= n -> off + n <= len mem ->
  load_bytes mem off n = Done (take (Z.to_nat n) (drop (Z.to_nat off) mem)).
Proof.
  unfold load_bytes, len. intros H1 H2 H3.
  destruct (0 <=? off) eqn:E1; [|tests; lia].
  destruct (0 <=? n) eqn:E2; [|tests; lia].
  destruct (off + n <=? Z.of_nat (length mem)) eqn:E3; [|tests; lia].
  done.
Qed.

Lemma store_bytes_Done mem off bs mem' :
  store_bytes mem off bs = Done mem' ->
  0 <= off /\ off + len bs <= len mem /\
  mem' = take (Z.to_nat off) mem ++ bs ++ drop (Z.to_nat (off + len bs)) mem /\
  len mem' = len mem.
Proof.
  unfold store_bytes, len. intros H.
  destruct (0 <=? off) eqn:E1; [|discriminate].
  destruct (off + Z.of_nat (length bs) <=? Z.of_nat (length mem)) eqn:E3;
    [|discriminate].
  simpl in H. injection H as <-. tests.
  rewrite !length_app, length_take, length_drop.
  repeat split; try done; lia.
Qed.

Lemma store_bytes_in_range mem off bs :
  0 <= off -> off + len bs <= len mem ->
  store_bytes mem off bs =
    Done (take (Z.to_nat off) mem ++ bs
            ++ drop (Z.to_nat (off + len bs)) mem).
Proof.
  unfold store_bytes, len. intros H1 H2.
  destruct (0 <=? off) eqn:E1; [|tests; lia].
  destruct (off + Z.of_nat (length bs) <=? Z.of_nat (length mem)) eqn:E3;
    [|tests; lia].
  done.
Qed.

(** Reading back what was stored. *)
Lemma load_store_same mem off bs mem' :
  store_bytes mem off bs = Done mem' ->
  load_bytes mem' off (len bs) = Done bs.
Proof.
  intros H. apply store_bytes_Done in H as (H1 & H2 & -> & H4).
  unfold len in *.
  rewrite load_bytes_in_range; unfold len;
    [|lia|lia|rewrite !length_app, length_take, length_drop; lia].
  f_equal. rewrite drop_app_length' by (rewrite length_take; lia).
  rewrite Nat2Z.id. apply take_app_length.
Qed.

(** A store leaves the bytes outside its range alone. *)
Lemma load_store_other mem off bs mem' off' n :
  store_bytes mem off bs = Done mem' ->
  off' + n <= off \/ off + len bs <= off' ->
  load_bytes mem' off' n = load_bytes mem off' n.
Proof.
  intros H Hd. apply store_bytes_Done in H as (H1 & H2 & -> & H4).
  unfold load_bytes. rewrite H4.
  destruct ((0 <=? off') && (0 <=? n) && (off' + n <=? len mem)) eqn:E;
    [|done].
  tests. f_equal. unfold len in *. apply list_eq. intros i.
  destruct (decide (i < Z.to_nat n)%nat) as [Hi|Hi].
  2:{ rewrite !lookup_take_ge by lia. done. }
  rewrite !lookup_take_lt, !lookup_drop by lia.
  destruct Hd as [Hd|Hd].
  - rewrite lookup_app_l by (rewrite length_take; lia).
    rewrite lookup_take_lt by lia. done.
  - rewrite lookup_app_r by (rewrite length_take; lia).
    rewrite lookup_app_r by (rewrite length_take; lia).
    rewrite lookup_drop, length_take. f_equal. lia.
Qed.

Lemma memset_Done mem off c n mem' :
  memset mem off c n = Done mem' ->
  0 <= n /\ store_bytes mem off (replicate (Z.to_nat n) (byte_of_Z c))
            = Done mem'.
Proof.
  unfold memset. destruct (0 <=? n) eqn:E; [|discriminate].
  tests. split; [lia|done].
Qed.

Lemma rd_u32_Done mem off v :
  rd_u32 mem off = Done v ->
  exists bs, load_bytes mem off 4 = Done bs /\ v = le_val bs.
Proof.
  unfold rd_u32. intros H. bind_inv H. injection H as <-. eauto.
Qed.

Lemma rd_wr_u32 mem off v mem' :
  wr_u32 mem off v = Done mem' -> rd_u32 mem' off = Done (cast_u32 v).
Proof.
  unfold wr_u32, rd_u32. intros H.
  apply load_store_same in H. unfold len in H.
  rewrite length_le_bytes in H. change (Z.of_nat 4) with 4 in H.
  rewrite H. cbv [obind]. rewrite le_val_le_bytes. done.
Qed.

(** ** The loader *)

Section LoaderFacts.
Context (L : layout) (qsort : list region -> list region).

(** A load that succeeds ends with a parse and a region pass of the final
    buffer, and with [data_size] within the buffer. *)
Lemma reparse_Loaded fuel i img :
  reparse L qsort fuel i = Loaded img ->
  exists i1 i2,
    image_pecoff_parse L i1 = Done (Some i2) /\
    image_find_regions L qsort i2 = Done img /\
    data_size img <= image_size img.
Proof.
  revert i. induction fuel as [|fuel IH]; intros i H; [discriminate|].
  cbn [reparse] in H.
  destruct (image_pecoff_parse L i) as [[i2|]|] eqn:Ep; try discriminate.
  destruct (image_find_regions L qsort i2) as [i3|] eqn:Er; try discriminate.
  destruct (image_size i3 <? data_size i3) eqn:Es.
  - destruct (memset _ _ _ _) as [buf'|]; [|discriminate]. eauto.
  - injection H as <-. tests. eauto 6.
Qed.

Lemma find_regions_data_size i img :
  image_find_regions L qsort i = Done img -> data_size img mod 8 = 0.
Proof.
  unfold image_find_regions. intros H. bind_inv H.
  destruct (last _) as [r|]; [|discriminate].
  injection H as <-. cbn [data_size set_regions].
  rewrite cast_size_t_mod8. apply align_up_mod8.
Qed.

End LoaderFacts.

(** ** The editor keeps lengths aligned *)

Lemma add_signature_sigsize img sig size rc img' :
  image_add_signature img sig size = Done (rc, img') ->
  sigsize img mod 8 = 0 ->
  sigsize img' mod 8 = 0 /\ data_size img' = data_size img /\
  buf img' = buf img.
Proof.
  unfold image_add_signature. intros H H8.
  repeat bind_inv H. injection H as <- <-.
  cbn [sigsize data_size buf set_cert_table set_sig].
  split; [|done].
  destruct (sigbuf img); rewrite cast_size_t_mod8.
  - rewrite Z.add_mod, H8, align_up_mod8 by lia. done.
  - apply align_up_mod8.
Qed.

Lemma remove_signature_sigsize img signum rc img' :
  image_remove_signature img signum = Done (rc, img') ->
  sigsize img mod 8 = 0 ->
  sigsize img' mod 8 = 0 /\ data_size img' = data_size img /\
  buf img' = buf img.
Proof.
  unfold image_remove_signature. intros H H8.
  bind_inv H.
  assert (Hs : forall x,
    cast_size_t (sigsize img - cast_size_t (align_up x 8)) mod 8 = 0).
  { intros x. rewrite cast_size_t_mod8, Zminus_mod, H8, cast_size_t_mod8,
      align_up_mod8. done. }
  destruct v as [[b s]|]; [|injection H as <- <-; done].
  destruct (sigbuf img) as [mem|]; [|discriminate].
  destruct (_ <=? _).
  - destruct (_ =? 0); injection H as <- <-;
      cbn [sigsize data_size buf set_sig]; auto.
  - repeat bind_inv H. injection H as <- <-.
    cbn [sigsize data_size buf set_sig]. auto.
Qed.

Lemma run_edits_sigsize img es img' :
  run_edits img es = Done img' ->
  sigsize img mod 8 = 0 ->
  sigsize img' mod 8 = 0 /\ data_size img' = data_size img /\
  buf img' = buf img.
Proof.
  revert img. induction es as [|e es IH]; intros img H H8.
  - injection H as <-. done.
  - cbn [run_edits] in H. bind_inv H. destruct v as [rc img1].
    assert (sigsize img1 mod 8 = 0 /\ data_size img1 = data_size img /\
            buf img1 = buf img) as (H1 & H2 & H3).
    { destruct e; cbn [run_edit] in E;
        eauto using add_signature_sigsize, remove_signature_sigsize. }
    cbn [snd] in H. destruct (IH _ H H1) as (? & ? & ?).
    repeat split; congruence.
Qed.

(** C7 (as amended).  After a successful load [data_size] is a multiple of
    8; and if the certificate table taken from the file, when there is one,
    has a length that is a multiple of 8, then after any sequence of
    [image_add_signature] and [image_remove_signature] calls the length of
    [sigbuf] is still a multiple of 8 and [data_size] is unchanged. *)
Theorem alignment_kept L qsort fuel file img es img' :
  image_load L qsort fuel file = Loaded img ->
  sigsize img mod 8 = 0 ->
  run_edits img es = Done img' ->
  data_size img mod 8 = 0 /\
  sigsize img' mod 8 = 0 /\
  data_size img' = data_size img.
Proof.
  intros Hl H8 He.
  apply reparse_Loaded in Hl as (i1 & i2 & _ & Hr & _).
  apply find_regions_data_size in Hr.
  destruct (run_edits_sigsize _ _ _ He H8) as (? & ? & _). done.
Qed.


(** C7 as stated fails: a file whose security directory announces a
    certificate table of 12 bytes, with a well-formed first header, is
    loaded with a [sigbuf] of 12 bytes. *)
Lemma presigned_not_aligned :
  exists img,
    image_load pe_layout qsort_regions 1 presigned_pe = Loaded img /\
    sigbuf img <> None /\
    sigsize img = 12 /\
    sigsize img mod 8 <> 0.
Proof.
  eexists. split; [vm_compute; reflexivity|].
  split; [discriminate|]. split; [reflexivity|]. discriminate.
Qed.

(** ** Lengths *)

Lemma len_app {A} (l k : list A) : len (l ++ k) = len l + len k.
Proof. unfold len. rewrite length_app. lia. Qed.

Lemma len_replicate {A} n (x : A) : len (replicate n x) = Z.of_nat n.
Proof. unfold len. rewrite length_replicate. done. Qed.

Lemma len_le_bytes n v : len (le_bytes n v) = Z.of_nat n.
Proof. unfold len. rewrite length_le_bytes. done. Qed.

Lemma len_nonneg {A} (l : list A) : 0 <= len l.
Proof. unfold len. lia. Qed.

Lemma align8_bounds n : n <= align8 n < n + 8.
Proof.
  unfold align8. pose proof (Z.div_mod (n + 7) 8).
  pose proof (Z.mod_pos_bound (n + 7) 8). lia.
Qed.

Lemma align_up_align8 n : 0 <= n < 2 ^ 31 - 8 -> align_up n 8 = align8 n.
Proof. apply align_up_small. Qed.

Lemma len_cert_entry s r t payload :
  len (cert_entry s r t payload) = 8 + len payload.
Proof. unfold cert_entry. rewrite !len_app, !len_le_bytes. lia. Qed.

Lemma len_win_certificate payload :
  len (win_certificate payload) = align8 (len payload + 8).
Proof.
  unfold win_certificate. rewrite len_app, len_cert_entry, len_replicate.
  pose proof (align8_bounds (len payload + 8)). lia.
Qed.

(** ** What [image_add_signature] stores *)

(** A store at the start of a zero-filled tail. *)
Lemma store_bytes_zeros pre bs n off :
  off = len pre -> (length bs <= n)%nat ->
  store_bytes (pre ++ replicate n x00) off bs
  = Done ((pre ++ bs) ++ replicate (n - length bs) x00).
Proof.
  intros -> Hn. pose proof (len_nonneg pre).
  rewrite store_bytes_in_range;
    [|lia|rewrite len_app, len_replicate; unfold len; lia].
  f_equal. unfold len.
  rewrite take_app_length' by lia.
  rewrite <- app_assoc. do 2 f_equal.
  rewrite drop_app_ge by lia.
  rewrite drop_replicate. f_equal. lia.
Qed.

(** The stores of [image_add_signature] into a zero-filled tail write
    the entry of the spec. *)
Lemma entry_stores {X} old sig (k : list byte -> outcome X) :
  len sig < 2 ^ 31 - 16 ->
  (mem <- memset (old ++ replicate (Z.to_nat (align8 (len sig + 8))) x00)
            (len old) 0 8 ;;
   mem <- wr_u32 mem (len old + off_cth_size) (cast_u32 (len sig + 8)) ;;
   mem <- wr_u16 mem (len old + off_cth_revision) CERT_TABLE_REVISION ;;
   mem <- wr_u16 mem (len old + off_cth_type) CERT_TABLE_TYPE_PKCS ;;
   payload <- load_bytes sig 0 (cast_size_t (len sig)) ;;
   mem <- store_bytes mem (len old + 8) payload ;;
   mem <- (if negb (align8 (len sig + 8) =? len sig + 8)
           then memset mem (len old + 8 + len sig) 0
                  (cast_size_t (cast_int (align8 (len sig + 8) - (len sig + 8))))
           else Done mem) ;;
   k mem) = k (old ++ win_certificate sig).
Proof.
  intros Hs.
  pose proof (len_nonneg sig) as Hs0.
  pose proof (len_nonneg old) as Ho0.
  pose proof (align8_bounds (len sig + 8)) as Ha.
  set (aligned := align8 (len sig + 8)) in *.
  unfold memset. change (0 <=? 8) with true. cbv iota.
  change (byte_of_Z 0) with x00.
  rewrite store_bytes_zeros by (rewrite ?length_replicate; lia).
  cbv [obind].
  rewrite length_replicate, <- app_assoc, <- replicate_add.
  replace (Z.to_nat 8 + (Z.to_nat aligned - Z.to_nat 8))%nat
    with (Z.to_nat aligned) by lia.
  unfold wr_u32, wr_u16.
  rewrite store_bytes_zeros by (rewrite ?length_le_bytes; unfold off_cth_size; lia).
  cbv [obind]. rewrite length_le_bytes.
  rewrite store_bytes_zeros
    by (rewrite ?length_le_bytes, ?len_app, ?len_le_bytes; unfold off_cth_revision; lia).
  cbv [obind]. rewrite length_le_bytes.
  rewrite store_bytes_zeros
    by (rewrite ?length_le_bytes, ?len_app, ?len_le_bytes; unfold off_cth_type; lia).
  cbv [obind]. rewrite length_le_bytes.
  rewrite cast_size_t_id by lia.
  rewrite load_bytes_in_range by lia.
  cbv [obind]. change (Z.to_nat 0) with 0%nat. rewrite drop_0.
  rewrite take_ge by (unfold len; lia).
  rewrite store_bytes_zeros
    by (rewrite ?length_le_bytes, ?len_app, ?len_le_bytes; unfold len in *; lia).
  cbv [obind].
  rewrite (cast_int_id (aligned - _)), cast_size_t_id by lia.
  assert (Hfin : forall pad,
    pad = replicate (Z.to_nat (aligned - (len sig + 8))) x00 ->
    ((((old ++ le_bytes 4 (cast_u32 (len sig + 8))) ++
         le_bytes 2 CERT_TABLE_REVISION) ++
        le_bytes 2 CERT_TABLE_TYPE_PKCS) ++ sig) ++ pad
    = old ++ win_certificate sig).
  { intros pad ->. unfold win_certificate, cert_entry. fold aligned.
    rewrite cast_u32_id by lia. rewrite <- !app_assoc. done. }
  destruct (aligned =? len sig + 8) eqn:Ea; cbn [negb]; tests.
  - f_equal. apply Hfin. f_equal. unfold len in *. lia.
  - replace (0 <=? aligned - (len sig + 8)) with true by (symmetry; apply Z.leb_le; lia).
    rewrite store_bytes_zeros
      by (rewrite ?length_replicate, ?length_le_bytes, ?len_app, ?len_le_bytes;
          unfold len in *; lia).
    f_equal. rewrite length_replicate.
    replace (Z.to_nat aligned - 4 - 2 - 2 - length sig -
             Z.to_nat (aligned - (len sig + 8)))%nat with 0%nat
      by (unfold len in *; lia).
    cbn [replicate]. rewrite app_nil_r. apply Hfin. done.
Qed.

Lemma add_signature_appends img sig :
  (sigbuf img <> None -> sigsize img = len (sig_bytes img)) ->
  len sig < 2 ^ 31 - 16 ->
  len (sig_bytes img) + len sig + 16 < 2 ^ 63 ->
  image_add_signature img sig (len sig)
  = Done (0, set_cert_table
               (set_sig img (Some (sig_bytes img ++ win_certificate sig))
                  (len (sig_bytes img) + len (win_certificate sig)))
               (InSig (len (sig_bytes img)))).
Proof.
  intros Hc Hs Ht.
  pose proof (len_nonneg sig) as Hs0.
  pose proof (align8_bounds (len sig + 8)) as Ha.
  unfold image_add_signature.
  change sizeof_cert_table_header with 8.
  rewrite (cast_int_id (len sig + 8)) by lia.
  rewrite align_up_align8 by lia.
  rewrite len_win_certificate.
  unfold sig_bytes in *.
  destruct (sigbuf img) as [p|] eqn:Ep; cbn [default from_option id] in *.
  - pose proof (len_nonneg p) as Hp0.
    rewrite Hc by done.
    rewrite cast_ptrdiff_id, cast_size_t_id by lia.
    replace (talloc_realloc p (len p + align8 (len sig + 8)))
      with (p ++ replicate (Z.to_nat (align8 (len sig + 8))) x00).
    2:{ unfold talloc_realloc, len in *. rewrite take_ge by lia.
        do 2 f_equal. lia. }
    rewrite Z.add_0_l.
    apply (entry_stores p sig). done.
  - rewrite (cast_size_t_id (align8 _)) by lia.
    change (talloc_array (align8 (len sig + 8)))
      with ([] ++ replicate (Z.to_nat (align8 (len sig + 8))) x00).
    exact (entry_stores [] sig
             (fun m => Done (0, set_cert_table
                                  (set_sig img (Some m) _) (InSig _))) Hs).
Qed.

Lemma load_bytes_middle pre bs post off n :
  off = len pre -> n = len bs ->
  load_bytes (pre ++ bs ++ post) off n = Done bs.
Proof.
  intros -> ->. pose proof (len_nonneg pre). pose proof (len_nonneg bs).
  rewrite load_bytes_in_range by (rewrite ?len_app; unfold len in *; lia).
  f_equal. unfold len. rewrite !Nat2Z.id.
  rewrite drop_app_length. apply take_app_length.
Qed.



Lemma cert_table_of_cons s sigs :
  cert_table_of (s :: sigs) = win_certificate s ++ cert_table_of sigs.
Proof. done. Qed.

Lemma len_cert_table_cons s sigs :
  len (cert_table_of (s :: sigs))
  = align8 (len s + 8) + len (cert_table_of sigs).
Proof.
  unfold cert_table_of. cbn [fmap list_fmap concat].
  rewrite len_app, len_win_certificate. done.
Qed.

Lemma rd_u32_entry pre s post off :
  off = len pre -> small_sig s ->
  rd_u32 (pre ++ win_certificate s ++ post) (off + off_cth_size)
  = Done (len s + 8).
Proof.
  intros -> Hs. unfold small_sig in Hs. pose proof (len_nonneg s).
  unfold win_certificate, cert_entry, rd_u32, off_cth_size.
  rewrite Z.add_0_r. rewrite <- !app_assoc.
  rewrite load_bytes_middle by (rewrite ?len_le_bytes; done).
  cbv [obind]. rewrite le_val_le_bytes.
  change (256 ^ Z.of_nat 4) with (2 ^ 32).
  rewrite Z.mod_small by lia. done.
Qed.

Lemma get_signature_walk_table pre sigs post i :
  Forall small_sig sigs ->
  len pre + len (cert_table_of sigs) < 2 ^ 63 ->
  (i <= length sigs)%nat ->
  get_signature_walk (pre ++ cert_table_of sigs ++ post) i (len pre)
  = Done (len pre + len (cert_table_of (take i sigs))).
Proof.
  revert pre i. induction sigs as [|s sigs IH]; intros pre i Hall Hlen Hi.
  - assert (i = 0%nat) as -> by (simpl in Hi; lia).
    simpl. f_equal. unfold len. simpl. lia.
  - destruct i as [|i].
    { simpl. f_equal. unfold len. simpl. lia. }
    apply Forall_cons in Hall as [Hs Hall].
    cbn [get_signature_walk take].
    rewrite len_cert_table_cons in Hlen |- *.
    rewrite cert_table_of_cons, <- app_assoc.
    rewrite rd_u32_entry by done. cbv [obind].
    pose proof (len_nonneg pre). pose proof (len_nonneg s).
    pose proof (len_nonneg (cert_table_of sigs)).
    pose proof (align8_bounds (len s + 8)).
    unfold small_sig in Hs.
    rewrite cast_int_id, align_up_align8 by lia.
    rewrite cast_ptrdiff_id by lia.
    replace (len pre + align8 (len s + 8))
      with (len (pre ++ win_certificate s))
      by (rewrite len_app, len_win_certificate; done).
    rewrite app_assoc.
    rewrite IH; [|done|rewrite len_app, len_win_certificate; lia
                 |simpl in Hi; lia].
    f_equal. rewrite len_app, len_win_certificate. lia.
Qed.

Lemma cert_table_of_app a b :
  cert_table_of (a ++ b) = cert_table_of a ++ cert_table_of b.
Proof. unfold cert_table_of. rewrite fmap_app, concat_app. done. Qed.

Lemma len_cert_table_take i sigs sig :
  sigs !! i = Some sig ->
  len (cert_table_of (take i sigs)) + align8 (len sig + 8)
  <= len (cert_table_of sigs).
Proof.
  intros Hi. rewrite <- (take_drop_middle sigs i sig Hi) at 2.
  rewrite cert_table_of_app, cert_table_of_cons, !len_app,
    len_win_certificate.
  pose proof (len_nonneg (cert_table_of (drop (S i) sigs))). lia.
Qed.

(** Reading the table that holds [sigs]. *)
Lemma get_signature_table img sigs :
  sigbuf img = Some (cert_table_of sigs) ->
  sigsize img = len (cert_table_of sigs) ->
  Forall small_sig sigs ->
  len (cert_table_of sigs) < 2 ^ 63 ->
  (forall i sig, sigs !! i = Some sig ->
     image_get_signature img (Z.of_nat i)
     = Done (Some (len (cert_table_of (take i sigs)) + 8, len sig)) /\
     load_bytes (cert_table_of sigs)
       (len (cert_table_of (take i sigs)) + 8) (len sig) = Done sig) /\
  image_get_signature img (len sigs) = Done None.
Proof.
  intros Hb Hz Hall Hlen.
  pose proof (len_nonneg (cert_table_of sigs)) as H0.
  assert (Hw : forall i, (i <= length sigs)%nat ->
            get_signature_walk (cert_table_of sigs) i 0
            = Done (len (cert_table_of (take i sigs)))).
  { intros i Hi.
    pose proof (get_signature_walk_table [] sigs [] i Hall) as Hw.
    rewrite app_nil_r in Hw. apply Hw; [|done].
    change (len []) with 0. lia. }
  split.
  - intros i sig Hi.
    pose proof (len_cert_table_take _ _ _ Hi) as Hle.
    pose proof (align8_bounds (len sig + 8)) as Ha.
    pose proof (len_nonneg sig) as Hs0.
    pose proof (len_nonneg (cert_table_of (take i sigs))) as Ht0.
    assert (Hs : small_sig sig).
    { rewrite Forall_forall in Hall. apply Hall.
      eapply list_elem_of_lookup_2; eauto. }
    assert (Hsplit : cert_table_of sigs
              = cert_table_of (take i sigs) ++ win_certificate sig
                  ++ cert_table_of (drop (S i) sigs)).
    { rewrite <- (take_drop_middle sigs i sig Hi) at 1.
      rewrite cert_table_of_app, cert_table_of_cons. done. }
    split.
    + unfold image_get_signature. rewrite Hb, Nat2Z.id.
      rewrite Hw by (apply lookup_lt_Some in Hi; lia).
      cbv [obind]. rewrite Hz, Z.add_0_l, cast_ptrdiff_id by lia.
      destruct (_ <=? _) eqn:E; tests; [lia|].
      rewrite Hsplit at 1. rewrite rd_u32_entry by done.
      cbv [obind]. change sizeof_cert_table_header with 8.
      unfold small_sig in Hs.
      do 3 f_equal. rewrite cast_size_t_id; lia.
    + rewrite Hsplit. unfold win_certificate, cert_entry.
      set (pad := replicate _ x00).
      set (rest := cert_table_of (drop (S i) sigs)).
      transitivity
        (load_bytes
           ((cert_table_of (take i sigs) ++ le_bytes 4 (len sig + 8)
               ++ le_bytes 2 512 ++ le_bytes 2 2) ++ sig ++ pad ++ rest)
           (len (cert_table_of (take i sigs)) + 8) (len sig)).
      { f_equal. rewrite <- !app_assoc. done. }
      apply load_bytes_middle; [|done].
      rewrite !len_app, !len_le_bytes. lia.
  - unfold image_get_signature. rewrite Hb. unfold len at 1.
    rewrite Nat2Z.id, Hw by lia. cbv [obind].
    rewrite firstn_all, Hz, Z.add_0_l, cast_ptrdiff_id by lia.
    destruct (_ <=? _) eqn:E; tests; [done|lia].
Qed.

Lemma add_signatures_table sigs : forall img,
  (sigbuf img <> None -> sigsize img = len (sig_bytes img)) ->
  Forall small_sig sigs ->
  len (sig_bytes img) + len (cert_table_of sigs) < 2 ^ 63 - 8 ->
  exists img',
    add_signatures img sigs = Done img' /\
    sig_bytes img' = sig_bytes img ++ cert_table_of sigs /\
    (sigbuf img' <> None -> sigsize img' = len (sig_bytes img')) /\
    (sigs <> [] -> sigbuf img' <> None) /\
    buf img' = buf img /\ data_size img' = data_size img.
Proof.
  induction sigs as [|s sigs IH]; intros img Hc Hall Hlen.
  - exists img. rewrite app_nil_r. repeat split; done.
  - apply Forall_cons in Hall as [Hs Hall].
    rewrite len_cert_table_cons in Hlen.
    pose proof (align8_bounds (len s + 8)).
    pose proof (len_nonneg (cert_table_of sigs)).
    unfold add_signatures. cbn [fmap list_fmap run_edits run_edit].
    rewrite add_signature_appends; [|done|done|lia].
    cbv [obind]. cbn [snd].
    set (img1 := set_cert_table _ _).
    assert (Hb1 : sig_bytes img1 = sig_bytes img ++ win_certificate s) by done.
    destruct (IH img1) as (img' & He & Hb & Hc' & _ & Hbuf & Hds).
    + intros _. rewrite Hb1. cbn. rewrite len_app. done.
    + done.
    + rewrite Hb1, len_app, len_win_certificate. lia.
    + exists img'. split; [exact He|].
      split; [rewrite Hb, Hb1, <- app_assoc; done|].
      split; [done|]. split; [|done].
      intros _ Hn. rewrite Hb1 in Hb. unfold sig_bytes at 1 in Hb.
      rewrite Hn in Hb. cbn [default from_option] in Hb. symmetry in Hb. apply app_eq_nil in Hb as [Hb _].
      apply app_eq_nil in Hb as [_ Hb].
      apply (f_equal len) in Hb. rewrite len_win_certificate in Hb.
      pose proof (len_nonneg s). change (len []) with 0 in Hb. lia.
Qed.

Lemma remove_signature_failed img signum rc img' :
  image_remove_signature img signum = Done (rc, img') ->
  rc <> 0 -> img' = img.
Proof.
  unfold image_remove_signature. intros H Hrc. bind_inv H.
  destruct v as [[b s]|]; [|injection H as <- <-; done].
  destruct (sigbuf img) as [mem|]; [|discriminate].
  destruct (_ <=? _).
  - destruct (_ =? 0); injection H as <- <-; done.
  - repeat bind_inv H. injection H as <- <-. done.
Qed.

(** C6.  After the payloads [sigs] have been added, one after the other, to
    an image that had no signature, [image_get_signature] returns 0 for
    every index [i] below their number, with the payload of the [i]-th
    entry (found past the [i] entries before it, each taking
    [align8 (size)] bytes, and past its 8-byte header); it returns -1 for
    the index equal to their number.  [image_remove_signature] then
    returns -1 as well, and whenever it returns a nonzero value it leaves
    the image as it was.  ([image_get_signature] itself stores nothing.) *)
Theorem signature_count img sigs :
  sigbuf img = None ->
  Forall small_sig sigs ->
  len (cert_table_of sigs) < 2 ^ 63 - 8 ->
  exists img',
    add_signatures img sigs = Done img' /\
    (forall i sig, sigs !! i = Some sig ->
       image_get_signature img' (Z.of_nat i)
       = Done (Some (len (cert_table_of (take i sigs)) + 8, len sig)) /\
       load_bytes (sig_bytes img')
         (len (cert_table_of (take i sigs)) + 8) (len sig) = Done sig) /\
    image_get_signature img' (len sigs) = Done None /\
    image_remove_signature img' (len sigs) = Done (-1, img') /\
    (forall img0 signum rc img1,
       image_remove_signature img0 signum = Done (rc, img1) ->
       rc <> 0 -> img1 = img0).
Proof.
  intros Hn Hall Hlen.
  destruct (add_signatures_table sigs img) as (img' & He & Hb & Hc & Hne & _).
  { rewrite Hn. done. }
  { done. }
  { unfold sig_bytes. rewrite Hn. change (len (default [] None)) with 0. lia. }
  exists img'. split; [done|].
  unfold sig_bytes at 2 in Hb. rewrite Hn in Hb. cbn [default from_option] in Hb.
  rewrite app_nil_l in Hb.
  assert (Hget : (forall i sig, sigs !! i = Some sig ->
       image_get_signature img' (Z.of_nat i)
       = Done (Some (len (cert_table_of (take i sigs)) + 8, len sig)) /\
       load_bytes (sig_bytes img')
         (len (cert_table_of (take i sigs)) + 8) (len sig) = Done sig) /\
    image_get_signature img' (len sigs) = Done None).
  { destruct sigs as [|s sigs].
    - split; [intros i sig Hi; discriminate|].
      unfold add_signatures in He. injection He as <-.
      unfold image_get_signature. rewrite Hn. done.
    - assert (Hs : sigbuf img' = Some (cert_table_of (s :: sigs))).
      { specialize (Hne ltac:(done)). unfold sig_bytes in Hb.
        destruct (sigbuf img'); [|done].
        cbn [default from_option id] in Hb. rewrite Hb. done. }
      rewrite Hb. apply get_signature_table; [done| |done|lia].
      rewrite Hc, Hb; [done|congruence]. }
  destruct Hget as [Hget Hlast].
  split; [done|]. split; [done|].
  split; [|apply remove_signature_failed].
  unfold image_remove_signature. rewrite Hlast. done.
Qed.

(** C5.  On an image without signature, [image_add_signature] with the
    payload [sig] followed by [image_remove_signature] of entry 0 both
    return 0 and leave [sigbuf] null and [sigsize] zero again, with [buf]
    and [data_size] as before the add. *)
Theorem add_remove_restores img sig :
  sigbuf img = None ->
  small_sig sig ->
  exists img1 img2,
    image_add_signature img sig (len sig) = Done (0, img1) /\
    image_remove_signature img1 0 = Done (0, img2) /\
    sigbuf img2 = None /\ sigsize img2 = 0 /\
    buf img2 = buf img /\ data_size img2 = data_size img.
Proof.
  intros Hn Hs.
  pose proof (len_nonneg sig) as Hs0.
  pose proof (align8_bounds (len sig + 8)) as Ha.
  assert (Hs' := Hs). unfold small_sig in Hs'.
  exists (set_cert_table
            (set_sig img (Some (sig_bytes img ++ win_certificate sig))
               (len (sig_bytes img) + len (win_certificate sig)))
            (InSig (len (sig_bytes img)))).
  set (img1 := set_cert_table _ _).
  exists (set_sig img1 None 0).
  split.
  { apply add_signature_appends; [rewrite Hn; done|done|].
    unfold sig_bytes. rewrite Hn. change (len (default [] None)) with 0. lia. }
  assert (Hb : sigbuf img1 = Some (cert_table_of [sig])).
  { unfold img1, sig_bytes. rewrite Hn. cbn. rewrite app_nil_r. done. }
  assert (Hl : len (cert_table_of [sig]) = align8 (len sig + 8)).
  { rewrite len_cert_table_cons. change (len (cert_table_of [])) with 0. lia. }
  assert (Hz : sigsize img1 = len (cert_table_of [sig])).
  { rewrite Hl. unfold img1. cbn [sigsize set_cert_table set_sig].
    unfold sig_bytes. rewrite Hn. cbn [default from_option id].
    change (len []) with 0. rewrite len_win_certificate. lia. }
  destruct (get_signature_table img1 [sig] Hb Hz) as [Hget _].
  { repeat constructor. done. }
  { lia. }
  destruct (Hget 0%nat sig eq_refl) as [Hg _].
  split; [|done].
  unfold image_remove_signature. change (Z.of_nat 0) with 0 in Hg.
  rewrite Hg. cbv [obind]. rewrite Hb.
  cbn [take]. change (len (cert_table_of [])) with 0.
  change sizeof_cert_table_header with 8.
  replace (0 + 8 - 8) with 0 by lia.
  rewrite (cast_size_t_id (len sig + 8)) by lia.
  rewrite cast_int_id, align_up_align8 by lia.
  rewrite (cast_size_t_id (align8 _)) by lia.
  rewrite Hz, Hl.
  destruct (_ <=? _) eqn:E; tests; [|lia].
  done.
Qed.



(** ** The checksum *)

Lemma csum_update_fold_step csum x :
  0 <= csum < 2 ^ 16 -> 0 <= x < 2 ^ 16 ->
  csum_update_fold csum x = fold_step csum x /\
  0 <= fold_step csum x < 2 ^ 16.
Proof.
  intros Hc Hx. unfold csum_update_fold, fold_step.
  rewrite (cast_u32_id (csum + x)) by lia.
  change 0xffff with (Z.ones 16). rewrite Z.land_ones by lia.
  rewrite Z.shiftr_div_pow2 by lia.
  assert (Hb : 0 <= (csum + x) / 2 ^ 16 + (csum + x) mod 2 ^ 16 < 2 ^ 16).
  { pose proof (Z.div_mod (csum + x) (2 ^ 16) ltac:(lia)).
    pose proof (Z.mod_pos_bound (csum + x) (2 ^ 16) ltac:(lia)).
    lia. }
  split; [|lia].
  rewrite cast_u32_id by lia. unfold cast_u16. apply Z.mod_small. lia.
Qed.

Lemma csum_words_fold_sum bs : forall csum,
  0 <= csum < 2 ^ 16 ->
  csum_words csum bs = fold_sum csum bs /\ 0 <= fold_sum csum bs < 2 ^ 16.
Proof.
  unfold fold_sum.
  induction bs as [bs IH] using (induction_ltof1 _ (@length byte)).
  unfold ltof in IH. intros csum Hc.
  destruct bs as [|b0 [|b1 bs]].
  - simpl. done.
  - cbn [csum_words le_words fold_left].
    apply csum_update_fold_step; [done|]. pose proof (u8_range b0). lia.
  - cbn [csum_words le_words fold_left].
    pose proof (u8_range b0). pose proof (u8_range b1).
    cbn [le_val]. replace (u8 b0 + 256 * (u8 b1 + 256 * 0))
      with (u8 b0 + 256 * u8 b1) by lia.
    destruct (csum_update_fold_step csum (u8 b0 + 256 * u8 b1)) as [E Hr];
      [done|lia|].
    rewrite E. apply IH; [simpl; lia|done].
Qed.

Lemma csum_bytes_Done csum mem off n v :
  csum_bytes csum mem off n = Done v ->
  exists p, load_bytes mem off n = Done p /\ n < 2 ^ 32 /\
            v = csum_words csum p.
Proof.
  unfold csum_bytes. intros H. bind_inv H.
  destruct (2 ^ 32 <=? n) eqn:En; [discriminate|].
  injection H as <-. tests. eauto.
Qed.

Lemma rd_u32_other mem off bs mem' off' :
  store_bytes mem off bs = Done mem' ->
  off' + 4 <= off \/ off + len bs <= off' ->
  rd_u32 mem' off' = rd_u32 mem off'.
Proof.
  intros H Hd. unfold rd_u32. erewrite load_store_other; eauto.
Qed.

(** What [image_write] does, step by step. *)
Lemma image_write_Done img rc img' out :
  image_write img = Done (rc, img', out) ->
  exists buf1 buf2 image_bytes,
    wr_u32 (buf img) (data_dir_sigtable img + off_dd_addr)
      (if is_signed img then cast_u32 (data_size img) else 0) = Done buf1 /\
    wr_u32 buf1 (data_dir_sigtable img + off_dd_size)
      (if is_signed img then cast_u32 (sigsize img) else 0) = Done buf2 /\
    image_pecoff_update_checksum (set_buf img buf2 (image_size img))
      = Done img' /\
    load_bytes (buf img') 0 (data_size img) = Done image_bytes /\
    rc = 0 /\
    if is_signed img
    then exists sig, load_bytes (sig_bytes img) 0 (sigsize img) = Done sig /\
                     out = image_bytes ++ sig
    else out = image_bytes.
Proof.
  unfold image_write. intros H.
  bind_inv H. rename v into buf1, E into E1.
  bind_inv H. rename v into buf2, E into E2.
  bind_inv H. rename v into i3, E into E3.
  bind_inv H. rename v into image_bytes, E into E4.
  assert (Hds : data_size i3 = data_size img /\ sigsize i3 = sigsize img).
  { unfold image_pecoff_update_checksum in E3. repeat bind_inv E3.
    injection E3 as <-. done. }
  destruct Hds as [Hds Hss]. rewrite Hds in E4.
  exists buf1, buf2, image_bytes.
  destruct (is_signed img) eqn:Es; cbn [negb] in H.
  - bind_inv H. injection H as <- <- <-. rewrite Hss in E.
    repeat split; eauto.
  - injection H as <- <- <-. repeat split; eauto.
Qed.

Lemma update_checksum_Done img img' :
  image_pecoff_update_checksum img = Done img' ->
  exists p1 p2 p3 buf',
    load_bytes (buf img) 0 (cast_size_t (checksum img - 0)) = Done p1 /\
    cast_size_t (checksum img - 0) < 2 ^ 32 /\
    load_bytes (buf img) (checksum img + 4)
      (cast_size_t (0 + data_size img - (checksum img + 4))) = Done p2 /\
    cast_size_t (0 + data_size img - (checksum img + 4)) < 2 ^ 32 /\
    (if is_signed img
     then load_bytes (sig_bytes img) 0 (sigsize img) = Done p3 /\
          sigsize img < 2 ^ 32
     else p3 = []) /\
    wr_u32 (buf img) (checksum img)
      ((fold_sum (fold_sum (fold_sum 0 p1) p2) p3
        + data_size img + (if is_signed img then sigsize img else 0))
       mod 2 ^ 32) = Done buf' /\
    img' = set_buf img buf' (image_size img).
Proof.
  unfold image_pecoff_update_checksum. intros H.
  bind_inv H. apply csum_bytes_Done in E as (p1 & E1 & L1 & ->).
  bind_inv H. apply csum_bytes_Done in E as (p2 & E2 & L2 & ->).
  destruct (csum_words_fold_sum p1 0 ltac:(lia)) as [F1 R1].
  rewrite F1 in *.
  destruct (csum_words_fold_sum p2 _ R1) as [F2 R2].
  rewrite F2 in *.
  bind_inv H. bind_inv H. injection H as <-.
  exists p1, p2.
  destruct (is_signed img) eqn:Es.
  - apply csum_bytes_Done in E as (p3 & E3 & L3 & ->).
    destruct (csum_words_fold_sum p3 _ R2) as [F3 R3].
    rewrite F3 in *.
    exists p3, v0. repeat split; try done.
    rewrite <- E0. f_equal. unfold cast_u32.
    rewrite Zplus_mod_idemp_l. done.
  - injection E as <-. exists [], v0. repeat split; try done.
    rewrite <- E0. f_equal. unfold fold_sum at 1. cbn [le_words fold_left].
    rewrite Z.add_0_r. done.
Qed.

Lemma load_bytes_prefix l n r off k :
  0 <= off -> 0 <= k -> off + k <= Z.of_nat n -> Z.of_nat n <= len l ->
  load_bytes (take n l ++ r) off k = load_bytes l off k.
Proof.
  intros H1 H2 H3 H4. unfold len in *.
  rewrite (load_bytes_in_range (take n l ++ r))
    by (try lia; unfold len; rewrite length_app, length_take; lia).
  rewrite (load_bytes_in_range l) by (unfold len; lia).
  f_equal. apply list_eq. intros i.
  destruct (decide (i < Z.to_nat k)%nat) as [Hi|Hi].
  2:{ rewrite !lookup_take_ge by lia. done. }
  rewrite !lookup_take_lt, !lookup_drop by lia.
  rewrite lookup_app_l by (rewrite length_take; lia).
  rewrite lookup_take_lt by lia. done.
Qed.

(** C3.  The file that [image_write] emits is the first [data_size] bytes
    of the buffer followed by the signature bytes when the image is
    signed; its checksum field, read as a little-endian 32-bit value, holds
    the sum of the spec: the fold over [[0, off(CheckSum))], over
    [[off(CheckSum) + 4, data_size)] and over the signature bytes, plus
    [data_size], plus the length of the signature, on 32 bits. *)
Theorem checksum_written img rc img' out :
  len (buf img) < 2 ^ 63 ->
  image_write img = Done (rc, img', out) ->
  exists image_bytes sig,
    out = image_bytes ++ sig /\
    image_bytes = take (Z.to_nat (data_size img)) (buf img') /\
    len image_bytes = data_size img /\
    sig = (if is_signed img
           then take (Z.to_nat (sigsize img)) (sig_bytes img) else []) /\
    rd_u32 out (checksum img)
    = Done (pe_checksum image_bytes sig (checksum img)).
Proof.
  intros Hlen H.
  apply image_write_Done in H
    as (buf1 & buf2 & image_bytes & E1 & E2 & E3 & E4 & _ & Hout).
  apply update_checksum_Done in E3
    as (p1 & p2 & p3 & buf' & P1 & L1 & P2 & L2 & P3 & W & ->).
  cbn [buf checksum data_size set_buf image_size] in *.
  change (is_signed (set_buf img buf2 (image_size img)))
    with (is_signed img) in *.
  change (sig_bytes (set_buf img buf2 (image_size img)))
    with (sig_bytes img) in *.
  change (sigsize (set_buf img buf2 (image_size img)))
    with (sigsize img) in *.
  set (ck := checksum img) in *. set (ds := data_size img) in *.
  apply store_bytes_Done in E1 as (_ & _ & _ & Hl1).
  apply store_bytes_Done in E2 as (_ & _ & _ & Hl2).
  assert (Hw := W). apply rd_wr_u32 in Hw.
  apply store_bytes_Done in W as (Hck0 & Hck4 & Hbuf' & Hl3).
  rewrite len_le_bytes in Hck4. change (Z.of_nat 4) with 4 in Hck4.
  apply load_bytes_Done in E4 as (_ & Hds0 & Hds & Hib & Hil).
  rewrite Hl3 in Hds. rewrite Z.sub_0_r in P1, L1.
  rewrite (cast_size_t_id ck) in P1 by lia.
  assert (Hge : ck + 4 <= ds).
  { destruct (decide (ck + 4 <= ds)) as [|Hlt]; [done|exfalso].
    apply load_bytes_Done in P2 as (_ & _ & Hb & _).
    unfold cast_size_t in L2.
    replace (0 + ds - (ck + 4)) with ((ds - ck - 4 + 2 ^ 64) + (-1) * 2 ^ 64)
      in L2 by lia.
    rewrite Z.mod_add, Z.mod_small in L2 by lia. lia. }
  rewrite (cast_size_t_id (0 + ds - (ck + 4))) in P2 by lia.
  apply load_bytes_Done in P1 as (_ & _ & _ & -> & _).
  apply load_bytes_Done in P2 as (_ & _ & _ & -> & _).
  change (Z.to_nat 0) with 0%nat in *. rewrite drop_0 in *.
  assert (Hsig : exists sig,
            out = image_bytes ++ sig /\
            sig = (if is_signed img
                   then take (Z.to_nat (sigsize img)) (sig_bytes img)
                   else []) /\
            p3 = sig /\
            len sig = (if is_signed img then sigsize img else 0)).
  { destruct (is_signed img).
    - destruct Hout as (sig & Es & ->). destruct P3 as [P3 _].
      rewrite Es in P3. injection P3 as ->.
      apply load_bytes_Done in Es as (_ & _ & _ & -> & Hl).
      rewrite drop_0 in *. eauto.
    - subst out p3. exists []. rewrite app_nil_r. done. }
  destruct Hsig as (sig & -> & Hsig & -> & Hls).
  exists image_bytes, sig. repeat split; try done.
  assert (Hrd : rd_u32 (image_bytes ++ sig) ck = rd_u32 buf' ck).
  { unfold rd_u32. rewrite Hib.
    rewrite load_bytes_prefix; [done|lia|lia|lia|unfold len in *; lia]. }
  rewrite Hrd, Hw. f_equal.
  unfold cast_u32. rewrite Z.mod_mod by lia.
  unfold pe_checksum. rewrite Hil, Hls. f_equal.
  assert (T1 : take (Z.to_nat ck) image_bytes = take (Z.to_nat ck) buf2).
  { rewrite Hib, take_take, Hbuf'.
    replace (Z.to_nat ck `min` Z.to_nat ds)%nat with (Z.to_nat ck) by lia.
    rewrite take_app_length'; [done|]. unfold len in *.
    rewrite length_take. lia. }
  assert (T2 : drop (Z.to_nat (ck + 4)) image_bytes
               = take (Z.to_nat (0 + ds - (ck + 4)))
                   (drop (Z.to_nat (ck + 4)) buf2)).
  { rewrite Hib.
    replace (Z.to_nat ds)
      with (Z.to_nat (ck + 4) + Z.to_nat (0 + ds - (ck + 4)))%nat by lia.
    rewrite <- take_drop_commute. f_equal. rewrite Hbuf'.
    rewrite len_le_bytes. change (Z.of_nat 4) with 4.
    rewrite app_assoc, drop_app_length'; [done|].
    unfold len in *. rewrite length_app, length_take, length_le_bytes. lia. }
  rewrite T1, T2. done.
Qed.

Lemma is_signed_consistent img :
  sig_consistent img ->
  sigsize img = len (sig_bytes img) /\
  is_signed img = negb (bool_decide (sig_bytes img = [])).
Proof.
  unfold sig_consistent, sig_bytes, is_signed.
  destruct (sigbuf img) as [mem|]; cbn [default from_option id]; intros ->.
  - split; [done|].
    rewrite bool_decide_eq_true_2 by done. cbn [andb].
    destruct mem; done.
  - done.
Qed.

(** [image_write] on an image whose [sigsize] is the length of [sigbuf]
    and whose checksum field lies apart from the security directory entry:
    the entry in the buffer then holds ([data_size], length of [sigbuf]) as
    32-bit values when there are signature bytes and (0, 0) when there are
    none, and the emitted bytes are the first [data_size] bytes of the
    buffer followed by the signature bytes. *)
Lemma image_write_spec img rc img' out :
  sig_consistent img ->
  checksum img + 4 <= data_dir_sigtable img \/
    data_dir_sigtable img + 8 <= checksum img ->
  image_write img = Done (rc, img', out) ->
  rd_u32 (buf img') (data_dir_sigtable img + off_dd_addr)
  = Done (if bool_decide (sig_bytes img = []) then 0
          else cast_u32 (data_size img)) /\
  rd_u32 (buf img') (data_dir_sigtable img + off_dd_size)
  = Done (if bool_decide (sig_bytes img = []) then 0
          else cast_u32 (len (sig_bytes img))) /\
  out = take (Z.to_nat (data_size img)) (buf img') ++ sig_bytes img /\
  len (take (Z.to_nat (data_size img)) (buf img')) = data_size img.
Proof.
  intros Hc Hd H.
  apply is_signed_consistent in Hc as [Hz Hs].
  apply image_write_Done in H
    as (buf1 & buf2 & image_bytes & E1 & E2 & E3 & E4 & _ & Hout).
  apply update_checksum_Done in E3
    as (p1 & p2 & p3 & buf' & _ & _ & _ & _ & _ & W & ->).
  cbn [buf checksum data_size set_buf image_size] in *.
  unfold off_dd_addr, off_dd_size in *. rewrite Z.add_0_r in *.
  set (dd := data_dir_sigtable img) in *.
  assert (R1 := rd_wr_u32 _ _ _ _ E1).
  assert (R2 := rd_wr_u32 _ _ _ _ E2).
  unfold wr_u32 in *.
  rewrite <- (rd_u32_other _ _ _ _ dd E2) in R1
    by (rewrite len_le_bytes; lia).
  rewrite <- (rd_u32_other _ _ _ _ dd W) in R1
    by (rewrite len_le_bytes; lia).
  rewrite <- (rd_u32_other _ _ _ _ (dd + 4) W) in R2
    by (rewrite len_le_bytes; lia).
  apply load_bytes_Done in E4 as (_ & _ & _ & Hib & Hil).
  change (Z.to_nat 0) with 0%nat in Hib. rewrite drop_0 in Hib.
  rewrite <- Hib, Hil, R1, R2, Hs.
  destruct (bool_decide (sig_bytes img = [])) eqn:Eb; cbn [negb] in *.
  - apply bool_decide_eq_true_1 in Eb. rewrite Hs in Hout. cbn in Hout.
    rewrite Eb, app_nil_r. done.
  - rewrite Hs in Hout. cbn in Hout. destruct Hout as (sig & Es & ->).
    apply load_bytes_Done in Es as (_ & _ & _ & -> & _).
    rewrite Hz. unfold len. rewrite Nat2Z.id, drop_0, firstn_all.
    rewrite cast_u32_id by (pose proof (cast_u32_range (data_size img)); lia).
    rewrite (cast_u32_id (cast_u32 _)) by apply cast_u32_range.
    done.
Qed.

(** ** The region builder *)

Lemma cast_size_t_add_l a b :
  cast_size_t (cast_size_t a + b) = cast_size_t (a + b).
Proof. unfold cast_size_t. apply Zplus_mod_idemp_l. Qed.

Lemma cast_size_t_idem a : cast_size_t (cast_size_t a) = cast_size_t a.
Proof. unfold cast_size_t. apply Z.mod_mod. lia. Qed.

Lemma total_size_app rs1 rs2 :
  total_size (rs1 ++ rs2) = total_size rs1 + total_size rs2.
Proof.
  unfold total_size. induction rs1 as [|r rs1 IH]; cbn [foldr app]; lia.
Qed.

Lemma total_size_cons r rs : total_size (r :: rs) = size r + total_size rs.
Proof. done. Qed.

Lemma cmp_le_data r1 r2 : cmp_le r1 r2 <-> data r1 <= data r2.
Proof.
  unfold cmp_le, cmp_regions.
  destruct (data r1 <? data r2) eqn:E1; tests; [lia|].
  destruct (data r2 <? data r1) eqn:E2; tests; lia.
Qed.

#[global] Instance cmp_le_trans : Transitive cmp_le.
Proof. intros x y z. rewrite !cmp_le_data. lia. Qed.

#[global] Instance cmp_le_total : Total cmp_le.
Proof. intros x y. rewrite !cmp_le_data. lia. Qed.

Lemma StronglySorted_ordered rs :
  StronglySorted cmp_le rs -> ordered_by_offset rs.
Proof.
  induction 1 as [|r rs Hs IH Hall]; intros i j ri rj Hij Hi Hj.
  - discriminate.
  - destruct j as [|j]; [lia|]. cbn in Hj.
    destruct i as [|i]; cbn in Hi.
    + injection Hi as <-. apply cmp_le_data.
      rewrite Forall_forall in Hall. apply Hall.
      eapply list_elem_of_lookup_2; eauto.
    + eapply IH; [|eauto|eauto]. lia.
Qed.

Lemma total_size_Permutation rs1 rs2 :
  Permutation rs1 rs2 -> total_size rs1 = total_size rs2.
Proof.
  induction 1; rewrite ?total_size_cons; lia.
Qed.

Lemma qsort_regions_is_qsort : is_qsort qsort_regions.
Proof.
  split; intros l.
  - apply merge_sort_Permutation.
  - apply Sorted_merge_sort. apply _.
Qed.

Section RegionFacts.
Context (L : layout) (qsort : list region -> list region).

(** The section loop appends the regions of the spec, in the order of the
    section headers, and adds up their sizes. *)
Lemma add_coff_sections_spec img count : forall i regions bytes rs b,
  add_coff_sections L img count i regions bytes = Done (rs, b) ->
  exists secs,
    Forall2 (fun k o => section_region L img k = Done o)
      (seqZ i (Z.of_nat count)) secs /\
    rs = regions ++ (int_sized <$> omap id secs) /\
    cast_size_t b
    = cast_size_t (bytes + total_size (int_sized <$> omap id secs)).
Proof.
  induction count as [|count IH]; intros i regions bytes rs b H.
  - injection H as <- <-. exists []. rewrite app_nil_r.
    repeat split; [constructor|]. cbn. rewrite Z.add_0_r. done.
  - cbn [add_coff_sections] in H.
    bind_inv H. rename v into file_offset, E into E1.
    bind_inv H. rename v into file_size, E into E2.
    rewrite Nat2Z.inj_succ, seqZ_cons by lia.
    rewrite Z.pred_succ.
    assert (Hsec : forall o,
      (if file_size =? 0 then Done None
       else name <- talloc_strndup (buf img)
                      (scnhdr img + i * sizeof_scnhdr L + off_s_name L) 8 ;;
            Done (Some (range_region file_offset (file_offset + file_size)
                          name))) = Done o ->
      section_region L img i = Done o).
    { intros o Ho. unfold section_region. rewrite E1, E2. done. }
    destruct (file_size =? 0) eqn:Ez.
    + apply IH in H as (secs & HF & -> & Hb).
      exists (None :: secs). split; [constructor; auto|]. done.
    + bind_inv H. rename v into name, E into E3.
      apply IH in H as (secs & HF & -> & Hb).
      set (r := {| data := file_offset; size := cast_int file_size;
                   name := name |}) in *.
      set (s := range_region file_offset (file_offset + file_size) name).
      assert (Hr : int_sized s = r).
      { unfold int_sized, s, range_region, r. simpl.
        replace (file_offset + file_size - file_offset) with file_size by lia.
        done. }
      exists (Some s :: secs). split.
      { constructor; [|done]. apply Hsec. rewrite E3. done. }
      change (omap id (Some s :: secs)) with (s :: omap id secs).
      rewrite fmap_cons, Hr.
      split; [rewrite <- app_assoc; done|].
      rewrite Hb, cast_size_t_add_l. f_equal.
      rewrite total_size_cons. lia.
Qed.

Lemma header_regions_spec img :
  fst (header_regions img) = int_sized <$> fixed_regions img /\
  cast_size_t (snd (header_regions img))
  = cast_size_t (12 + total_size (int_sized <$> fixed_regions img)).
Proof.
  split; [done|].
  unfold header_regions, fixed_regions, total_size.
  cbn [snd foldr size set_name set_region_from_range range_region
       int_sized fmap list_fmap].
  change sizeof_data_dir_entry with 8.
  rewrite cast_size_t_idem.
  repeat (rewrite <- ?Z.add_assoc; rewrite cast_size_t_add_l).
  f_equal. rewrite !Z.add_0_l. lia.
Qed.

(** What is in the array after the [qsort] call. *)
Lemma sorted_regions_spec img sorted bytes :
  is_qsort qsort ->
  sorted_regions L qsort img = Done (sorted, bytes) ->
  exists secs,
    Forall2 (fun i o => section_region L img i = Done o)
      (seqZ 0 (sections img)) secs /\
    Permutation sorted (int_sized <$> (fixed_regions img ++ omap id secs)) /\
    Sorted cmp_le sorted /\
    ordered_by_offset sorted /\
    cast_size_t bytes = cast_size_t (12 + total_size sorted).
Proof.
  intros [Hperm Hsorted] H. unfold sorted_regions in H.
  bind_inv H. destruct v as [rs b]. injection H as <- <-.
  apply add_coff_sections_spec in E as (secs & HF & -> & Hb).
  destruct (header_regions_spec img) as [Hf Ht].
  rewrite Hf in *. cbn [fst snd].
  exists secs. split.
  { replace (seqZ 0 (sections img))
      with (seqZ 0 (Z.of_nat (Z.to_nat (sections img)))); [done|].
    unfold seqZ. rewrite Nat2Z.id. done. }
  split; [rewrite fmap_app; apply Hperm|]. split; [apply Hsorted|].
  split; [apply StronglySorted_ordered, Sorted_StronglySorted, Hsorted; apply _|].
  rewrite Hb, (total_size_Permutation _ _ (Hperm _)), total_size_app.
  rewrite <- cast_size_t_add_l, Ht, cast_size_t_add_l. f_equal. lia.
Qed.

(** ** The header parser *)

(** One step of a successful parse: a read, or a check that passed. *)
Ltac parse_step H :=
  match type of H with
  | obind _ _ = Done _ => bind_inv H
  | (if ?c then reject else _) = Done (Some _) =>
      destruct c eqn:?; [discriminate H|]
  | (if ?c then Done None else _) = Done (Some _) =>
      destruct c eqn:?; [discriminate H|]
  end.

Lemma parse_aouthdr_fields img img' :
  image_pecoff_parse_32 L img = Done (Some img') \/
  image_pecoff_parse_64 L img = Done (Some img') ->
  buf img' = buf img /\ image_size img' = image_size img /\
  data_size img' = data_size img /\ sigbuf img' = sigbuf img /\
  sigsize img' = sigsize img /\ opthdr img' = opthdr img.
Proof.
  unfold image_pecoff_parse_32, image_pecoff_parse_64.
  intros [H|H]; repeat parse_step H; injection H as <-; done.
Qed.

(** What a successful parse leaves in the image about the certificate
    table. *)
Lemma image_pecoff_parse_Done img img' :
  image_pecoff_parse L img = Done (Some img') ->
  buf img' = buf img /\ image_size img' = image_size img /\
  data_size img' = data_size img /\
  exists dsize valid,
    rd_u32 (buf img) (data_dir_sigtable img' + off_dd_size) = Done dsize /\
    cert_table_size img' = cast_int dsize /\
    (if cert_table_size img' =? 0 then cert_table img' = NULL
     else exists addr,
       rd_u32 (buf img) (data_dir_sigtable img' + off_dd_addr) = Done addr /\
       cert_table img' = InBuf addr) /\
    valid_cert_table (buf img) (cert_table img') (image_size img)
    = Done valid /\
    if valid
    then exists addr copy,
      cert_table img' = InBuf addr /\
      load_bytes (buf img) addr dsize = Done copy /\
      sigbuf img' = Some copy /\ sigsize img' = dsize
    else sigbuf img' = sigbuf img /\ sigsize img' = sigsize img.
Proof.
  unfold image_pecoff_parse. intros H.
  repeat parse_step H.
  match type of H with match ?x with _ => _ end = _ =>
    destruct x as [i1|] eqn:Ei1; [|discriminate H] end.
  assert (Hf : buf i1 = buf img /\ image_size i1 = image_size img /\
               data_size i1 = data_size img /\ sigbuf i1 = sigbuf img /\
               sigsize i1 = sigsize img).
  { match goal with E : (if ?c then _ else _) = Done (Some i1) |- _ =>
      assert (Hp : image_pecoff_parse_32 L
                     (set_headers img 0 v1 (v1 + sizeof_pehdr L))
                   = Done (Some i1) \/
                   image_pecoff_parse_64 L
                     (set_headers img 0 v1 (v1 + sizeof_pehdr L))
                   = Done (Some i1));
      [destruct c; [right; exact E
                   |destruct (_ || _) in E; [left; exact E|discriminate E]]|]
    end.
    destruct (parse_aouthdr_fields _ _ Hp) as (? & ? & ? & ? & ? & _).
    repeat split; assumption. }
  destruct Hf as (Hb & Hs & Hd & Hsb & Hsz).
  apply obind_Done in H as (opthdr_size & Eos & H).
  do 2 parse_step H.
  apply obind_Done in H as (dsize & Eds & H).
  apply obind_Done in H as (ct & Ect & H).
  apply obind_Done in H as (valid & Ev & H).
  apply obind_Done in H as (i2 & Ei2 & H).
  apply obind_Done in H as (nscns & Ens & H).
  injection H as <-.
  cbn [buf image_size data_size cert_table cert_table_size sigbuf sigsize
       data_dir_sigtable set_tables].
  assert (Hi2 : buf i2 = buf img /\ image_size i2 = image_size img /\
                data_size i2 = data_size img).
  { destruct valid.
    - repeat bind_inv Ei2. injection Ei2 as <-. done.
    - injection Ei2 as <-. done. }
  destruct Hi2 as (-> & -> & ->). repeat split.
  exists dsize, valid. split; [done|]. split; [done|].
  split.
  { destruct (cast_int dsize =? 0).
    - injection Ect as <-. done.
    - bind_inv Ect. injection Ect as <-. eauto. }
  split; [done|].
  destruct valid.
  - apply obind_Done in Ei2 as (sz & Esz & Ei2).
    apply obind_Done in Ei2 as (copy & Ecopy & Ei2).
    injection Ei2 as <-. cbn [sigbuf sigsize set_sig].
    rewrite Eds in Esz. injection Esz as <-.
    destruct ct as [|addr|]; [discriminate Ev| |discriminate Ev].
    exists addr, copy. done.
  - injection Ei2 as <-. done.
Qed.

(** The test on the first certificate-table header, spelled out. *)
(** The parser puts the checksum field and the security directory entry
    where the optional header has them. *)
Lemma parse_fields_apart img img' :
  fields_apart L ->
  image_pecoff_parse L img = Done (Some img') ->
  checksum img' + 4 <= data_dir_sigtable img'.
Proof.
  unfold image_pecoff_parse. intros [H32 H64] H.
  repeat parse_step H.
  match type of H with match ?x with _ => _ end = _ =>
    destruct x as [i1|] eqn:Ei1; [|discriminate H] end.
  assert (Hf : checksum i1 + 4
               <= data_dir i1 + sizeof_data_dir_entry * DATA_DIR_CERT_TABLE).
  { assert (Hp : exists a,
              image_pecoff_parse_32 L a = Done (Some i1) \/
              image_pecoff_parse_64 L a = Done (Some i1)).
    { match goal with E : (if ?c then _ else _) = Done (Some i1) |- _ =>
        eexists;
        destruct c; [right; exact E
                    |destruct (_ || _) in E; [left; exact E|discriminate E]]
      end. }
    destruct Hp as (a & [Hp|Hp]).
    - unfold image_pecoff_parse_32 in Hp. repeat parse_step Hp.
      injection Hp as <-. cbn [checksum data_dir set_aouthdr]. lia.
    - unfold image_pecoff_parse_64 in Hp. repeat parse_step Hp.
      injection Hp as <-. cbn [checksum data_dir set_aouthdr]. lia. }
  apply obind_Done in H as (opthdr_size & Eos & H).
  do 2 parse_step H.
  apply obind_Done in H as (dsize & Eds & H).
  apply obind_Done in H as (ct & Ect & H).
  apply obind_Done in H as (valid & Ev & H).
  apply obind_Done in H as (i2 & Ei2 & H).
  apply obind_Done in H as (nscns & Ens & H).
  injection H as <-.
  cbn [checksum data_dir_sigtable set_tables].
  assert (checksum i2 = checksum i1) as ->; [|done].
  destruct valid.
  - repeat bind_inv Ei2. injection Ei2 as <-. done.
  - injection Ei2 as <-. done.
Qed.

Lemma valid_cert_table_spec mem addr size valid :
  valid_cert_table mem (InBuf addr) size = Done valid ->
  valid = true <->
  (rd_u16 mem (addr + off_cth_revision) = Done CERT_TABLE_REVISION /\
   rd_u16 mem (addr + off_cth_type) = Done CERT_TABLE_TYPE_PKCS /\
   exists csize, rd_u32 mem (addr + off_cth_size) = Done csize /\
                 csize < size).
Proof.
  unfold valid_cert_table. intros H.
  apply obind_Done in H as (revision & Er & H). rewrite Er.
  destruct (revision =? CERT_TABLE_REVISION) eqn:E1; cbn [negb] in H; tests.
  2:{ injection H as <-. split; [done|]. intros [Hr _]. congruence. }
  apply obind_Done in H as (type & Et & H). rewrite Et.
  destruct (type =? CERT_TABLE_TYPE_PKCS) eqn:E2; cbn [negb] in H; tests.
  2:{ injection H as <-. split; [done|]. intros (_ & Ht & _). congruence. }
  apply obind_Done in H as (csize & Ec & H). rewrite Ec.
  injection H as <-. subst. split.
  - intros Hlt. tests. eauto.
  - intros (_ & _ & c & Hc & Hlt). injection Hc as <-.
    apply Z.ltb_lt. done.
Qed.

(** One parse.  When the security directory size that the parser finds is
    not zero (the image having no signature buffer yet, as when [image_load]
    first parses a file), [sigbuf] is set if and only if the header at
    the file offset given by the directory has revision 0x0200, type
    0x0002 and a size field below the length of the file in the buffer;
    it is then a copy of the directory-size bytes at that offset, with
    [sigsize] the directory size.  Otherwise [sigbuf] stays null and
    [sigsize] is left as it was. *)
Theorem cert_table_shadow img img' :
  image_pecoff_parse L img = Done (Some img') ->
  sigbuf img = None ->
  cert_table_size img' <> 0 ->
  exists addr dsize,
    rd_u32 (buf img) (data_dir_sigtable img' + off_dd_addr) = Done addr /\
    rd_u32 (buf img) (data_dir_sigtable img' + off_dd_size) = Done dsize /\
    dsize <> 0 /\
    let header_ok :=
      rd_u16 (buf img) (addr + off_cth_revision) = Done CERT_TABLE_REVISION /\
      rd_u16 (buf img) (addr + off_cth_type) = Done CERT_TABLE_TYPE_PKCS /\
      exists csize, rd_u32 (buf img) (addr + off_cth_size) = Done csize /\
                    csize < image_size img in
    (sigbuf img' <> None <-> header_ok) /\
    (header_ok ->
       exists copy, load_bytes (buf img) addr dsize = Done copy /\
                    sigbuf img' = Some copy /\ sigsize img' = dsize) /\
    (~ header_ok -> sigbuf img' = None /\ sigsize img' = sigsize img).
Proof.
  intros H Hn Hnz.
  apply image_pecoff_parse_Done in H
    as (_ & _ & _ & dsize & valid & Hd & Hcts & Hct & Hv & Hsig).
  destruct (cert_table_size img' =? 0) eqn:Ez; tests; [done|].
  destruct Hct as (addr & Ha & Hct). rewrite Hct in Hv, Hsig.
  exists addr, dsize. split; [done|]. split; [done|].
  split. { intros ->. apply Hnz. rewrite Hcts. done. }
  apply valid_cert_table_spec in Hv.
  cbv zeta. rewrite <- Hv.
  destruct valid.
  - destruct Hsig as (a & copy & Ha' & Hl & Hb & Hz).
    injection Ha' as <-. rewrite Hb.
    split; [split; done|]. split; [eauto|]. intros Hf. destruct Hf. done.
  - destruct Hsig as [Hb Hz]. rewrite Hb, Hn.
    split; [split; [done|discriminate]|]. split; [discriminate|]. done.
Qed.

(** ** The pad-and-re-parse loop *)

Lemma image_find_regions_Done img img' :
  image_find_regions L qsort img = Done img' ->
  buf img' = buf img /\ image_size img' = image_size img /\
  sigbuf img' = sigbuf img /\ sigsize img' = sigsize img /\
  cert_table_size img' = cert_table_size img /\
  0 <= data_size img' < 2 ^ 64 /\ data_size img' mod 8 = 0.
Proof.
  intros H. pose proof (find_regions_data_size _ _ _ _ H) as H8.
  unfold image_find_regions in H. bind_inv H.
  destruct (last _) as [r|]; [|discriminate]. injection H as <-.
  do 5 (split; [reflexivity|]).
  split; [cbn [data_size set_regions]; apply cast_size_t_range|exact H8].
Qed.

(** Each re-parse works on a strictly longer buffer, and [data_size] is a
    [size_t]: the loop ends. *)
Lemma reparse_terminates n : forall img,
  2 ^ 64 - image_size img <= Z.of_nat n ->
  reparse L qsort (S n) img <> OutOfFuel.
Proof.
  induction n as [|n IH]; intros img Hn; cbn [reparse].
  - destruct (image_pecoff_parse L img) as [[i2|]|] eqn:Ep; try done.
    apply image_pecoff_parse_Done in Ep as (_ & Hs & _).
    destruct (image_find_regions L qsort i2) as [i3|] eqn:Er; try done.
    apply image_find_regions_Done in Er as (_ & Hs3 & _ & _ & _ & Hd & _).
    destruct (image_size i3 <? data_size i3) eqn:El; [|done]. tests. lia.
  - destruct (image_pecoff_parse L img) as [[i2|]|] eqn:Ep; try done.
    apply image_pecoff_parse_Done in Ep as (_ & Hs & _).
    destruct (image_find_regions L qsort i2) as [i3|] eqn:Er; try done.
    apply image_find_regions_Done in Er as (_ & Hs3 & _ & _ & _ & Hd & _).
    destruct (image_size i3 <? data_size i3) eqn:El; [|done]. tests.
    destruct (memset _ _ _ _) as [buf'|]; [|done].
    apply IH. cbn [image_size set_buf]. lia.
Qed.

(** [image_load] returns on every file (in a model where memory is never
    exhausted). *)
Lemma load_terminates file :
  exists fuel, image_load L qsort fuel file <> OutOfFuel.
Proof.
  exists (S (Z.to_nat (2 ^ 64 - len file))).
  apply reparse_terminates. cbn [image_size image_of_file]. lia.
Qed.

(** ** Regions that tile the file *)

Lemma chain_bounds a rs b :
  chain a rs b ->
  a <= b /\ Forall (fun r => a <= data r /\ data r + size r <= b) rs /\
  total_size rs = b - a.
Proof.
  induction 1 as [a|a r rs b Hd Hs Hc (IH1 & IH2 & IH3)].
  - split; [lia|]. split; [constructor|]. unfold total_size. cbn. lia.
  - split; [lia|]. split.
    + constructor; [lia|]. eapply Forall_impl; [exact IH2|].
      cbn. intros r' ?. lia.
    + rewrite total_size_cons. lia.
Qed.

Lemma disjoint_ordered_app rs1 rs2 m :
  disjoint_ordered rs1 -> disjoint_ordered rs2 ->
  Forall (fun r => data r + size r <= m) rs1 ->
  Forall (fun r => m <= data r) rs2 ->
  disjoint_ordered (rs1 ++ rs2).
Proof.
  intros H1 H2 F1 F2 i j ri rj Hij Hi Hj.
  rewrite Forall_forall in F1, F2.
  apply lookup_app_Some in Hi as [Hi|[Hli Hi]];
    apply lookup_app_Some in Hj as [Hj|[Hlj Hj]].
  - eapply H1; eauto.
  - apply list_elem_of_lookup_2 in Hi, Hj.
    specialize (F1 _ Hi). specialize (F2 _ Hj). cbn in *. lia.
  - apply lookup_lt_Some in Hj. lia.
  - eapply (H2 (i - length rs1)%nat (j - length rs1)%nat); eauto. lia.
Qed.

Lemma chain_disjoint a rs b : chain a rs b -> disjoint_ordered rs.
Proof.
  induction 1 as [a|a r rs b Hd Hs Hc IH].
  - intros i j ri rj _ Hi. discriminate.
  - apply chain_bounds in Hc as (_ & F & _).
    apply (disjoint_ordered_app [r] rs (a + size r)); [|done| |].
    + intros [|i] [|j] ri rj Hij Hi Hj; try lia; try discriminate.
    + repeat constructor. lia.
    + eapply Forall_impl; [exact F|]. cbn. intros r' ?. lia.
Qed.

Lemma chain_covers a rs b x :
  chain a rs b -> a <= x < b -> in_regions rs x.
Proof.
  induction 1 as [a|a r rs b Hd Hs Hc IH]; intros Hx; [lia|].
  destruct (decide (x < a + size r)) as [Hlt|Hge].
  - exists r. split; [left|lia].
  - destruct IH as (r' & Hr' & Hx'); [lia|].
    exists r'. split; [right; done|done].
Qed.

Lemma in_regions_app_l rs1 rs2 x :
  in_regions rs1 x -> in_regions (rs1 ++ rs2) x.
Proof.
  intros (r & Hr & Hx). exists r. split; [|done].
  apply elem_of_app. auto.
Qed.

Lemma in_regions_app_r rs1 rs2 x :
  in_regions rs2 x -> in_regions (rs1 ++ rs2) x.
Proof.
  intros (r & Hr & Hx). exists r. split; [|done].
  apply elem_of_app. auto.
Qed.

Lemma add_coff_sections_bytes img count : forall i regions bytes rs b,
  add_coff_sections L img count i regions bytes = Done (rs, b) ->
  0 <= bytes < 2 ^ 64 -> 0 <= b < 2 ^ 64.
Proof.
  induction count as [|count IH]; intros i regions bytes rs b H Hb.
  - injection H as <- <-. done.
  - cbn [add_coff_sections] in H. do 2 bind_inv H.
    destruct (_ =? 0).
    + eapply IH; eauto.
    + bind_inv H. eapply IH; eauto. apply cast_size_t_range.
Qed.

(** The array and the byte count that [image_find_regions] leaves. *)
Lemma find_regions_layout img img' :
  image_find_regions L qsort img = Done img' ->
  exists sorted bytes,
    sorted_regions L qsort img = Done (sorted, bytes) /\
    0 <= bytes < 2 ^ 64 /\
    checksum_regions img'
    = (if cast_size_t (bytes + cert_table_size img) <? image_size img
       then sorted ++ [endjunk img bytes] else sorted) /\
    checksum img' = checksum img /\
    data_dir_sigtable img' = data_dir_sigtable img.
Proof.
  intros H. unfold image_find_regions in H.
  apply obind_Done in H as ([sorted bytes] & E & H).
  cbn [fst snd] in H.
  destruct (last _) as [r|]; [|discriminate]. injection H as <-.
  exists sorted, bytes. split; [done|]. split; [|done].
  unfold sorted_regions in E.
  apply obind_Done in E as ([rs b] & E & E').
  injection E' as _ <-.
  eapply add_coff_sections_bytes; [exact E|].
  unfold header_regions. cbn [snd]. apply cast_size_t_range.
Qed.



(** C1 (as amended).  After a successful load the regions, leaving aside
    an "endjunk" region appended last, are R0, R1, R2 and the regions of
    the sections of non-zero raw size (each with its length as an [int]),
    in ascending order of offset ([regions[i].offset <= regions[j].offset]
    for [i < j]); the byte count
    is 12 plus the sum of their sizes, and "endjunk", appended when count
    plus [cert_table_size] is below the file size, starts at offset count.
    The regions may overlap or leave gaps.  When they tile the file (R0 up
    to the checksum field, R1 from its end to the security directory
    entry, R2 and the sections back to back from the end of that entry up
    to an offset [e], each of positive size, below 2^31, with
    [cert_table_size] not negative), the whole list is pairwise disjoint
    with [regions[i].end <= regions[j].start] for [i < j]; and if [e +
    cert_table_size < file size], "endjunk" is [[e, file size -
    cert_table_size)], so that every byte before the last
    [cert_table_size] bytes of the file is in the checksum field, in the
    directory entry or in a region. *)
Theorem regions_of_loaded_image fuel file img :
  is_qsort qsort ->
  image_load L qsort fuel file = Loaded img ->
  exists sorted secs bytes,
    Forall2 (fun i o => section_region L img i = Done o)
      (seqZ 0 (sections img)) secs /\
    Permutation sorted (int_sized <$> (fixed_regions img ++ omap id secs)) /\
    ordered_by_offset sorted /\
    cast_size_t bytes = cast_size_t (12 + total_size sorted) /\
    checksum_regions img
    = (if cast_size_t (bytes + cert_table_size img) <? image_size img
       then sorted ++ [endjunk img bytes] else sorted) /\
    forall e,
      tiled img sorted e -> e < 2 ^ 31 -> image_size img < 2 ^ 31 ->
      0 <= cert_table_size img ->
      bytes = e /\
      disjoint_ordered (checksum_regions img) /\
      (e + cert_table_size img < image_size img ->
       checksum_regions img
       = sorted ++ [range_region e (image_size img - cert_table_size img)
                      "endjunk"] /\
       forall x, 0 <= x < image_size img - cert_table_size img ->
         checksum img <= x < checksum img + 4 \/
         data_dir_sigtable img <= x < data_dir_sigtable img + 8 \/
         in_regions (checksum_regions img) x).
Proof.
  intros Hq Hl. unfold image_load in Hl.
  apply reparse_Loaded in Hl as (i1 & i2 & Hp & Hr & _).
  apply image_pecoff_parse_Done in Hp
    as (_ & _ & _ & dsize & _ & _ & Hint & _).
  pose proof (cast_int_range dsize) as Hrange. rewrite <- Hint in Hrange.
  pose proof (image_find_regions_Done _ _ Hr)
    as (_ & Hsz & _ & _ & Hcts & _ & _).
  assert (Hfr : exists rs ds, img = set_regions i2 rs ds).
  { unfold image_find_regions in Hr. bind_inv Hr.
    destruct (last _) as [r|]; [|discriminate]. injection Hr as <-. eauto. }
  destruct Hfr as (rs0 & ds0 & Himg).
  assert (Hsec : forall i, section_region L img i = section_region L i2 i)
    by (intros i; rewrite Himg; done).
  assert (Hfix : fixed_regions img = fixed_regions i2 /\
                 sections img = sections i2) by (rewrite Himg; done).
  destruct Hfix as [Hfix Hns]. clear Himg.
  apply find_regions_layout in Hr as (sorted & bytes & Es & Hb & Hrs & Hck & Hdd).
  destruct (sorted_regions_spec _ _ _ Hq Es)
    as (secs & HF & HP & _ & Hord & Hbytes).
  exists sorted, secs, bytes.
  split.
  { rewrite Hns. eapply Forall2_impl; [exact HF|].
    intros i o Ho. rewrite Hsec. done. }
  split; [rewrite Hfix; done|].
  split; [done|]. split; [done|].
  rewrite Hsz, Hcts. 
  assert (Hej : endjunk img bytes = endjunk i2 bytes).
  { unfold endjunk. rewrite Hsz, Hcts. done. }
  rewrite Hej. split; [done|].
  intros e (r0 & r1 & rest & -> & C0 & C1 & C2) He Hs Hc.
  rewrite Hck in C0, C1. rewrite Hdd in C1, C2. rewrite Hrs.
  set (ck := checksum i2) in *. set (dd := data_dir_sigtable i2) in *.
  set (S := image_size i2) in *. set (cts := cert_table_size i2) in *.
  pose proof (chain_bounds _ _ _ C0) as (B0 & F0 & T0).
  pose proof (chain_bounds _ _ _ C1) as (B1 & F1 & T1).
  pose proof (chain_bounds _ _ _ C2) as (B2 & F2 & T2).
  assert (Hbe : bytes = e).
  { rewrite <- (cast_size_t_id bytes) by done. rewrite Hbytes.
    change (r0 :: r1 :: rest) with ([r0] ++ [r1] ++ rest).
    rewrite !total_size_app, T0, T1, T2.
    replace (12 + (ck - 0 + (dd - (ck + 4) + (e - (dd + 8))))) with e by lia.
    apply cast_size_t_id. lia. }
  split; [done|].
  assert (D : disjoint_ordered (r0 :: r1 :: rest)).
  { apply (disjoint_ordered_app [r0] (r1 :: rest) ck).
    - eapply chain_disjoint; eauto.
    - apply (disjoint_ordered_app [r1] rest dd).
      + eapply chain_disjoint; eauto.
      + eapply chain_disjoint; eauto.
      + eapply Forall_impl; [exact F1|]. cbn. intros r ?. lia.
      + eapply Forall_impl; [exact F2|]. cbn. intros r ?. lia.
    - eapply Forall_impl; [exact F0|]. cbn. intros r ?. lia.
    - constructor.
      + inversion F1; subst. lia.
      + eapply Forall_impl; [exact F2|]. cbn. intros r ?. lia. }
  subst bytes.
  rewrite (cast_size_t_id (e + cts)) by lia.
  assert (Hend : e + cts < S ->
            endjunk i2 e = range_region e (S - cts) "endjunk").
  { intros Hlt. unfold endjunk, range_region. fold S. fold cts.
    rewrite Z.add_0_l, cast_ptrdiff_id by lia.
    rewrite (cast_size_t_id (S - e)) by lia.
    rewrite cast_size_t_id by lia.
    rewrite cast_int_id by lia.
    replace (S - e - cts) with (S - cts - e) by lia. done. }
  destruct (e + cts <? S) eqn:El; tests.
  - rewrite Hend by done. split.
    + apply (disjoint_ordered_app _ [_] e); [done| | |].
      * intros [|i] [|j] ri rj Hij Hi Hj; try lia; try discriminate.
      * change (r0 :: r1 :: rest) with ([r0] ++ [r1] ++ rest).
        rewrite !Forall_app. repeat split.
        -- eapply Forall_impl; [exact F0|]. cbn. intros r ?. lia.
        -- eapply Forall_impl; [exact F1|]. cbn. intros r ?. lia.
        -- eapply Forall_impl; [exact F2|]. cbn. intros r ?. lia.
      * repeat constructor. cbn. lia.
    + intros _. split; [done|]. intros x Hx.
      destruct (decide (x < ck)) as [?|?].
      { right. right. apply in_regions_app_l.
        apply (in_regions_app_l [r0]).
        eapply chain_covers; eauto. lia. }
      destruct (decide (x < ck + 4)) as [?|?]; [left; lia|].
      destruct (decide (x < dd)) as [?|?].
      { right. right. apply in_regions_app_l.
        apply (in_regions_app_r [r0]). apply (in_regions_app_l [r1]).
        eapply chain_covers; eauto. lia. }
      destruct (decide (x < dd + 8)) as [?|?]; [right; left; lia|].
      destruct (decide (x < e)) as [?|?].
      { right. right. apply in_regions_app_l.
        apply (in_regions_app_r [r0]). apply (in_regions_app_r [r1]).
        eapply chain_covers; eauto. lia. }
      right. right. apply in_regions_app_r.
      eexists. split; [left|]. cbn. lia.
  - split; [done|]. intros ?. lia.
Qed.

End RegionFacts.

(** ** Reads of a buffer that has been padded *)

(** A read that stays within a buffer finds the same bytes after the
    buffer has been extended. *)
Lemma load_bytes_padded mem pad off n bs :
  load_bytes mem off n = Done bs -> load_bytes (mem ++ pad) off n = Done bs.
Proof.
  intros H. apply load_bytes_Done in H as (H1 & H2 & H3 & -> & _).
  unfold len in *.
  rewrite load_bytes_in_range by (rewrite ?len_app; unfold len; lia).
  f_equal. rewrite drop_app_le by lia.
  apply take_app_le. rewrite length_drop. lia.
Qed.

Lemma rd_u8_padded mem pad off v :
  rd_u8 mem off = Done v -> rd_u8 (mem ++ pad) off = Done v.
Proof.
  unfold rd_u8. intros H. bind_inv H.
  rewrite (load_bytes_padded _ _ _ _ _ E). done.
Qed.

Lemma rd_u16_padded mem pad off v :
  rd_u16 mem off = Done v -> rd_u16 (mem ++ pad) off = Done v.
Proof.
  unfold rd_u16. intros H. bind_inv H.
  rewrite (load_bytes_padded _ _ _ _ _ E). done.
Qed.

Lemma rd_u32_padded mem pad off v :
  rd_u32 mem off = Done v -> rd_u32 (mem ++ pad) off = Done v.
Proof.
  unfold rd_u32. intros H. bind_inv H.
  rewrite (load_bytes_padded _ _ _ _ _ E). done.
Qed.

Lemma pehdr_u16_padded mem pad off v :
  pehdr_u16 mem off = Done v -> pehdr_u16 (mem ++ pad) off = Done v.
Proof.
  unfold pehdr_u16. intros H. do 2 bind_inv H.
  rewrite (rd_u8_padded _ _ _ _ E), (rd_u8_padded _ _ _ _ E0). done.
Qed.

Lemma pehdr_u32_padded mem pad off v :
  pehdr_u32 mem off = Done v -> pehdr_u32 (mem ++ pad) off = Done v.
Proof.
  unfold pehdr_u32. intros H. do 4 bind_inv H.
  rewrite (rd_u8_padded _ _ _ _ E), (rd_u8_padded _ _ _ _ E0),
    (rd_u8_padded _ _ _ _ E1), (rd_u8_padded _ _ _ _ E2). done.
Qed.

Lemma talloc_strndup_padded mem pad n : forall off s,
  talloc_strndup mem off n = Done s ->
  talloc_strndup (mem ++ pad) off n = Done s.
Proof.
  induction n as [|n IH]; intros off s H; [done|].
  cbn [talloc_strndup] in *. bind_inv H.
  rewrite (rd_u8_padded _ _ _ _ E). cbn [obind].
  destruct (v =? 0); [done|]. bind_inv H.
  rewrite (IH _ _ E0). done.
Qed.

Section Padded.
Context (L : layout) (qsort : list region -> list region).

(** One step of a parse that succeeded, replayed on the padded buffer. *)
Ltac replay H :=
  match type of H with
  | obind (rd_u8 _ _) _ = Done _ =>
      let v := fresh "v" in let E := fresh "E" in
      apply obind_Done in H as (v & E & H);
      erewrite (rd_u8_padded _ _ _ _ E); cbn [obind]
  | obind (rd_u16 _ _) _ = Done _ =>
      let v := fresh "v" in let E := fresh "E" in
      apply obind_Done in H as (v & E & H);
      erewrite (rd_u16_padded _ _ _ _ E); cbn [obind]
  | obind (rd_u32 _ _) _ = Done _ =>
      let v := fresh "v" in let E := fresh "E" in
      apply obind_Done in H as (v & E & H);
      erewrite (rd_u32_padded _ _ _ _ E); cbn [obind]
  | obind (pehdr_u16 _ _) _ = Done _ =>
      let v := fresh "v" in let E := fresh "E" in
      apply obind_Done in H as (v & E & H);
      erewrite (pehdr_u16_padded _ _ _ _ E); cbn [obind]
  | obind (pehdr_u32 _ _) _ = Done _ =>
      let v := fresh "v" in let E := fresh "E" in
      apply obind_Done in H as (v & E & H);
      erewrite (pehdr_u32_padded _ _ _ _ E); cbn [obind]
  | obind (load_bytes _ _ _) _ = Done _ =>
      let v := fresh "v" in let E := fresh "E" in
      apply obind_Done in H as (v & E & H);
      erewrite (load_bytes_padded _ _ _ _ _ E); cbn [obind]
  | obind (talloc_strndup _ _ _) _ = Done _ =>
      let v := fresh "v" in let E := fresh "E" in
      apply obind_Done in H as (v & E & H);
      erewrite (talloc_strndup_padded _ _ _ _ _ E); cbn [obind]
  | (if ?c then _ else _) = Done _ =>
      let Hc := fresh "Hc" in
      destruct c eqn:Hc; [discriminate H|]; try rewrite Hc
  end.

Lemma parse_aouthdr_padded a a' b pad :
  buf b = buf a ++ pad -> opthdr b = opthdr a ->
  (image_pecoff_parse_32 L a = Done (Some a') ->
   image_pecoff_parse_32 L b
   = Done (Some (set_aouthdr b (opthdr_min_size a') (file_alignment a')
                   (header_size a') (data_dir a') (checksum a')))) /\
  (image_pecoff_parse_64 L a = Done (Some a') ->
   image_pecoff_parse_64 L b
   = Done (Some (set_aouthdr b (opthdr_min_size a') (file_alignment a')
                   (header_size a') (data_dir a') (checksum a')))).
Proof.
  intros Hb Ho.
  unfold image_pecoff_parse_32, image_pecoff_parse_64.
  rewrite Hb, Ho. split; intros H; unfold reject in *.
  - repeat replay H. injection H as <-. done.
  - repeat replay H. injection H as <-. done.
Qed.

(** The certificate-table test is kept by padding. *)
Lemma valid_cert_table_padded mem pad ct s s2 :
  valid_cert_table mem ct s = Done true -> s <= s2 ->
  valid_cert_table (mem ++ pad) ct s2 = Done true.
Proof.
  unfold valid_cert_table. intros H Hs.
  destruct ct as [|addr|]; try discriminate.
  repeat replay H. injection H as H. tests.
  f_equal. apply Z.ltb_lt. lia.
Qed.

(** A parse that succeeded, run again on the padded buffer, finds the
    same headers and tables (or faults when it now copies a certificate
    table that it did not accept before). *)
Lemma image_pecoff_parse_padded img i1 j pad :
  image_pecoff_parse L img = Done (Some i1) ->
  buf j = buf img ++ pad -> image_size img <= image_size j ->
  image_pecoff_parse L j = Fault \/
  exists i2,
    image_pecoff_parse L j = Done (Some i2) /\
    checksum i2 = checksum i1 /\
    data_dir_sigtable i2 = data_dir_sigtable i1 /\
    header_size i2 = header_size i1 /\
    sections i2 = sections i1 /\
    scnhdr i2 = scnhdr i1 /\
    cert_table i2 = cert_table i1 /\
    cert_table_size i2 = cert_table_size i1.
Proof.
  unfold image_pecoff_parse. intros H Hb Hs. rewrite Hb.
  unfold reject in *.
  match type of H with (if ?c then _ else _) = _ =>
    destruct c eqn:Hk0; [discriminate H|] end.
  destruct (image_size j <? sizeof_doshdr L) eqn:Hk0'; [tests; lia|].
  do 5 replay H.
  match type of H with (if ?c then _ else _) = _ =>
    destruct c eqn:Hk2; [discriminate H|] end.
  match type of H with (if ?c then _ else _) = _ =>
    destruct c eqn:Hk3; [discriminate H|] end.
  destruct (image_size j <=? v1) eqn:Hk2'; [tests; lia|].
  destruct (image_size j <? v1 + sizeof_pehdr L) eqn:Hk3'; [tests; lia|].
  do 3 replay H.
  apply obind_Done in H as (rc & Erc & H).
  destruct rc as [a'|]; [|discriminate H].
  set (a := set_headers img 0 v1 (v1 + sizeof_pehdr L)) in *.
  set (b := set_headers j 0 v1 (v1 + sizeof_pehdr L)) in *.
  destruct (parse_aouthdr_padded a a' b pad) as [P32 P64]; [done|done|].
  destruct (parse_aouthdr_fields L a a') as (_ & _ & _ & _ & _ & Hoa).
  { destruct (_ || _) in Erc; [auto|].
    destruct (_ || _) in Erc; [auto|discriminate]. }
  set (b' := set_aouthdr b (opthdr_min_size a') (file_alignment a')
               (header_size a') (data_dir a') (checksum a')) in *.
  assert (Erc' :
    (if (v3 =? IMAGE_FILE_MACHINE_AMD64 L)
        || (v3 =? IMAGE_FILE_MACHINE_AARCH64 L)
     then image_pecoff_parse_64 L b
     else if (v3 =? IMAGE_FILE_MACHINE_I386 L)
             || (v3 =? IMAGE_FILE_MACHINE_THUMB L)
     then image_pecoff_parse_32 L b
     else Done None) = Done (Some b')).
  { destruct (_ || _); [auto|]. destruct (_ || _); [auto|discriminate]. }
  rewrite Erc'. cbn [obind].
  change (opthdr_min_size b') with (opthdr_min_size a').
  change (data_dir b') with (data_dir a').
  do 2 replay H.
  match type of H with (if ?c then _ else _) = _ =>
    destruct c eqn:Hk5; [discriminate H|] end.
  match goal with |- context [image_size j <? ?x] =>
    destruct (image_size j <? x) eqn:Hk5'; [tests; lia|] end.
  replay H.
  apply obind_Done in H as (ct & Ect & H).
  assert (Ect' :
    (if cast_int v5 =? 0 then Done NULL
     else a0 <- rd_u32 (buf img ++ pad)
                  (data_dir a' + sizeof_data_dir_entry * DATA_DIR_CERT_TABLE
                   + off_dd_addr) ;;
          Done (InBuf a0)) = Done ct).
  { destruct (cast_int v5 =? 0); [done|]. replay Ect. done. }
  rewrite Ect'. cbn [obind].
  apply obind_Done in H as (valid & Ev & H).
  apply obind_Done in H as (i1' & Ei1 & H).
  apply obind_Done in H as (nscns & Ens & H).
  rewrite (pehdr_u16_padded _ pad _ _ Ens).
  injection H as <-.
  assert (Hi1' : opthdr i1' = opthdr a').
  { destruct valid.
    - repeat bind_inv Ei1. injection Ei1 as <-. done.
    - injection Ei1 as <-. done. }
  cbn [checksum data_dir_sigtable header_size sections scnhdr cert_table
       cert_table_size set_tables].
  assert (Hfin : forall j2,
    (checksum j2 = checksum a' /\ header_size j2 = header_size a' /\
     opthdr j2 = opthdr i1') ->
    exists i2,
      Done (Some (set_tables j2 v4
                    (data_dir a' + sizeof_data_dir_entry * DATA_DIR_CERT_TABLE)
                    ct (cast_int v5) nscns (opthdr j2 + v4)))
      = Done (Some i2) /\
      checksum i2 = checksum i1' /\
      data_dir_sigtable i2
      = data_dir a' + sizeof_data_dir_entry * DATA_DIR_CERT_TABLE /\
      header_size i2 = header_size i1' /\
      sections i2 = nscns /\
      scnhdr i2 = opthdr i1' + v4 /\
      cert_table i2 = ct /\
      cert_table_size i2 = cast_int v5).
  { intros j2 (Hj1 & Hj2 & Hj3). eexists. split; [done|].
    cbn [checksum data_dir_sigtable header_size sections scnhdr cert_table
         cert_table_size set_tables].
    assert (checksum i1' = checksum a' /\ header_size i1' = header_size a')
      as [-> ->].
    { destruct valid.
      - repeat bind_inv Ei1. injection Ei1 as <-. done.
      - injection Ei1 as <-. done. }
    rewrite Hj1, Hj2, Hj3. done. }
  assert (Hb' : checksum b' = checksum a' /\ header_size b' = header_size a' /\
                opthdr b' = opthdr i1').
  { rewrite Hi1', Hoa. done. }
  destruct (valid_cert_table (buf img ++ pad) ct (image_size j))
    as [[|]|] eqn:Ev2; cbn [obind]; [| |left; done].
  - destruct (load_bytes (buf img ++ pad) _ _) as [copy|]; cbn [obind];
      [|left; done].
    right. apply Hfin. done.
  - right. apply Hfin. done.
Qed.

Lemma add_coff_sections_padded img j pad count : forall i regions bytes r,
  add_coff_sections L img count i regions bytes = Done r ->
  buf j = buf img ++ pad -> scnhdr j = scnhdr img ->
  add_coff_sections L j count i regions bytes = Done r.
Proof.
  induction count as [|count IH]; intros i regions bytes r H Hb Hs; [done|].
  cbn [add_coff_sections] in *. rewrite Hb, Hs.
  do 2 replay H. destruct (v0 =? 0).
  - eapply IH; eauto.
  - replay H. eapply IH; eauto.
Qed.

(** The region pass finds the same regions in the padded buffer. *)
Lemma sorted_regions_padded i1 i2 pad p :
  sorted_regions L qsort i1 = Done p ->
  buf i2 = buf i1 ++ pad ->
  checksum i2 = checksum i1 ->
  data_dir_sigtable i2 = data_dir_sigtable i1 ->
  header_size i2 = header_size i1 ->
  sections i2 = sections i1 ->
  scnhdr i2 = scnhdr i1 ->
  sorted_regions L qsort i2 = Done p.
Proof.
  unfold sorted_regions. intros H Hb Hck Hdd Hhs Hn Hsc.
  apply obind_Done in H as (r & E & H).
  assert (Hh : header_regions i2 = header_regions i1).
  { unfold header_regions. rewrite Hck, Hdd, Hhs. done. }
  rewrite Hh, Hn.
  rewrite (add_coff_sections_padded _ _ _ _ _ _ _ _ E Hb Hsc). done.
Qed.

(** [data_size] is the end of the last region, rounded up to 8. *)
Lemma find_regions_last img img' :
  image_find_regions L qsort img = Done img' ->
  exists r,
    last (checksum_regions img') = Some r /\
    data_size img'
    = cast_size_t (align_up (cast_int (cast_ptrdiff (data r - 0) + size r)) 8).
Proof.
  intros H. unfold image_find_regions in H. bind_inv H.
  destruct (last _) as [r|] eqn:El; [|discriminate]. injection H as <-.
  cbn [checksum_regions data_size set_regions]. eauto.
Qed.

(** The buffer after [talloc_realloc] and [memset]: the old bytes, then
    zeros up to [data_size]. *)
Lemma pad_buffer mem s ds buf' :
  s = len mem -> s < ds < 2 ^ 64 ->
  memset (talloc_realloc mem ds) s 0 (cast_size_t (ds - s)) = Done buf' ->
  buf' = mem ++ replicate (Z.to_nat (ds - s)) x00.
Proof.
  intros -> Hds H. pose proof (len_nonneg mem).
  rewrite cast_size_t_id in H by lia.
  apply memset_Done in H as [_ H]. change (byte_of_Z 0) with x00 in H.
  unfold talloc_realloc in H. rewrite take_ge in H by (unfold len in *; lia).
  replace (Z.to_nat ds - length mem)%nat with (Z.to_nat (ds - len mem)) in H
    by (unfold len; lia).
  rewrite store_bytes_zeros in H by (rewrite ?length_replicate; lia).
  injection H as <-. rewrite length_replicate, Nat.sub_diag.
  cbn [replicate]. rewrite app_nil_r. done.
Qed.

Lemma align_up_le x y :
  0 <= x <= y -> y < 2 ^ 31 - 8 -> y mod 8 = 0 -> align_up x 8 <= y.
Proof.
  intros Hx Hy H8. rewrite align_up_small by lia.
  rewrite <- (align_up_aligned y) by lia. rewrite align_up_small by lia.
  apply Z.mul_le_mono_nonneg_l; [lia|].
  apply Z.div_le_mono; lia.
Qed.

Lemma total_size_nonneg rs :
  Forall (fun r => 0 <= size r) rs -> 0 <= total_size rs.
Proof.
  induction 1 as [|r rs Hr _ IH]; [done|]. rewrite total_size_cons. lia.
Qed.

(** After one padding [data_size] fits the buffer, when the first pass
    stayed in range. *)
Lemma second_pass_fits img i1 i2 pad j j1 j2 :
  is_qsort qsort ->
  image_pecoff_parse L img = Done (Some i1) ->
  image_find_regions L qsort i1 = Done i2 ->
  in_range i2 ->
  image_size i2 < data_size i2 ->
  buf j = buf img ++ pad -> image_size j = data_size i2 ->
  image_pecoff_parse L j = Done (Some j1) ->
  image_find_regions L qsort j1 = Done j2 ->
  data_size j2 <= image_size j2.
Proof.
  intros Hq Hp1 Hf1 (Hpos & Htot & Hcts & Hds) Hlt Hb Hsz Hp2 Hf2.
  pose proof (image_pecoff_parse_Done _ _ _ Hp1)
    as (Hb1 & Hs1 & _ & dsize & _ & _ & Hint & _).
  pose proof (cast_int_range dsize) as Hcr. rewrite <- Hint in Hcr.
  pose proof (image_pecoff_parse_Done _ _ _ Hp2) as (Hb2 & Hs2 & _).
  pose proof (image_find_regions_Done _ _ _ _ Hf1)
    as (_ & Hsi2 & _ & _ & Hci2 & Hdr & Hd8).
  pose proof (image_find_regions_Done _ _ _ _ Hf2)
    as (_ & Hsj2 & _ & _ & Hcj2 & _ & _).
  destruct (image_pecoff_parse_padded img i1 j pad Hp1 Hb) as [Hx|Hx];
    [lia|congruence|].
  destruct Hx as (j1' & Hp2' & Hck & Hdd & Hhs & Hn & Hsc & _ & Hc).
  rewrite Hp2 in Hp2'. injection Hp2' as <-.
  destruct (find_regions_layout _ _ _ _ Hf1)
    as (sorted & bytes & Es & Hbr & Hr1 & _ & _).
  assert (Es2 : sorted_regions L qsort j1 = Done (sorted, bytes)).
  { eapply sorted_regions_padded; eauto. rewrite Hb2, Hb, Hb1. done. }
  destruct (find_regions_layout _ _ _ _ Hf2)
    as (sorted' & bytes' & Es2' & _ & Hr2 & _ & _).
  rewrite Es2 in Es2'. injection Es2' as <- <-.
  destruct (sorted_regions_spec _ _ _ _ _ Hq Es)
    as (_ & _ & _ & _ & _ & Hbt).
  destruct (find_regions_last _ _ Hf1) as (r1 & Hl1 & Hd1).
  destruct (find_regions_last _ _ Hf2) as (r2 & Hl2 & Hd2).
  rewrite Hsj2, Hs2, Hsz. rewrite Hs2, Hsz, Hc in Hr2. rewrite Hci2 in Hcts.
  set (cts := cert_table_size i1) in *. set (s2 := data_size i2) in *.
  set (s1 := image_size i1) in *.
  assert (Hsp : Forall (fun r => 0 <= size r) sorted /\
                total_size sorted <= total_size (checksum_regions i2)).
  { rewrite Hr1 in Hpos |- *. destruct (_ <? _).
    - rewrite Forall_app in Hpos. destruct Hpos as [Hp Hej].
      split; [done|]. rewrite total_size_app.
      apply total_size_nonneg in Hej. lia.
    - split; [done|lia]. }
  destruct Hsp as [Hsp Hle]. apply total_size_nonneg in Hsp.
  assert (Hbytes : bytes = 12 + total_size sorted).
  { rewrite <- (cast_size_t_id bytes) by done. rewrite Hbt.
    apply cast_size_t_id. lia. }
  rewrite (cast_size_t_id (bytes + cts)) in Hr1, Hr2 by lia.
  destruct (bytes + cts <? s2) eqn:E2; tests.
  - rewrite Hr2, last_snoc in Hl2. injection Hl2 as <-.
    rewrite Hd2. unfold endjunk. cbn [data size].
    rewrite Hs2, Hsz, Hc. fold s2. fold cts.
    rewrite Z.add_0_l, Z.sub_0_r.
    rewrite (cast_ptrdiff_id bytes) by lia.
    rewrite (cast_ptrdiff_id bytes) by lia.
    rewrite (cast_size_t_id (s2 - bytes)) by lia.
    rewrite (cast_size_t_id (s2 - bytes - cts)) by lia.
    rewrite (cast_int_id (s2 - bytes - cts)) by lia.
    replace (bytes + (s2 - bytes - cts)) with (s2 - cts) by lia.
    rewrite cast_int_id by lia.
    pose proof (align_up_le (s2 - cts) s2 ltac:(lia) Hds Hd8).
    pose proof (align_up_bounds (s2 - cts) ltac:(lia)).
    rewrite cast_size_t_id; lia.
  - assert (E1 : (bytes + cts <? s1) = false).
    { apply Z.ltb_ge. lia. }
    rewrite E1 in Hr1. rewrite Hr1 in Hl1. rewrite Hr2 in Hl2.
    rewrite Hl1 in Hl2. injection Hl2 as <-.
    rewrite Hd2, <- Hd1. fold s2. lia.
Qed.

(** When the first pass stays in range, [image_load] parses the file at
    most twice. *)
Lemma one_reparse file i1 i2 :
  is_qsort qsort ->
  image_pecoff_parse L (image_of_file file) = Done (Some i1) ->
  image_find_regions L qsort i1 = Done i2 ->
  in_range i2 ->
  image_load L qsort 2 file <> OutOfFuel.
Proof.
  intros Hq Hp Hf Hr. unfold image_load. cbn [reparse].
  rewrite Hp, Hf.
  destruct (image_size i2 <? data_size i2) eqn:El; [|done]. tests.
  pose proof (image_pecoff_parse_Done _ _ _ Hp) as (Hb1 & Hs1 & _).
  pose proof (image_find_regions_Done _ _ _ _ Hf)
    as (Hb2 & Hs2 & _ & _ & _ & Hdr & _).
  destruct (memset _ _ _ _) as [buf'|] eqn:Em; [|done].
  apply pad_buffer in Em;
    [|rewrite Hs2, Hs1, Hb2, Hb1; reflexivity|lia].
  destruct (image_pecoff_parse L (set_buf i2 buf' (data_size i2)))
    as [[j1|]|] eqn:Ep2; try done.
  destruct (image_find_regions L qsort j1) as [j2|] eqn:Ef2; try done.
  destruct (image_size j2 <? data_size j2) eqn:El2; [|done]. tests.
  rewrite Hb2, Hb1 in Em.
  pose proof (second_pass_fits (image_of_file file) i1 i2 _
                (set_buf i2 buf' (data_size i2)) j1 j2
                Hq Hp Hf Hr El Em eq_refl Ep2 Ef2).
  lia.
Qed.
End Padded.

(** ** The shadow copy across re-parses *)

Lemma header_ok_spec mem addr size valid :
  valid_cert_table mem (InBuf addr) size = Done valid ->
  valid = true <-> header_ok mem addr size.
Proof. apply valid_cert_table_spec. Qed.

Lemma header_ok_padded mem pad addr s s2 :
  header_ok mem addr s -> s <= s2 -> header_ok (mem ++ pad) addr s2.
Proof.
  intros (Hr & Ht & c & Hc & Hlt) Hs. unfold header_ok.
  rewrite (rd_u16_padded _ pad _ _ Hr), (rd_u16_padded _ pad _ _ Ht),
    (rd_u32_padded _ pad _ _ Hc).
  split; [done|]. split; [done|]. exists c. split; [done|lia].
Qed.

(** The header test on a padded buffer reads the bytes that the test on
    the buffer itself has read. *)
Lemma header_ok_unpadded mem pad addr s0 valid s :
  valid_cert_table mem (InBuf addr) s0 = Done valid ->
  header_ok (mem ++ pad) addr s -> header_ok mem addr s.
Proof.
  unfold valid_cert_table, header_ok.
  intros H (Hr & Ht & c & Hc & Hlt).
  apply obind_Done in H as (revision & Er & H).
  rewrite (rd_u16_padded _ pad _ _ Er) in Hr. injection Hr as ->.
  rewrite Z.eqb_refl in H. cbn [negb] in H.
  apply obind_Done in H as (type & Et & H).
  rewrite (rd_u16_padded _ pad _ _ Et) in Ht. injection Ht as ->.
  rewrite Z.eqb_refl in H. cbn [negb] in H.
  apply obind_Done in H as (csize & Ec & H).
  rewrite (rd_u32_padded _ pad _ _ Ec) in Hc. injection Hc as ->.
  rewrite Er, Et, Ec. eauto.
Qed.

Lemma shadows_padded mem pad s s2 ct dsize img img' :
  shadows mem s ct dsize img -> s <= s2 ->
  sigbuf img' = sigbuf img -> sigsize img' = sigsize img ->
  shadows (mem ++ pad) s2 ct dsize img'.
Proof.
  unfold shadows. intros H Hs -> ->.
  destruct (sigbuf img) as [copy|]; [|done].
  destruct H as (addr & -> & Hh & Hl & Hz). exists addr.
  split; [done|]. split; [eapply header_ok_padded; eauto|].
  split; [apply load_bytes_padded; done|done].
Qed.

Section Shadow.
Context (L : layout) (qsort : list region -> list region).

Lemma image_find_regions_tables img img' :
  image_find_regions L qsort img = Done img' ->
  cert_table img' = cert_table img /\
  data_dir_sigtable img' = data_dir_sigtable img.
Proof.
  unfold image_find_regions. intros H. bind_inv H.
  destruct (last _) as [r|]; [|discriminate]. injection H as <-. done.
Qed.

(** What the re-parse loop keeps, from a first parse [i0] of the file on:
    the buffer is the file followed by zeros, the tables are where the
    first parse found them, and [sigbuf] shadows the table of the current
    buffer whenever the header passes the test for the current length. *)
Lemma reparse_shadows file i0 dsize fuel : forall img res,
  image_pecoff_parse L (image_of_file file) = Done (Some i0) ->
  rd_u32 file (data_dir_sigtable i0 + off_dd_size) = Done dsize ->
  (exists n, buf img = file ++ replicate n x00 /\
             image_size img = len file + Z.of_nat n) ->
  shadows (buf img) (image_size img) (cert_table i0) dsize img ->
  reparse L qsort fuel img = Loaded res ->
  (exists n, buf res = file ++ replicate n x00 /\
             image_size res = len file + Z.of_nat n) /\
  cert_table res = cert_table i0 /\
  data_dir_sigtable res = data_dir_sigtable i0 /\
  cert_table_size res = cert_table_size i0 /\
  shadows (buf res) (image_size res) (cert_table i0) dsize res /\
  (sigbuf res = None -> forall addr,
     cert_table i0 = InBuf addr ->
     ~ header_ok (buf res) addr (image_size res)).
Proof.
  induction fuel as [|fuel IH]; intros img res Hp0 Hd (n & Hb & Hs) Hsh H;
    [discriminate|].
  cbn [reparse] in H.
  destruct (image_pecoff_parse L img) as [[j1|]|] eqn:Ep; try discriminate.
  destruct (image_find_regions L qsort j1) as [j2|] eqn:Ef; try discriminate.
  destruct (image_pecoff_parse_padded L (image_of_file file) i0 img
              (replicate n x00) Hp0 Hb) as [Hx|Hx];
    [cbn [image_size image_of_file]; lia|congruence|].
  destruct Hx as (j1' & Ep' & _ & Hdd & _ & _ & _ & Hct & Hcts).
  rewrite Ep in Ep'. injection Ep' as <-.
  pose proof (image_pecoff_parse_Done _ _ _ Ep)
    as (Hb1 & Hs1 & _ & dsize' & valid & Hd' & _ & _ & Hv & Hsig).
  rewrite Hdd, Hb in Hd'.
  rewrite (rd_u32_padded _ (replicate n x00) _ _ Hd) in Hd'.
  injection Hd' as <-. rewrite Hct in Hv, Hsig.
  pose proof (image_find_regions_Done _ _ _ _ Ef)
    as (Hb2 & Hs2 & Hsb2 & Hsz2 & Hcts2 & Hdr & _).
  pose proof (image_find_regions_tables _ _ Ef) as (Hct2 & Hdd2).
  assert (Hsh2 : shadows (buf j2) (image_size j2) (cert_table i0) dsize j2
                 /\ (sigbuf j2 = None -> forall addr,
                       cert_table i0 = InBuf addr ->
                       ~ header_ok (buf j2) addr (image_size j2))).
  { rewrite Hb2, Hs2, Hb1, Hs1. unfold shadows. rewrite Hsb2, Hsz2.
    destruct valid.
    - destruct Hsig as (addr & copy & Ea & Hl & Hsb & Hz).
      rewrite Ea in Hv. apply header_ok_spec in Hv.
      rewrite Hsb. split; [|discriminate].
      exists addr. split; [done|]. split; [apply Hv; done|]. done.
    - destruct Hsig as [Hsb Hz]. rewrite Hsb, Hz. split; [exact Hsh|].
      intros _ addr Ea Hok. rewrite Ea in Hv.
      apply header_ok_spec in Hv. apply Hv in Hok. discriminate. }
  destruct Hsh2 as [Hsh2 Hno2].
  destruct (image_size j2 <? data_size j2) eqn:El; tests.
  - destruct (memset _ _ _ _) as [buf'|] eqn:Em; [|discriminate].
    apply pad_buffer in Em;
      [|rewrite Hs2, Hs1, Hb2, Hb1, Hs, Hb, len_app, len_replicate; lia
       |lia].
    eapply IH in H; [exact H|exact Hp0|exact Hd| |].
    + cbn [buf image_size set_buf].
      exists (n + Z.to_nat (data_size j2 - image_size j2))%nat.
      rewrite Em, Hb2, Hb1, Hb, <- app_assoc, <- replicate_add.
      split; [done|]. lia.
    + cbn [buf image_size set_buf]. rewrite Em.
      eapply shadows_padded; eauto. lia.
  - injection H as <-.
    split. { exists n. rewrite Hb2, Hs2, Hb1, Hs1. done. }
    split; [congruence|]. split; [congruence|]. split; [congruence|].
    done.
Qed.

(** A load in one pass keeps the buffer as it is. *)
Lemma load_unpadded file img :
  image_load L qsort 1 file = Loaded img ->
  buf img = file /\ image_size img = len file.
Proof.
  unfold image_load. cbn [reparse]. intros H.
  destruct (image_pecoff_parse L _) as [[j1|]|] eqn:Ep; try discriminate.
  destruct (image_find_regions L qsort j1) as [j2|] eqn:Ef; try discriminate.
  apply image_pecoff_parse_Done in Ep as (Hb1 & Hs1 & _).
  apply image_find_regions_Done in Ef as (Hb2 & Hs2 & _).
  destruct (image_size j2 <? data_size j2).
  - destruct (memset _ _ _ _); discriminate.
  - injection H as <-. rewrite Hb2, Hs2, Hb1, Hs1. done.
Qed.

(** C10 (amended).  After a load that succeeds on a file whose security
    directory size is not zero, [sigbuf] is set if and only if the header
    at the file offset that the directory gives has revision 0x0200, type
    0x0002 and a size field below the length of the buffer at the end of
    the load: the file followed by the zeros that the load has appended.
    [sigbuf] is then the copy of the directory-size bytes of that buffer at
    that offset, and [sigsize] is the directory size; otherwise [sigbuf] is
    null and [sigsize] is 0. *)
Theorem shadow_of_loaded_file fuel file img :
  image_load L qsort fuel file = Loaded img ->
  cert_table_size img <> 0 ->
  exists addr dsize n,
    buf img = file ++ replicate n x00 /\
    image_size img = len file + Z.of_nat n /\
    rd_u32 file (data_dir_sigtable img + off_dd_addr) = Done addr /\
    rd_u32 file (data_dir_sigtable img + off_dd_size) = Done dsize /\
    dsize <> 0 /\
    (sigbuf img <> None <-> header_ok file addr (image_size img)) /\
    (header_ok file addr (image_size img) ->
       exists copy, load_bytes (buf img) addr dsize = Done copy /\
                    sigbuf img = Some copy /\ sigsize img = dsize) /\
    (~ header_ok file addr (image_size img) ->
       sigbuf img = None /\ sigsize img = 0).
Proof.
  unfold image_load. intros H Hnz.
  assert (exists i0, image_pecoff_parse L (image_of_file file)
                     = Done (Some i0)) as [i0 Hp0].
  { destruct fuel; [discriminate|]. cbn [reparse] in H.
    destruct (image_pecoff_parse L _) as [[i0|]|]; try discriminate.
    eauto. }
  pose proof (image_pecoff_parse_Done _ _ _ Hp0)
    as (_ & _ & _ & dsize & valid & Hd & Hcts & Hct & Hv & _).
  cbn [buf image_size image_of_file] in Hd, Hct, Hv.
  eapply (reparse_shadows file i0 dsize) in H as
    ((n & Hb & Hs) & Ect & Edd & Ecs & Hsh & Hno); eauto.
  2:{ exists 0%nat. cbn [buf image_size image_of_file replicate].
      rewrite app_nil_r. split; [done|lia]. }
  2:{ unfold shadows. done. }
  rewrite Ecs in Hnz.
  destruct (cert_table_size i0 =? 0) eqn:Ez; tests; [done|].
  destruct Hct as (addr & Ha & Hct). rewrite Hct in Hv, Hsh, Hno.
  exists addr, dsize, n. rewrite Edd.
  split; [done|]. split; [done|]. split; [done|]. split; [done|].
  split. { intros ->. apply Hnz. rewrite Hcts. done. }
  assert (Hiff : header_ok (buf img) addr (image_size img) <->
                 header_ok file addr (image_size img)).
  { rewrite Hb. split.
    - eapply header_ok_unpadded; eauto.
    - intros Hok. eapply header_ok_padded; eauto. lia. }
  unfold shadows in Hsh.
  destruct (sigbuf img) as [copy|] eqn:Es.
  - destruct Hsh as (a & Ea & Hok & Hl & Hz). injection Ea as <-.
    apply Hiff in Hok.
    split; [split; done|]. split; [eauto|]. intros Hf. done.
  - specialize (Hno eq_refl addr eq_refl). rewrite Hiff in Hno.
    split; [split; done|]. split; [done|]. done.
Qed.

End Shadow.

(** C10 as stated fails where the load pads the buffer: the size field
    of the table's header in [late_table_pe], 0x400, is not below the
    length of the file, and yet the load, whose second parse compares it
    with the 0x408 bytes of the padded buffer, sets [sigbuf]. *)
Lemma padded_table_accepted :
  exists img,
    image_load pe_layout qsort_regions 2 late_table_pe = Loaded img /\
    cert_table_size img <> 0 /\
    rd_u32 late_table_pe (data_dir_sigtable img + off_dd_addr) = Done 0x3f0 /\
    rd_u16 late_table_pe (0x3f0 + off_cth_revision) = Done 0x0200 /\
    rd_u16 late_table_pe (0x3f0 + off_cth_type) = Done 0x0002 /\
    rd_u32 late_table_pe (0x3f0 + off_cth_size) = Done 0x400 /\
    len late_table_pe = 0x400 /\
    ~ header_ok late_table_pe 0x3f0 (len late_table_pe) /\
    sigbuf img <> None.
Proof.
  eexists.
  split; [vm_compute; reflexivity|].
  split; [vm_compute; discriminate|].
  split; [vm_compute; reflexivity|].
  split; [vm_compute; reflexivity|].
  split; [vm_compute; reflexivity|].
  split; [vm_compute; reflexivity|].
  split; [vm_compute; reflexivity|].
  split; [|vm_compute; discriminate].
  intros (_ & _ & c & Hc & Hlt).
  vm_compute in Hc. injection Hc as <-. vm_compute in Hlt. discriminate.
Qed.

(** ** The image that reaches [image_write] *)

Lemma pe_layout_fields_apart : fields_apart pe_layout.
Proof. split; vm_compute; discriminate. Qed.

Lemma align_up_range size : - 2 ^ 31 <= align_up size 8 < 2 ^ 31.
Proof.
  rewrite align_up_8.
  pose proof (cast_int_range (cast_int (size + 8) - 1)) as H.
  pose proof (Z.div_mod (cast_int (cast_int (size + 8) - 1)) 8 ltac:(lia)).
  pose proof (Z.mod_pos_bound (cast_int (cast_int (size + 8) - 1)) 8
                ltac:(lia)).
  lia.
Qed.

Lemma len_talloc_realloc p n : 0 <= n -> len (talloc_realloc p n) = n.
Proof.
  intros H. unfold talloc_realloc, len.
  rewrite length_app, length_take, length_replicate. lia.
Qed.

Lemma len_talloc_array n : 0 <= n -> len (talloc_array n) = n.
Proof.
  intros H. unfold talloc_array, len. rewrite length_replicate. lia.
Qed.

Lemma memset_len mem off c n mem' :
  memset mem off c n = Done mem' -> len mem' = len mem.
Proof.
  intros H. apply memset_Done in H as [_ H].
  apply store_bytes_Done in H as (_ & _ & _ & H). done.
Qed.

Lemma store_bytes_len mem off bs mem' :
  store_bytes mem off bs = Done mem' -> len mem' = len mem.
Proof. intros H. apply store_bytes_Done in H as (_ & _ & _ & H). done. Qed.

(** [image_add_signature] leaves [sigsize] the length of [sigbuf]. *)
Lemma add_signature_consistent img sig size rc img' :
  image_add_signature img sig size = Done (rc, img') ->
  sig_consistent img' /\ checksum img' = checksum img /\
  data_dir_sigtable img' = data_dir_sigtable img.
Proof.
  unfold image_add_signature. intros H.
  apply obind_Done in H as (m1 & E1 & H).
  apply obind_Done in H as (m2 & E2 & H).
  apply obind_Done in H as (m3 & E3 & H).
  apply obind_Done in H as (m4 & E4 & H).
  apply obind_Done in H as (payload & Ep & H).
  apply obind_Done in H as (m5 & E5 & H).
  apply obind_Done in H as (m6 & E6 & H).
  injection H as <- <-.
  split; [|done].
  unfold sig_consistent. cbn [sigbuf sigsize set_cert_table set_sig].
  assert (len m6 = len m5) as ->.
  { destruct (negb _); [eapply memset_len; eauto|congruence]. }
  unfold wr_u32, wr_u16 in *.
  rewrite (store_bytes_len _ _ _ _ E5), (store_bytes_len _ _ _ _ E4),
    (store_bytes_len _ _ _ _ E3), (store_bytes_len _ _ _ _ E2),
    (memset_len _ _ _ _ _ E1).
  pose proof (memset_Done _ _ _ _ _ E1) as [_ Hs].
  apply store_bytes_Done in Hs as (Hs0 & Hs1 & _).
  rewrite len_replicate in Hs1.
  destruct (sigbuf img) as [p|].
  - rewrite len_talloc_realloc by apply cast_size_t_range. done.
  - pose proof (align_up_range
                  (cast_int (size + sizeof_cert_table_header))) as Hr.
    set (a := align_up _ 8) in *.
    unfold talloc_array, len in Hs1 |- *.
    rewrite length_replicate in Hs1 |- *.
    unfold sizeof_cert_table_header in Hs1.
    rewrite cast_size_t_id by lia. lia.
Qed.

(** So does [image_remove_signature]. *)
Lemma remove_signature_consistent img signum rc img' :
  sig_consistent img ->
  image_remove_signature img signum = Done (rc, img') ->
  sig_consistent img' /\ checksum img' = checksum img /\
  data_dir_sigtable img' = data_dir_sigtable img.
Proof.
  unfold image_remove_signature. intros Hc H.
  bind_inv H.
  destruct v as [[b s]|]; [|injection H as <- <-; done].
  destruct (sigbuf img) as [mem|] eqn:Es; [|discriminate].
  assert (Hre : forall m n, 0 <= n < 2 ^ 64 ->
            sig_consistent (set_sig img (talloc_realloc_sig m n) n)).
  { intros m n Hn. unfold sig_consistent, talloc_realloc_sig.
    cbn [sigbuf sigsize set_sig].
    destruct (n =? 0) eqn:En; tests; [done|].
    rewrite len_talloc_realloc by lia. done. }
  destruct (_ <=? _).
  - destruct (_ =? 0); injection H as <- <-.
    + done.
    + split; [apply Hre, cast_size_t_range|done].
  - repeat bind_inv H. injection H as <- <-.
    split; [apply Hre, cast_size_t_range|done].
Qed.

Lemma run_edits_consistent img es img' :
  sig_consistent img -> run_edits img es = Done img' ->
  sig_consistent img' /\ checksum img' = checksum img /\
  data_dir_sigtable img' = data_dir_sigtable img.
Proof.
  revert img. induction es as [|e es IH]; intros img Hc H.
  - injection H as <-. done.
  - cbn [run_edits] in H. bind_inv H. destruct v as [rc img1].
    assert (sig_consistent img1 /\ checksum img1 = checksum img /\
            data_dir_sigtable img1 = data_dir_sigtable img)
      as (H1 & H2 & H3).
    { destruct e; cbn [run_edit] in E;
        eauto using add_signature_consistent, remove_signature_consistent. }
    cbn [snd] in H. destruct (IH _ H1 H) as (? & ? & ?).
    repeat split; congruence.
Qed.

Lemma shadows_consistent mem s ct dsize img :
  shadows mem s ct dsize img -> sig_consistent img.
Proof.
  unfold shadows, sig_consistent.
  destruct (sigbuf img) as [copy|]; [|done].
  intros (addr & _ & _ & Hl & ->).
  apply load_bytes_Done in Hl as (_ & _ & _ & _ & Hl). done.
Qed.

Section Written.
Context (L : layout) (qsort : list region -> list region).

(** After a load, [sigsize] is the length of [sigbuf]. *)
Lemma loaded_sig_consistent fuel file img :
  image_load L qsort fuel file = Loaded img -> sig_consistent img.
Proof.
  unfold image_load. intros H.
  assert (exists i0, image_pecoff_parse L (image_of_file file)
                     = Done (Some i0)) as [i0 Hp0].
  { destruct fuel; [discriminate|]. cbn [reparse] in H.
    destruct (image_pecoff_parse L _) as [[i0|]|]; try discriminate.
    eauto. }
  pose proof (image_pecoff_parse_Done _ _ _ Hp0)
    as (_ & _ & _ & dsize & valid & Hd & _).
  cbn [buf image_size image_of_file] in Hd.
  eapply (reparse_shadows L qsort file i0 dsize) in H as
    (_ & _ & _ & _ & Hsh & _); eauto.
  - eapply shadows_consistent; eauto.
  - exists 0%nat. cbn [buf image_size image_of_file replicate].
    rewrite app_nil_r. split; [done|lia].
  - unfold shadows. done.
Qed.

Lemma image_find_regions_fields img img' :
  image_find_regions L qsort img = Done img' ->
  checksum img' = checksum img.
Proof.
  unfold image_find_regions. intros H. bind_inv H.
  destruct (last _) as [r|]; [|discriminate]. injection H as <-. done.
Qed.

Lemma loaded_fields_apart fuel file img :
  fields_apart L ->
  image_load L qsort fuel file = Loaded img ->
  checksum img + 4 <= data_dir_sigtable img.
Proof.
  intros HL H. apply reparse_Loaded in H as (i1 & i2 & Hp & Hf & _).
  pose proof (parse_fields_apart L _ _ HL Hp).
  pose proof (image_find_regions_fields _ _ Hf).
  pose proof (image_find_regions_tables _ _ _ _ Hf) as [_ ?].
  lia.
Qed.

(** C4.  An image that [image_load] has returned and that
    [image_add_signature] and [image_remove_signature] have edited is
    written as follows by [image_write]: the security directory entry in
    the buffer holds ([data_size], length of [sigbuf]) as 32-bit values
    when there are signature bytes and (0, 0) when there are none, and the
    emitted bytes are the first [data_size] bytes of the buffer followed by
    the signature bytes: nothing of the buffer past [data_size] is
    written. *)
Theorem write_output fuel file img es img1 rc img' out :
  fields_apart L ->
  image_load L qsort fuel file = Loaded img ->
  run_edits img es = Done img1 ->
  image_write img1 = Done (rc, img', out) ->
  rd_u32 (buf img') (data_dir_sigtable img1 + off_dd_addr)
  = Done (if bool_decide (sig_bytes img1 = []) then 0
          else cast_u32 (data_size img1)) /\
  rd_u32 (buf img') (data_dir_sigtable img1 + off_dd_size)
  = Done (if bool_decide (sig_bytes img1 = []) then 0
          else cast_u32 (len (sig_bytes img1))) /\
  out = take (Z.to_nat (data_size img1)) (buf img') ++ sig_bytes img1 /\
  len (take (Z.to_nat (data_size img1)) (buf img')) = data_size img1.
Proof.
  intros HL Hl He Hw.
  pose proof (loaded_sig_consistent _ _ _ Hl) as Hc.
  pose proof (loaded_fields_apart _ _ _ HL Hl) as Ha.
  destruct (run_edits_consistent _ _ _ Hc He) as (Hc1 & Hk & Hd).
  apply (image_write_spec img1 rc img' out); [done|left; lia|done].
Qed.

End Written.

(** ** [image_write] returns *)

Lemma store_bytes_returns mem off bs :
  0 <= off -> off + len bs <= len mem ->
  exists mem', store_bytes mem off bs = Done mem' /\ len mem' = len mem.
Proof.
  intros H1 H2. rewrite store_bytes_in_range by done.
  eexists. split; [done|].
  eapply store_bytes_len. apply store_bytes_in_range; done.
Qed.

Lemma csum_bytes_returns csum mem off n :
  0 <= off -> 0 <= n < 2 ^ 32 -> off + n <= len mem ->
  exists v, csum_bytes csum mem off n = Done v.
Proof.
  intros H1 H2 H3. unfold csum_bytes.
  rewrite load_bytes_in_range by lia. cbn [obind].
  destruct (2 ^ 32 <=? n) eqn:E; tests; [lia|eauto].
Qed.

(** [image_write] stays within its buffers, and so returns 0, when the
    security directory entry and the checksum field lie in the first
    [data_size] bytes, [data_size] is within the buffer, and the lengths
    fit the [unsigned int] counter of [csum_bytes]. *)
Lemma image_write_returns img :
  sig_consistent img ->
  0 <= data_dir_sigtable img ->
  data_dir_sigtable img + 8 <= len (buf img) ->
  0 <= checksum img -> checksum img + 4 <= data_size img ->
  data_size img <= len (buf img) ->
  data_size img < 2 ^ 32 -> sigsize img < 2 ^ 32 ->
  exists img' out, image_write img = Done (0, img', out).
Proof.
  intros Hc Hd0 Hd1 Hk0 Hk1 Hs Hs32 Hz32.
  apply is_signed_consistent in Hc as [Hz Hsg].
  unfold image_write, image_pecoff_update_checksum, wr_u32.
  unfold off_dd_addr, off_dd_size.
  destruct (store_bytes_returns (buf img) (data_dir_sigtable img + 0)
              (le_bytes 4 (if is_signed img then cast_u32 (data_size img)
                           else 0)))
    as (b1 & -> & L1); [lia|rewrite len_le_bytes; lia|].
  cbn [obind].
  destruct (store_bytes_returns b1 (data_dir_sigtable img + 4)
              (le_bytes 4 (if is_signed img then cast_u32 (sigsize img)
                           else 0)))
    as (b2 & -> & L2); [lia|rewrite len_le_bytes; lia|].
  cbn [obind buf checksum data_size sigbuf sigsize set_buf image_size].
  change (is_signed (set_buf img b2 (image_size img))) with (is_signed img).
  rewrite Z.sub_0_r, Z.add_0_l.
  rewrite (cast_size_t_id (checksum img)) by lia.
  rewrite (cast_size_t_id (data_size img - (checksum img + 4))) by lia.
  destruct (csum_bytes_returns 0 b2 0 (checksum img))
    as (c1 & ->); [lia|lia|lia|].
  cbn [obind].
  destruct (csum_bytes_returns c1 b2 (checksum img + 4)
              (data_size img - (checksum img + 4)))
    as (c2 & ->); [lia|lia|lia|].
  cbn [obind].
  pose proof (len_nonneg (sig_bytes img)) as Hn.
  fold (sig_bytes img).
  assert (exists c3, (if is_signed img
                      then csum_bytes c2 (sig_bytes img) 0 (sigsize img)
                      else Done c2) = Done c3) as (c3 & ->).
  { destruct (is_signed img); [|eauto].
    apply csum_bytes_returns; lia. }
  cbn [obind].
  match goal with |- context [store_bytes b2 (checksum img) ?bs] =>
    destruct (store_bytes_returns b2 (checksum img) bs)
      as (b3 & -> & L3); [lia|rewrite len_le_bytes; lia|] end.
  cbn [obind buf data_size sigsize set_buf].
  rewrite load_bytes_in_range by lia. cbn [obind].
  destruct (is_signed img); cbn [negb]; [|eauto].
  rewrite load_bytes_in_range by lia. cbn [obind]. eauto.
Qed.

(** C8 fails on a file whose security directory size has its top bit set:
    [cert_table_size], an [int], is negative, the "endjunk" region then
    reaches past the end of the buffer, and every pass asks for 8 more
    bytes.  After the first padding [data_size] exceeds the buffer again,
    and again after each of the next ones. *)
Theorem negsize_reparses :
  image_load pe_layout qsort_regions 1 negsize_pe = OutOfFuel /\
  image_load pe_layout qsort_regions 2 negsize_pe = OutOfFuel /\
  image_load pe_layout qsort_regions 32 negsize_pe = OutOfFuel.
Proof. repeat split; vm_compute; reflexivity. Qed.

(** C9 fails.  The certificate-table header is read at the offset the
    security directory gives without a check against the length of the
    buffer; and a section that is not the last one in offset order may
    reach past the end of the buffer, which is padded only up to the end
    of the last region, so that hashing reads past the end. *)
Theorem reads_out_of_bounds :
  image_load pe_layout qsort_regions 1 stray_table_pe = LoadFault /\
  exists img,
    image_load pe_layout qsort_regions 1 overhang_pe = Loaded img /\
    forall SHA256, image_hash_sha256 SHA256 img = Fault.
Proof.
  split; [vm_compute; reflexivity|].
  eexists. split; [vm_compute; reflexivity|].
  intros SHA256. unfold image_hash_sha256.
  match goal with |- obind ?m _ = _ =>
    replace m with (@Fault (list byte)) by (vm_compute; reflexivity) end.
  done.
Qed.


(** C1 as stated fails on the file of the spec's fifth scenario: the
    "endjunk" region is put at offset [bytes] = 0x400, on top of the
    second section, and the bytes 0x300..0x400 are in no region. *)
Lemma gap_regions_overlap :
  exists img,
    image_load pe_layout qsort_regions 1 gap_pe = Loaded img /\
    ~ disjoint_ordered (checksum_regions img) /\
    ~ in_regions (checksum_regions img) 0x300.
Proof.
  eexists. split; [vm_compute; reflexivity|]. split.
  - intros H.
    specialize (H 4%nat 5%nat _ _ ltac:(lia) eq_refl eq_refl).
    vm_compute in H. apply H. reflexivity.
  - intros (r & Hr & Hx). 
    repeat (apply elem_of_cons in Hr as [->|Hr];
            [vm_compute in Hx; destruct Hx as [H1 H2];
             first [apply H1; reflexivity | discriminate H2]|]).
    apply elem_of_nil in Hr. done.
Qed.

(** ** The theorems at sample inputs *)

Lemma tiled_trailing :
  tiled trailing_image (take 4 (checksum_regions trailing_image)) 0x400.
Proof.
  do 3 eexists. split; [vm_compute; reflexivity|].
  repeat split; repeat (econstructor; try (vm_compute; reflexivity)).
Qed.

Lemma regions_of_loaded_image_witness :
  is_qsort qsort_regions /\
  image_load pe_layout qsort_regions 1 trailing_pe = Loaded trailing_image /\
  exists sorted secs bytes,
    Forall2 (fun i o => section_region pe_layout trailing_image i = Done o)
      (seqZ 0 (sections trailing_image)) secs /\
    Permutation sorted
      (int_sized <$> (fixed_regions trailing_image ++ omap id secs)) /\
    ordered_by_offset sorted /\
    cast_size_t bytes = cast_size_t (12 + total_size sorted) /\
    checksum_regions trailing_image
    = (if cast_size_t (bytes + cert_table_size trailing_image)
          <? image_size trailing_image
       then sorted ++ [endjunk trailing_image bytes] else sorted) /\
    forall e,
      tiled trailing_image sorted e -> e < 2 ^ 31 ->
      image_size trailing_image < 2 ^ 31 ->
      0 <= cert_table_size trailing_image ->
      bytes = e /\
      disjoint_ordered (checksum_regions trailing_image) /\
      (e + cert_table_size trailing_image < image_size trailing_image ->
       checksum_regions trailing_image
       = sorted ++ [range_region e (image_size trailing_image
                                    - cert_table_size trailing_image)
                      "endjunk"] /\
       forall x, 0 <= x < image_size trailing_image
                          - cert_table_size trailing_image ->
         checksum trailing_image <= x < checksum trailing_image + 4 \/
         data_dir_sigtable trailing_image <= x
           < data_dir_sigtable trailing_image + 8 \/
         in_regions (checksum_regions trailing_image) x).
Proof.
  split; [apply qsort_regions_is_qsort|].
  split; [vm_compute; reflexivity|].
  apply (regions_of_loaded_image pe_layout qsort_regions 1 trailing_pe
           trailing_image).
  - apply qsort_regions_is_qsort.
  - vm_compute. reflexivity.
Defined.


Lemma checksum_written_witness :
  len (buf signed_image) < 2 ^ 63 /\
  image_write signed_image = Done written /\
  exists image_bytes sig,
    snd written = image_bytes ++ sig /\
    image_bytes = take (Z.to_nat (data_size signed_image))
                    (buf (snd (fst written))) /\
    len image_bytes = data_size signed_image /\
    sig = (if is_signed signed_image
           then take (Z.to_nat (sigsize signed_image)) (sig_bytes signed_image)
           else []) /\
    rd_u32 (snd written) (checksum signed_image)
    = Done (pe_checksum image_bytes sig (checksum signed_image)).
Proof.
  split; [vm_compute; reflexivity|].
  split; [vm_compute; reflexivity|].
  apply (checksum_written signed_image (fst (fst written))
           (snd (fst written)) (snd written)).
  - vm_compute. reflexivity.
  - vm_compute. reflexivity.
Defined.

Lemma add_remove_restores_witness :
  sigbuf minimal_image = None /\
  small_sig sig_aa /\
  exists img1 img2,
    image_add_signature minimal_image sig_aa (len sig_aa) = Done (0, img1) /\
    image_remove_signature img1 0 = Done (0, img2) /\
    sigbuf img2 = None /\ sigsize img2 = 0 /\
    buf img2 = buf minimal_image /\ data_size img2 = data_size minimal_image.
Proof.
  split; [vm_compute; reflexivity|].
  split; [vm_compute; reflexivity|].
  apply (add_remove_restores minimal_image sig_aa).
  - vm_compute. reflexivity.
  - vm_compute. reflexivity.
Defined.

Lemma signature_count_witness :
  sigbuf minimal_image = None /\
  Forall small_sig two_sigs /\
  len (cert_table_of two_sigs) < 2 ^ 63 - 8 /\
  exists img',
    add_signatures minimal_image two_sigs = Done img' /\
    (forall i sig, two_sigs !! i = Some sig ->
       image_get_signature img' (Z.of_nat i)
       = Done (Some (len (cert_table_of (take i two_sigs)) + 8, len sig)) /\
       load_bytes (sig_bytes img')
         (len (cert_table_of (take i two_sigs)) + 8) (len sig) = Done sig) /\
    image_get_signature img' (len two_sigs) = Done None /\
    image_remove_signature img' (len two_sigs) = Done (-1, img') /\
    (forall img0 signum rc img1,
       image_remove_signature img0 signum = Done (rc, img1) ->
       rc <> 0 -> img1 = img0).
Proof.
  split; [vm_compute; reflexivity|].
  split; [repeat constructor; vm_compute; reflexivity|].
  split; [vm_compute; reflexivity|].
  apply (signature_count minimal_image two_sigs).
  - vm_compute. reflexivity.
  - repeat constructor; vm_compute; reflexivity.
  - vm_compute. reflexivity.
Defined.

Lemma alignment_kept_witness :
  image_load pe_layout qsort_regions 1 minimal_pe = Loaded minimal_image /\
  sigsize minimal_image mod 8 = 0 /\
  run_edits minimal_image minimal_edits = Done minimal_edited /\
  data_size minimal_image mod 8 = 0 /\
  sigsize minimal_edited mod 8 = 0 /\
  data_size minimal_edited = data_size minimal_image.
Proof.
  split; [vm_compute; reflexivity|].
  split; [vm_compute; reflexivity|].
  split; [vm_compute; reflexivity|].
  apply (alignment_kept pe_layout qsort_regions 1 minimal_pe minimal_image
           minimal_edits minimal_edited); vm_compute; reflexivity.
Defined.

Lemma cert_table_shadow_witness :
  image_pecoff_parse pe_layout (image_of_file presigned_pe)
  = Done (Some presigned_parsed) /\
  sigbuf (image_of_file presigned_pe) = None /\
  cert_table_size presigned_parsed <> 0 /\
  exists addr dsize,
    rd_u32 (buf (image_of_file presigned_pe))
      (data_dir_sigtable presigned_parsed + off_dd_addr) = Done addr /\
    rd_u32 (buf (image_of_file presigned_pe))
      (data_dir_sigtable presigned_parsed + off_dd_size) = Done dsize /\
    dsize <> 0 /\
    let header_ok :=
      rd_u16 (buf (image_of_file presigned_pe)) (addr + off_cth_revision)
      = Done CERT_TABLE_REVISION /\
      rd_u16 (buf (image_of_file presigned_pe)) (addr + off_cth_type)
      = Done CERT_TABLE_TYPE_PKCS /\
      exists csize,
        rd_u32 (buf (image_of_file presigned_pe)) (addr + off_cth_size)
        = Done csize /\
        csize < image_size (image_of_file presigned_pe) in
    (sigbuf presigned_parsed <> None <-> header_ok) /\
    (header_ok ->
       exists copy,
         load_bytes (buf (image_of_file presigned_pe)) addr dsize
         = Done copy /\
         sigbuf presigned_parsed = Some copy /\
         sigsize presigned_parsed = dsize) /\
    (~ header_ok ->
       sigbuf presigned_parsed = None /\
       sigsize presigned_parsed = sigsize (image_of_file presigned_pe)).
Proof.
  split; [vm_compute; reflexivity|].
  split; [reflexivity|].
  split; [vm_compute; discriminate|].
  apply (cert_table_shadow pe_layout (image_of_file presigned_pe)
           presigned_parsed).
  - vm_compute. reflexivity.
  - reflexivity.
  - vm_compute. discriminate.
Defined.

Lemma shadow_of_loaded_file_witness :
  image_load pe_layout qsort_regions 2 late_table_pe
  = Loaded late_table_image /\
  cert_table_size late_table_image <> 0 /\
  exists addr dsize n,
    buf late_table_image = late_table_pe ++ replicate n x00 /\
    image_size late_table_image = len late_table_pe + Z.of_nat n /\
    rd_u32 late_table_pe (data_dir_sigtable late_table_image + off_dd_addr)
    = Done addr /\
    rd_u32 late_table_pe (data_dir_sigtable late_table_image + off_dd_size)
    = Done dsize /\
    dsize <> 0 /\
    (sigbuf late_table_image <> None <->
     header_ok late_table_pe addr (image_size late_table_image)) /\
    (header_ok late_table_pe addr (image_size late_table_image) ->
       exists copy,
         load_bytes (buf late_table_image) addr dsize = Done copy /\
         sigbuf late_table_image = Some copy /\
         sigsize late_table_image = dsize) /\
    (~ header_ok late_table_pe addr (image_size late_table_image) ->
       sigbuf late_table_image = None /\ sigsize late_table_image = 0).
Proof.
  split; [vm_compute; reflexivity|].
  split; [vm_compute; discriminate|].
  apply (shadow_of_loaded_file pe_layout qsort_regions 2 late_table_pe
           late_table_image).
  - vm_compute. reflexivity.
  - vm_compute. discriminate.
Defined.

Lemma write_output_witness :
  fields_apart pe_layout /\
  image_load pe_layout qsort_regions 1 minimal_pe = Loaded minimal_image /\
  run_edits minimal_image [Add sig_aa 10] = Done signed_image /\
  image_write signed_image = Done written /\
  rd_u32 (buf (snd (fst written)))
    (data_dir_sigtable signed_image + off_dd_addr)
  = Done (if bool_decide (sig_bytes signed_image = []) then 0
          else cast_u32 (data_size signed_image)) /\
  rd_u32 (buf (snd (fst written)))
    (data_dir_sigtable signed_image + off_dd_size)
  = Done (if bool_decide (sig_bytes signed_image = []) then 0
          else cast_u32 (len (sig_bytes signed_image))) /\
  snd written
  = take (Z.to_nat (data_size signed_image)) (buf (snd (fst written)))
      ++ sig_bytes signed_image /\
  len (take (Z.to_nat (data_size signed_image)) (buf (snd (fst written))))
  = data_size signed_image.
Proof.
  split; [split; vm_compute; discriminate|].
  split; [vm_compute; reflexivity|].
  split; [vm_compute; reflexivity|].
  split; [vm_compute; reflexivity|].
  apply (write_output pe_layout qsort_regions 1 minimal_pe minimal_image
           [Add sig_aa 10] signed_image (fst (fst written))
           (snd (fst written)) (snd written)).
  - split; vm_compute; discriminate.
  - vm_compute. reflexivity.
  - vm_compute. reflexivity.
  - vm_compute. reflexivity.
Defined.

(** * Further properties of [image.c] *)

(** ** The header accessors *)

(** A read of [n + m] bytes is a read of [n] bytes followed by a read of
    [m] bytes. *)
Lemma load_bytes_split mem off n m :
  0 <= n -> 0 <= m ->
  load_bytes mem off (n + m)
  = (b1 <- load_bytes mem off n ;;
     b2 <- load_bytes mem (off + n) m ;; Done (b1 ++ b2)).
Proof.
  intros Hn Hm. unfold load_bytes.
  destruct (0 <=? off) eqn:E0; cbn [andb obind]; [|done].
  replace (0 <=? n + m) with true by (symmetry; apply Z.leb_le; lia).
  replace (0 <=? n) with true by (symmetry; apply Z.leb_le; lia).
  replace (0 <=? m) with true by (symmetry; apply Z.leb_le; lia).
  replace (0 <=? off + n) with true by (symmetry; tests; apply Z.leb_le; lia).
  cbn [andb]. tests.
  destruct (off + n + m <=? len mem) eqn:E2; tests.
  - replace (off + (n + m) <=? len mem) with true
      by (symmetry; apply Z.leb_le; lia).
    replace (off + n <=? len mem) with true
      by (symmetry; apply Z.leb_le; lia).
    cbn [obind]. f_equal.
    rewrite Z2Nat.inj_add, <- take_take_drop, drop_drop by lia.
    rewrite Z2Nat.inj_add by lia. done.
  - replace (off + (n + m) <=? len mem) with false
      by (symmetry; apply Z.leb_gt; lia).
    destruct (off + n <=? len mem); done.
Qed.

Lemma load_bytes_one mem off bs :
  load_bytes mem off 1 = Done bs -> exists b, bs = [b].
Proof.
  intros H. apply load_bytes_Done in H as (_ & _ & _ & _ & H).
  unfold len in H. destruct bs as [|b [|]]; simpl in H; try lia. eauto.
Qed.

Lemma le_val_app bs1 bs2 :
  le_val (bs1 ++ bs2) = le_val bs1 + 256 ^ len bs1 * le_val bs2.
Proof.
  unfold len. induction bs1 as [|b bs1 IH]; cbn [app le_val length].
  - simpl. lia.
  - rewrite IH, Nat2Z.inj_succ, Z.pow_succ_r by lia. lia.
Qed.

Lemma rd_u16_bytes mem off :
  rd_u16 mem off
  = (u0 <- rd_u8 mem off ;; u1 <- rd_u8 mem (off + 1) ;;
     Done (u0 + 256 * u1)).
Proof.
  unfold rd_u16, rd_u8. change 2 with (1 + 1).
  rewrite load_bytes_split by lia.
  destruct (load_bytes mem off 1) as [b0|] eqn:E0; cbn [obind]; [|done].
  destruct (load_bytes mem (off + 1) 1) as [b1|] eqn:E1; cbn [obind]; [|done].
  apply load_bytes_one in E0 as [x0 ->].
  apply load_bytes_one in E1 as [x1 ->].
  cbn [app le_val]. f_equal. lia.
Qed.

Lemma rd_u32_bytes mem off :
  rd_u32 mem off
  = (u0 <- rd_u8 mem off ;; u1 <- rd_u8 mem (off + 1) ;;
     u2 <- rd_u8 mem (off + 2) ;; u3 <- rd_u8 mem (off + 3) ;;
     Done (u0 + 256 * u1 + 65536 * u2 + 16777216 * u3)).
Proof.
  unfold rd_u32, rd_u8. change 4 with (1 + (1 + (1 + 1))).
  rewrite load_bytes_split by lia.
  destruct (load_bytes mem off 1) as [b0|] eqn:E0; cbn [obind]; [|done].
  rewrite load_bytes_split by lia.
  destruct (load_bytes mem (off + 1) 1) as [b1|] eqn:E1; cbn [obind]; [|done].
  rewrite load_bytes_split by lia.
  replace (off + 1 + 1) with (off + 2) by lia.
  destruct (load_bytes mem (off + 2) 1) as [b2|] eqn:E2; cbn [obind]; [|done].
  replace (off + 2 + 1) with (off + 3) by lia.
  destruct (load_bytes mem (off + 3) 1) as [b3|] eqn:E3; cbn [obind]; [|done].
  apply load_bytes_one in E0 as [x0 ->].
  apply load_bytes_one in E1 as [x1 ->].
  apply load_bytes_one in E2 as [x2 ->].
  apply load_bytes_one in E3 as [x3 ->].
  cbn [app le_val]. f_equal. lia.
Qed.

Lemma rd_u8_range mem off v : rd_u8 mem off = Done v -> 0 <= v < 256.
Proof.
  unfold rd_u8. intros H. bind_inv H. injection H as <-.
  apply load_bytes_one in E as [b ->]. cbn [le_val].
  pose proof (u8_range b). lia.
Qed.

Lemma pehdr_u32_rd_u32 mem off : pehdr_u32 mem off = rd_u32 mem off.
Proof.
  rewrite rd_u32_bytes. unfold pehdr_u32.
  destruct (rd_u8 mem off) as [u0|] eqn:E0; cbn [obind]; [|done].
  destruct (rd_u8 mem (off + 1)) as [u1|] eqn:E1; cbn [obind]; [|done].
  destruct (rd_u8 mem (off + 2)) as [u2|] eqn:E2; cbn [obind]; [|done].
  destruct (rd_u8 mem (off + 3)) as [u3|] eqn:E3; cbn [obind]; [|done].
  apply rd_u8_range in E0, E1, E2, E3.
  rewrite !Z.shiftl_mul_pow2 by lia. f_equal.
  unfold cast_u32. rewrite Z.mod_small; lia.
Qed.

Lemma pehdr_u16_rd_u16 mem off : pehdr_u16 mem off = rd_u16 mem off.
Proof.
  rewrite rd_u16_bytes. unfold pehdr_u16.
  destruct (rd_u8 mem off) as [u0|] eqn:E0; cbn [obind]; [|done].
  destruct (rd_u8 mem (off + 1)) as [u1|] eqn:E1; cbn [obind]; [|done].
  apply rd_u8_range in E0, E1.
  rewrite !Z.shiftl_mul_pow2 by lia. f_equal.
  unfold cast_u16. rewrite Z.mod_small; lia.
Qed.

(** X1.  [__pehdr_u32] and [__pehdr_u16], which put a field together byte
    by byte, return what a native load of the field returns on the
    little-endian host, and fault exactly when the native load does; so a
    value stored natively, as [image_write] stores the security directory
    entry and the checksum, is read back by them, on 32 or 16 bits. *)
Theorem pehdr_native_load mem off :
  pehdr_u32 mem off = rd_u32 mem off /\
  pehdr_u16 mem off = rd_u16 mem off /\
  (forall v mem', wr_u32 mem off v = Done mem' ->
     pehdr_u32 mem' off = Done (v mod 2 ^ 32)) /\
  (forall v mem', wr_u16 mem off v = Done mem' ->
     pehdr_u16 mem' off = Done (v mod 2 ^ 16)).
Proof.
  split; [apply pehdr_u32_rd_u32|]. split; [apply pehdr_u16_rd_u16|].
  split; intros v mem' H.
  - rewrite pehdr_u32_rd_u32. apply rd_wr_u32 in H. done.
  - rewrite pehdr_u16_rd_u16. unfold wr_u16, rd_u16 in *.
    apply load_store_same in H. rewrite len_le_bytes in H.
    change (Z.of_nat 2) with 2 in H. rewrite H. cbn [obind].
    rewrite le_val_le_bytes. done.
Qed.

(** ** [align_up] *)

Lemma land_lnot_ones x k :
  0 <= k -> Z.land x (Z.lnot (2 ^ k - 1)) = 2 ^ k * (x / 2 ^ k).
Proof.
  intros Hk. replace (2 ^ k - 1) with (Z.ones k)
    by (rewrite Z.ones_equiv; lia).
  rewrite <- Z.ldiff_land, Z.ldiff_ones_r by lia.
  rewrite Z.shiftr_div_pow2, Z.shiftl_mul_pow2 by lia. lia.
Qed.

(** X2.  For an alignment that is a power of two, and as long as
    [size + align] does not overflow an [int], [align_up(size, align)] is
    the smallest multiple of [align] that is not below [size]. *)
Theorem align_up_least size k :
  0 <= k -> 0 <= size -> size + 2 ^ k < 2 ^ 31 ->
  align_up size (2 ^ k) mod 2 ^ k = 0 /\
  size <= align_up size (2 ^ k) < size + 2 ^ k /\
  forall m, m mod 2 ^ k = 0 -> size <= m -> align_up size (2 ^ k) <= m.
Proof.
  intros Hk Hs Ho.
  assert (Hp : 0 < 2 ^ k) by (apply Z.pow_pos_nonneg; lia).
  unfold align_up.
  rewrite (cast_int_id (size + 2 ^ k)) by lia.
  rewrite (cast_int_id (size + 2 ^ k - 1)) by lia.
  rewrite (cast_int_id (2 ^ k - 1)) by lia.
  rewrite land_lnot_ones by lia.
  set (q := (size + 2 ^ k - 1) / 2 ^ k).
  pose proof (Z.div_mod (size + 2 ^ k - 1) (2 ^ k) ltac:(lia)) as Hd.
  pose proof (Z.mod_pos_bound (size + 2 ^ k - 1) (2 ^ k) Hp) as Hm.
  fold q in Hd.
  split. { rewrite Z.mul_comm. apply Z.mod_mul. lia. }
  split; [lia|].
  intros m Hmm Hle.
  pose proof (Z.div_mod m (2 ^ k) ltac:(lia)) as Hdm. rewrite Hmm in Hdm.
  assert (q < m / 2 ^ k + 1); [|nia].
  unfold q. apply Z.div_lt_upper_bound; [lia|]. nia.
Qed.

(** ** The checksum fold *)

(** The sum of a list of words. *)
Lemma csum_update_fold_carry csum x :
  0 <= csum < 2 ^ 16 -> 0 <= x < 2 ^ 16 ->
  csum_update_fold csum x
  = if csum + x <? 2 ^ 16 then csum + x else csum + x - (2 ^ 16 - 1).
Proof.
  intros Hc Hx.
  destruct (csum_update_fold_step csum x Hc Hx) as [-> _].
  unfold fold_step.
  change 0xFFFF with (Z.ones 16). rewrite Z.land_ones by lia.
  rewrite Z.shiftr_div_pow2 by lia.
  pose proof (Z.div_mod (csum + x) (2 ^ 16) ltac:(lia)).
  pose proof (Z.mod_pos_bound (csum + x) (2 ^ 16) ltac:(lia)).
  destruct (csum + x <? 2 ^ 16) eqn:E; tests.
  - rewrite Z.div_small, Z.mod_small by lia. lia.
  - assert ((csum + x) / 2 ^ 16 = 1) by nia. lia.
Qed.

Lemma csum_update_fold_range csum x :
  0 <= csum < 2 ^ 16 -> 0 <= x < 2 ^ 16 ->
  0 <= csum_update_fold csum x < 2 ^ 16.
Proof.
  intros Hc Hx. rewrite csum_update_fold_carry by done.
  destruct (csum + x <? 2 ^ 16) eqn:E; tests; lia.
Qed.

Lemma csum_update_fold_swap csum x y :
  0 <= csum < 2 ^ 16 -> 0 <= x < 2 ^ 16 -> 0 <= y < 2 ^ 16 ->
  csum_update_fold (csum_update_fold csum x) y
  = csum_update_fold (csum_update_fold csum y) x.
Proof.
  intros Hc Hx Hy.
  pose proof (csum_update_fold_range csum x Hc Hx).
  pose proof (csum_update_fold_range csum y Hc Hy).
  rewrite (csum_update_fold_carry (csum_update_fold csum x) y) by done.
  rewrite (csum_update_fold_carry (csum_update_fold csum y) x) by done.
  rewrite !(csum_update_fold_carry csum) by done.
  destruct (csum + x <? 2 ^ 16) eqn:E1, (csum + y <? 2 ^ 16) eqn:E2; tests;
    repeat match goal with |- context [?a <? ?b] =>
      destruct (a <? b) eqn:?; tests end; lia.
Qed.

Lemma csum_words_le_words p : forall csum,
  csum_words csum p = fold_left csum_update_fold (le_words p) csum.
Proof.
  induction p as [p IH] using (induction_ltof1 _ (@length byte)).
  unfold ltof in IH. intros csum.
  destruct p as [|b0 [|b1 p]]; cbn [csum_words le_words fold_left]; try done.
  rewrite IH by (simpl; lia). cbn [le_val]. do 2 f_equal. lia.
Qed.

Lemma le_words_range p : Forall (fun w => 0 <= w < 2 ^ 16) (le_words p).
Proof.
  induction p as [p IH] using (induction_ltof1 _ (@length byte)).
  unfold ltof in IH.
  destruct p as [|b0 [|b1 p]]; cbn [le_words].
  - constructor.
  - pose proof (u8_range b0). repeat constructor; lia.
  - pose proof (u8_range b0). pose proof (u8_range b1).
    constructor; [lia|]. apply IH. simpl. lia.
Qed.

Lemma fold_csum_range ws : forall csum,
  0 <= csum < 2 ^ 16 -> Forall (fun w => 0 <= w < 2 ^ 16) ws ->
  0 <= fold_left csum_update_fold ws csum < 2 ^ 16.
Proof.
  induction ws as [|w ws IH]; intros csum Hc Hw; cbn [fold_left]; [done|].
  inversion Hw; subst. apply IH; [|done].
  apply csum_update_fold_range; done.
Qed.

Lemma fold_csum_permutation ws1 ws2 :
  Permutation ws1 ws2 -> forall csum,
  0 <= csum < 2 ^ 16 -> Forall (fun w => 0 <= w < 2 ^ 16) ws1 ->
  fold_left csum_update_fold ws1 csum = fold_left csum_update_fold ws2 csum.
Proof.
  induction 1 as [|w ws1 ws2 Hp IH|w1 w2 ws|ws1 ws2 ws3 H1 IH1 H2 IH2];
    intros csum Hc Hw; cbn [fold_left].
  - done.
  - inversion Hw; subst. apply IH; [|done].
    apply csum_update_fold_range; done.
  - inversion Hw as [|? ? ? Hw']; subst. inversion Hw'; subst.
    rewrite csum_update_fold_swap by done. done.
  - rewrite IH1 by done. apply IH2; [done|].
    eapply Permutation_Forall; eauto.
Qed.

(** X3.  The checksum that [csum_bytes] computes depends on the 16-bit
    words of the data but not on their order: two byte strings with the
    same words, in any order, have the same checksum.  (The fold is an
    addition with end-around carry, which is commutative.) *)
Theorem csum_words_order csum p q :
  0 <= csum < 2 ^ 16 ->
  Permutation (le_words p) (le_words q) ->
  csum_words csum p = csum_words csum q.
Proof.
  intros Hc Hp. rewrite !csum_words_le_words.
  apply fold_csum_permutation; [done|done|apply le_words_range].
Qed.

Lemma le_words_app p q :
  Z.even (len p) = true -> le_words (p ++ q) = le_words p ++ le_words q.
Proof.
  unfold len.
  induction p as [p IH] using (induction_ltof1 _ (@length byte)).
  unfold ltof in IH. intros He.
  destruct p as [|b0 [|b1 p]]; cbn [app le_words]; [done|done|].
  f_equal. apply IH; [simpl; lia|].
  cbn [length] in He. rewrite !Nat2Z.inj_succ in He.
  rewrite <- Z.add_1_r, <- Z.add_1_r, <- Z.add_assoc in He.
  change (1 + 1) with (2 * 1) in He. rewrite Z.even_add_mul_2 in He. done.
Qed.

(** X4.  Checksumming a buffer in two calls of [csum_bytes], the second
    one continuing from the result of the first, is checksumming the whole
    buffer in one call, when the first part has an even number of bytes
    (and the whole fits the [unsigned int] counter). *)
Theorem csum_bytes_compose csum mem off n m :
  0 <= n -> 0 <= m -> n + m < 2 ^ 32 -> Z.even n = true ->
  csum_bytes csum mem off (n + m)
  = (c1 <- csum_bytes csum mem off n ;; csum_bytes c1 mem (off + n) m).
Proof.
  intros Hn Hm Hlt He. unfold csum_bytes.
  rewrite load_bytes_split by done.
  destruct (load_bytes mem off n) as [p1|] eqn:E1; cbn [obind]; [|done].
  destruct (2 ^ 32 <=? n) eqn:T1; tests; [lia|]. cbn [obind].
  destruct (load_bytes mem (off + n) m) as [p2|] eqn:E2; cbn [obind];
    [|done].
  destruct (2 ^ 32 <=? m) eqn:T2; tests; [lia|].
  destruct (2 ^ 32 <=? n + m) eqn:T3; tests; [lia|].
  f_equal. rewrite !csum_words_le_words, le_words_app, fold_left_app; [done|].
  apply load_bytes_Done in E1 as (_ & _ & _ & _ & ->). done.
Qed.

(** ** [cmp_regions] *)

(** X5.  [cmp_regions] is a three-way comparison of the start offsets of
    two regions: it is antisymmetric, it returns 0 exactly for regions that
    start at the same offset (whatever their sizes), a negative value
    exactly when the first region starts first, and the order it defines is
    transitive.  It is thus a comparison function as [qsort] requires. *)
Theorem cmp_regions_three_way r1 r2 r3 :
  cmp_regions r1 r2 = - cmp_regions r2 r1 /\
  (cmp_regions r1 r2 = 0 <-> data r1 = data r2) /\
  (cmp_regions r1 r2 < 0 <-> data r1 < data r2) /\
  (cmp_regions r1 r2 <= 0 -> cmp_regions r2 r3 <= 0 ->
   cmp_regions r1 r3 <= 0).
Proof.
  unfold cmp_regions.
  destruct (data r1 <? data r2) eqn:E12, (data r2 <? data r1) eqn:E21,
    (data r2 <? data r3) eqn:E23, (data r3 <? data r2) eqn:E32,
    (data r1 <? data r3) eqn:E13, (data r3 <? data r1) eqn:E31;
    tests; try lia; repeat split; intros; lia.
Qed.

(** ** What the parser accepts *)

Section Accepted.
Context (L : layout).

(** The machine types and the optional header that goes with each. *)
Lemma parse_aouthdr_checked a a' magic :
  (if (magic =? IMAGE_FILE_MACHINE_AMD64 L)
      || (magic =? IMAGE_FILE_MACHINE_AARCH64 L)
   then image_pecoff_parse_64 L a
   else if (magic =? IMAGE_FILE_MACHINE_I386 L)
           || (magic =? IMAGE_FILE_MACHINE_THUMB L)
   then image_pecoff_parse_32 L a
   else reject) = Done (Some a') ->
  exists O m1,
    ((magic = IMAGE_FILE_MACHINE_AMD64 L \/
      magic = IMAGE_FILE_MACHINE_AARCH64 L) /\ O = opt_64 L /\ m1 = 0x02 \/
     (magic = IMAGE_FILE_MACHINE_I386 L \/
      magic = IMAGE_FILE_MACHINE_THUMB L) /\ O = opt_32 L /\ m1 = 0x01) /\
    rd_u8 (buf a) (opthdr a + off_magic O) = Done 0x0b /\
    rd_u8 (buf a) (opthdr a + off_magic O + 1) = Done m1 /\
    pehdr_u32 (buf a) (opthdr a + off_FileAlignment O)
    = Done (file_alignment a') /\
    pehdr_u32 (buf a) (opthdr a + off_SizeOfHeaders O)
    = Done (header_size a') /\
    opthdr_min_size a' = cast_u32 (sizeof_opthdr O - sizeof_DataDirectory O) /\
    data_dir a' = opthdr a + off_DataDirectory O /\
    checksum a' = opthdr a + off_CheckSum O /\
    pehdr a' = pehdr a /\ doshdr a' = doshdr a /\ opthdr a' = opthdr a.
Proof.
  intros H.
  destruct ((magic =? IMAGE_FILE_MACHINE_AMD64 L)
            || (magic =? IMAGE_FILE_MACHINE_AARCH64 L)) eqn:E64.
  - exists (opt_64 L), 0x02.
    split. { left. apply orb_true_iff in E64 as [E|E]; tests; auto. }
    unfold image_pecoff_parse_64, reject in H.
    apply obind_Done in H as (m0 & Em0 & H).
    destruct (m0 =? 0x0b) eqn:T0; cbn [negb] in H; [|discriminate].
    apply obind_Done in H as (m1 & Em1 & H).
    destruct (m1 =? 0x02) eqn:T1; cbn [negb] in H; [|discriminate].
    apply obind_Done in H as (fa & Efa & H).
    apply obind_Done in H as (hs & Ehs & H).
    injection H as <-. tests. subst. repeat split; done.
  - destruct ((magic =? IMAGE_FILE_MACHINE_I386 L)
              || (magic =? IMAGE_FILE_MACHINE_THUMB L)) eqn:E32;
      [|discriminate].
    exists (opt_32 L), 0x01.
    split. { right. apply orb_true_iff in E32 as [E|E]; tests; auto. }
    unfold image_pecoff_parse_32, reject in H.
    apply obind_Done in H as (m0 & Em0 & H).
    destruct (m0 =? 0x0b) eqn:T0; cbn [negb] in H; [|discriminate].
    apply obind_Done in H as (m1 & Em1 & H).
    destruct (m1 =? 0x01) eqn:T1; cbn [negb] in H; [|discriminate].
    apply obind_Done in H as (fa & Efa & H).
    apply obind_Done in H as (hs & Ehs & H).
    injection H as <-. tests. subst. repeat split; done.
Qed.

(** What [image_pecoff_parse] has checked, and what it has stored in the
    image, when it returns 0. *)
Lemma image_pecoff_parse_checked img img' :
  image_pecoff_parse L img = Done (Some img') ->
  sizeof_doshdr L <= image_size img /\
  rd_u8 (buf img) (off_e_magic L) = Done 0x4d /\
  rd_u8 (buf img) (off_e_magic L + 1) = Done 0x5a /\
  pehdr_u32 (buf img) (off_e_lfanew L) = Done (pehdr img') /\
  pehdr img' < image_size img /\
  pehdr img' + sizeof_pehdr L <= image_size img /\
  load_bytes (buf img) (pehdr img' + off_nt_signature L) 4 = Done nt_sig /\
  doshdr img' = 0 /\
  opthdr img' = pehdr img' + sizeof_pehdr L /\
  (exists magic O m1,
     pehdr_u16 (buf img) (pehdr img' + off_f_magic L) = Done magic /\
     ((magic = IMAGE_FILE_MACHINE_AMD64 L \/
       magic = IMAGE_FILE_MACHINE_AARCH64 L) /\ O = opt_64 L /\ m1 = 0x02 \/
      (magic = IMAGE_FILE_MACHINE_I386 L \/
       magic = IMAGE_FILE_MACHINE_THUMB L) /\ O = opt_32 L /\ m1 = 0x01) /\
     rd_u8 (buf img) (opthdr img' + off_magic O) = Done 0x0b /\
     rd_u8 (buf img) (opthdr img' + off_magic O + 1) = Done m1 /\
     pehdr_u32 (buf img) (opthdr img' + off_FileAlignment O)
     = Done (file_alignment img') /\
     pehdr_u32 (buf img) (opthdr img' + off_SizeOfHeaders O)
     = Done (header_size img') /\
     opthdr_min_size img'
     = cast_u32 (sizeof_opthdr O - sizeof_DataDirectory O) /\
     data_dir img' = opthdr img' + off_DataDirectory O /\
     checksum img' = opthdr img' + off_CheckSum O) /\
  pehdr_u16 (buf img) (pehdr img' + off_f_opthdr L) = Done (opthdr_size img') /\
  cast_u32 (opthdr_min_size img'
            + cast_int (sizeof_data_dir_entry * (DATA_DIR_CERT_TABLE + 1)))
  <= opthdr_size img' /\
  sizeof_doshdr L + sizeof_pehdr L + opthdr_size img' <= image_size img /\
  data_dir_sigtable img'
  = data_dir img' + sizeof_data_dir_entry * DATA_DIR_CERT_TABLE /\
  pehdr_u16 (buf img) (pehdr img' + off_f_nscns L) = Done (sections img') /\
  scnhdr img' = opthdr img' + opthdr_size img'.
Proof.
  unfold image_pecoff_parse, reject. intros H.
  destruct (image_size img <? sizeof_doshdr L) eqn:T0; [discriminate|].
  rewrite Z.add_0_l in H.
  apply obind_Done in H as (e0 & Ee0 & H).
  destruct (e0 =? 0x4d) eqn:T1; cbn [negb] in H; [|discriminate].
  apply obind_Done in H as (e1 & Ee1 & H).
  destruct (e1 =? 0x5a) eqn:T2; cbn [negb] in H; [|discriminate].
  rewrite Z.add_0_l in H.
  apply obind_Done in H as (addr & Eaddr & H).
  destruct (image_size img <=? addr) eqn:T3; [discriminate|].
  destruct (image_size img <? addr + sizeof_pehdr L) eqn:T4; [discriminate|].
  apply obind_Done in H as (sig & Esig & H).
  destruct (bool_decide (sig = nt_sig)) eqn:T5; cbn [negb] in H;
    [|discriminate].
  apply bool_decide_eq_true_1 in T5. subst sig.
  apply obind_Done in H as (magic & Emagic & H).
  apply obind_Done in H as (rc & Erc & H).
  destruct rc as [i1|]; [|discriminate].
  apply parse_aouthdr_checked in Erc
    as (O & m1 & Hm & Em0 & Em1 & Efa & Ehs & Hmin & Hdd & Hck
        & Hpe & Hdos & Hopt).
  cbn [buf opthdr pehdr doshdr set_headers] in *.
  apply obind_Done in H as (osz & Eosz & H).
  match type of H with (if ?c then _ else _) = _ =>
    destruct c eqn:T6; [discriminate|] end.
  match type of H with (if ?c then _ else _) = _ =>
    destruct c eqn:T7; [discriminate|] end.
  apply obind_Done in H as (dsize & Eds & H).
  apply obind_Done in H as (ct & Ect & H).
  apply obind_Done in H as (valid & Ev & H).
  apply obind_Done in H as (i2 & Ei2 & H).
  apply obind_Done in H as (nscns & Ens & H).
  injection H as <-.
  assert (Hi2 : pehdr i2 = pehdr i1 /\ doshdr i2 = doshdr i1 /\
                opthdr i2 = opthdr i1 /\ data_dir i2 = data_dir i1 /\
                checksum i2 = checksum i1 /\
                opthdr_min_size i2 = opthdr_min_size i1 /\
                file_alignment i2 = file_alignment i1 /\
                header_size i2 = header_size i1).
  { destruct valid.
    - apply obind_Done in Ei2 as (sz & _ & Ei2).
      apply obind_Done in Ei2 as (copy & _ & Ei2).
      injection Ei2 as <-. done.
    - injection Ei2 as <-. done. }
  destruct Hi2 as (P1 & P2 & P3 & P4 & P5 & P6 & P7 & P8).
  cbn [pehdr doshdr opthdr data_dir checksum opthdr_min_size file_alignment
       header_size data_dir_sigtable sections scnhdr opthdr_size
       set_tables].
  rewrite ?P1, ?P2, ?P3, ?P4, ?P5, ?P6, ?P7, ?P8.
  rewrite ?Hpe, ?Hdos, ?Hopt. tests. subst e0 e1.
  split; [lia|]. split; [done|]. split; [done|]. split; [done|].
  split; [lia|]. split; [lia|]. split; [done|]. split; [done|].
  split; [done|].
  split. { exists magic, O, m1. rewrite Hmin, Hdd, Hck. done. }
  split; [done|]. split; [lia|]. split; [lia|]. done.
Qed.

Context (qsort : list region -> list region).

Lemma image_find_regions_frame img img' :
  image_find_regions L qsort img = Done img' ->
  exists rs ds, img' = set_regions img rs ds.
Proof.
  unfold image_find_regions. intros H. bind_inv H.
  destruct (last _) as [r|]; [|discriminate]. injection H as <-. eauto.
Qed.

(** X6.  What has been checked of an image that [image_load] returns:
    its buffer holds a DOS header that starts with "MZ"; [e_lfanew] points
    to a PE header that lies within the buffer and starts with "PE\0\0";
    the machine is one of the four known ones and the optional header that
    follows the PE header has the magic of that machine's format (0x0b
    0x02 for the 64-bit ones, 0x0b 0x01 for the 32-bit ones); the size of
    the optional header given in the PE header leaves room for the first
    five entries of the data directory, and the buffer is at least as long
    as the DOS header, the PE header and an optional header of that size.
    The pointers of the image are where these headers put them. *)
Theorem loaded_image_checked fuel file img :
  image_load L qsort fuel file = Loaded img ->
  sizeof_doshdr L <= image_size img /\
  rd_u8 (buf img) (off_e_magic L) = Done 0x4d /\
  rd_u8 (buf img) (off_e_magic L + 1) = Done 0x5a /\
  pehdr_u32 (buf img) (off_e_lfanew L) = Done (pehdr img) /\
  pehdr img < image_size img /\
  pehdr img + sizeof_pehdr L <= image_size img /\
  load_bytes (buf img) (pehdr img + off_nt_signature L) 4 = Done nt_sig /\
  doshdr img = 0 /\
  opthdr img = pehdr img + sizeof_pehdr L /\
  (exists magic O m1,
     pehdr_u16 (buf img) (pehdr img + off_f_magic L) = Done magic /\
     ((magic = IMAGE_FILE_MACHINE_AMD64 L \/
       magic = IMAGE_FILE_MACHINE_AARCH64 L) /\ O = opt_64 L /\ m1 = 0x02 \/
      (magic = IMAGE_FILE_MACHINE_I386 L \/
       magic = IMAGE_FILE_MACHINE_THUMB L) /\ O = opt_32 L /\ m1 = 0x01) /\
     rd_u8 (buf img) (opthdr img + off_magic O) = Done 0x0b /\
     rd_u8 (buf img) (opthdr img + off_magic O + 1) = Done m1 /\
     pehdr_u32 (buf img) (opthdr img + off_FileAlignment O)
     = Done (file_alignment img) /\
     pehdr_u32 (buf img) (opthdr img + off_SizeOfHeaders O)
     = Done (header_size img) /\
     opthdr_min_size img
     = cast_u32 (sizeof_opthdr O - sizeof_DataDirectory O) /\
     data_dir img = opthdr img + off_DataDirectory O /\
     checksum img = opthdr img + off_CheckSum O) /\
  pehdr_u16 (buf img) (pehdr img + off_f_opthdr L) = Done (opthdr_size img) /\
  cast_u32 (opthdr_min_size img
            + cast_int (sizeof_data_dir_entry * (DATA_DIR_CERT_TABLE + 1)))
  <= opthdr_size img /\
  sizeof_doshdr L + sizeof_pehdr L + opthdr_size img <= image_size img /\
  data_dir_sigtable img
  = data_dir img + sizeof_data_dir_entry * DATA_DIR_CERT_TABLE /\
  pehdr_u16 (buf img) (pehdr img + off_f_nscns L) = Done (sections img) /\
  scnhdr img = opthdr img + opthdr_size img.
Proof.
  intros H. unfold image_load in H.
  apply reparse_Loaded in H as (i1 & i2 & Hp & Hf & _).
  pose proof (image_pecoff_parse_Done _ _ _ Hp) as (Hb & Hs & _).
  apply image_pecoff_parse_checked in Hp.
  apply image_find_regions_frame in Hf as (rs & ds & ->).
  cbn [buf image_size pehdr doshdr opthdr file_alignment header_size
       opthdr_min_size data_dir checksum opthdr_size data_dir_sigtable
       sections scnhdr set_regions].
  rewrite Hb, Hs. exact Hp.
Qed.


End Accepted.

(** ** What the loader refuses at once *)

Lemma rd_u8_in_range mem off :
  0 <= off < len mem -> exists v, rd_u8 mem off = Done v.
Proof.
  intros H. unfold rd_u8. rewrite load_bytes_in_range by lia.
  cbn [obind]. eauto.
Qed.

Lemma rd_u16_in_range mem off :
  0 <= off -> off + 2 <= len mem -> exists v, rd_u16 mem off = Done v.
Proof.
  intros H1 H2. unfold rd_u16. rewrite load_bytes_in_range by lia.
  cbn [obind]. eauto.
Qed.

Lemma rd_u32_in_range mem off :
  0 <= off -> off + 4 <= len mem ->
  exists v, rd_u32 mem off = Done v /\ 0 <= v < 2 ^ 32.
Proof.
  intros H1 H2. unfold rd_u32.
  destruct (load_bytes mem off 4) as [bs|] eqn:E.
  - cbn [obind]. eexists. split; [done|].
    apply load_bytes_Done in E as (_ & _ & _ & _ & E).
    pose proof (le_val_range bs) as Hr. rewrite E in Hr.
    change (256 ^ 4) with (2 ^ 32) in Hr. done.
  - rewrite load_bytes_in_range in E by lia. discriminate.
Qed.

(** X7.  [image_load] returns [NULL], without reading outside the buffer,
    for every file that is shorter than the 128 bytes of a DOS header
    (the empty file is one), that does not start with "MZ", whose
    [e_lfanew] leaves less than the 24 bytes of a PE header before the end
    of the file, whose PE header does not start with "PE\0\0", or whose
    machine type is none of AMD64, AARCH64, I386 and THUMB. *)
Theorem load_refuses_early qsort fuel file :
  len file < 128 \/
  rd_u8 file 0 <> Done 0x4d \/ rd_u8 file 1 <> Done 0x5a \/
  (exists addr, rd_u32 file 60 = Done addr /\
     (len file < addr + 24 \/
      load_bytes file addr 4 <> Done nt_sig \/
      exists m, rd_u16 file (addr + 4) = Done m /\
                m <> 0x8664 /\ m <> 0xaa64 /\ m <> 0x14c /\ m <> 0x1c2)) ->
  image_load pe_layout qsort (S fuel) file = LoadFailed.
Proof.
  intros H. unfold image_load. cbn [reparse].
  assert (Hp : image_pecoff_parse pe_layout (image_of_file file) = Done None);
    [|rewrite Hp; done].
  unfold image_pecoff_parse, reject.
  cbn [image_size buf image_of_file sizeof_doshdr off_e_magic off_e_lfanew
       sizeof_pehdr off_nt_signature off_f_magic pe_layout
       IMAGE_FILE_MACHINE_AMD64 IMAGE_FILE_MACHINE_AARCH64
       IMAGE_FILE_MACHINE_I386 IMAGE_FILE_MACHINE_THUMB].
  rewrite ?Z.add_0_l, ?Z.add_0_r.
  destruct (len file <? 128) eqn:T0; [done|]. tests.
  destruct H as [H|H]; [lia|].
  destruct (rd_u8_in_range file 0) as [e0 E0]; [lia|].
  rewrite E0 in *. cbn [obind].
  destruct (e0 =? 77) eqn:T1; cbn [negb]; [|done]. tests. subst e0.
  destruct H as [H|H]; [done|].
  destruct (rd_u8_in_range file 1) as [e1 E1]; [lia|].
  rewrite E1 in *. cbn [obind].
  destruct (e1 =? 90) eqn:T2; cbn [negb]; [|done]. tests. subst e1.
  destruct H as [H|H]; [done|].
  destruct H as (addr & Ea & H).
  rewrite pehdr_u32_rd_u32, Ea. cbn [obind].
  destruct (rd_u32_in_range file 60) as (a' & Ea' & Hr); [lia|lia|].
  rewrite Ea in Ea'. injection Ea' as <-.
  destruct (len file <=? addr) eqn:T3; [done|].
  destruct (len file <? addr + 24) eqn:T4; [done|]. tests.
  destruct H as [H|H]; [lia|].
  rewrite (Z.add_0_r addr).
  rewrite load_bytes_in_range in * by lia. cbn [obind].
  destruct (bool_decide (_ = nt_sig)) eqn:T5; cbn [negb]; [|done].
  apply bool_decide_eq_true_1 in T5. rewrite T5 in H.
  destruct H as [H|H]; [done|].
  destruct H as (m & Em & M1 & M2 & M3 & M4).
  rewrite pehdr_u16_rd_u16, Em. cbn [obind].
  destruct (m =? 34404) eqn:N1; tests; [done|].
  destruct (m =? 43620) eqn:N2; tests; [done|].
  destruct (m =? 332) eqn:N3; tests; [done|].
  destruct (m =? 450) eqn:N4; tests; [done|].
  done.
Qed.

(** ** The buffer of a loaded image *)

Section Loaded.
Context (L : layout) (qsort : list region -> list region).

Lemma reparse_buffer fuel : forall img res,
  reparse L qsort fuel img = Loaded res ->
  image_size img = len (buf img) ->
  exists n, buf res = buf img ++ replicate n x00 /\
            image_size res = len (buf res) /\
            (n = 0%nat \/ image_size res mod 8 = 0).
Proof.
  induction fuel as [|fuel IH]; intros img res H Hs; [discriminate|].
  cbn [reparse] in H.
  destruct (image_pecoff_parse L img) as [[i1|]|] eqn:Ep; try discriminate.
  destruct (image_find_regions L qsort i1) as [i2|] eqn:Ef; try discriminate.
  pose proof (image_pecoff_parse_Done _ _ _ Ep) as (Hb1 & Hs1 & _).
  pose proof (image_find_regions_Done _ _ _ _ Ef)
    as (Hb2 & Hs2 & _ & _ & _ & Hdr & Hd8).
  destruct (image_size i2 <? data_size i2) eqn:El; tests.
  - destruct (memset _ _ _ _) as [buf'|] eqn:Em; [|discriminate].
    apply pad_buffer in Em; [|congruence|lia].
    apply IH in H as (n & Hb & Hz & Hn).
    2:{ cbn [image_size buf set_buf]. rewrite Em, len_app, len_replicate.
        rewrite Hb2, Hb1, <- Hs, <- Hs1, <- Hs2. lia. }
    cbn [image_size buf set_buf] in Hb.
    exists (Z.to_nat (data_size i2 - image_size i2) + n)%nat.
    split. { rewrite Hb, Em, Hb2, Hb1, <- app_assoc, <- replicate_add. done. }
    split; [done|]. right.
    destruct Hn as [->|Hn]; [|done].
    rewrite Hz, Hb, app_nil_r, Em, len_app, len_replicate.
    rewrite Hb2, Hb1, <- Hs, <- Hs1, <- Hs2.
    replace (image_size i2 + Z.of_nat (Z.to_nat (data_size i2 - image_size i2)))
      with (data_size i2) by lia.
    done.
  - injection H as <-. exists 0%nat.
    rewrite Hb2, Hb1, Hs2, Hs1, app_nil_r. auto.
Qed.

(** X8.  [image_load] keeps the bytes of the file as they are: the buffer
    of the image it returns is the file followed by zero bytes (none when
    no padding was needed, and otherwise as many as make the length a
    multiple of 8), [image->size] is the length of that buffer,
    [data_size] is a multiple of 8 within it, and [sigsize] is the length
    of [sigbuf] (0 when there is none). *)
Theorem load_appends_zeros fuel file img :
  image_load L qsort fuel file = Loaded img ->
  exists n,
    buf img = file ++ replicate n x00 /\
    image_size img = len file + Z.of_nat n /\
    (n = 0%nat \/ image_size img mod 8 = 0) /\
    data_size img <= image_size img /\
    data_size img mod 8 = 0 /\
    sig_consistent img.
Proof.
  intros H.
  pose proof (loaded_sig_consistent _ _ _ _ _ H) as Hc.
  unfold image_load in H.
  pose proof (reparse_Loaded _ _ _ _ _ H) as (i1 & i2 & _ & Hf & Hd).
  apply find_regions_data_size in Hf.
  apply reparse_buffer in H as (n & Hb & Hs & Hn); [|done].
  cbn [buf image_of_file] in Hb.
  exists n. rewrite Hs at 1. rewrite Hb, len_app, len_replicate. done.
Qed.

(** More fuel does not change the result of a load that has returned. *)
Lemma reparse_more_fuel fuel : forall img r k,
  reparse L qsort fuel img = r -> r <> OutOfFuel ->
  reparse L qsort (fuel + k) img = r.
Proof.
  induction fuel as [|fuel IH]; intros img r k H Hr;
    [simpl in H; congruence|].
  cbn [reparse Nat.add] in *.
  destruct (image_pecoff_parse L img) as [[i1|]|]; try done.
  destruct (image_find_regions L qsort i1) as [i2|]; try done.
  destruct (image_size i2 <? data_size i2); [|done].
  destruct (memset _ _ _ _) as [buf'|]; [|done].
  apply IH; done.
Qed.

(** X9.  When the first pass over a file stays in range (no region of
    negative size, the sizes adding up to less than 2^31, a security
    directory size below 2^31, [data_size] below 2^31 - 8), [image_load]
    parses the file at most twice: once as it is and, if it was shorter
    than [data_size], once more after the padding. *)
Theorem load_in_two_passes file i1 i2 fuel :
  is_qsort qsort ->
  image_pecoff_parse L (image_of_file file) = Done (Some i1) ->
  image_find_regions L qsort i1 = Done i2 ->
  in_range i2 ->
  (2 <= fuel)%nat ->
  image_load L qsort 2 file <> OutOfFuel /\
  image_load L qsort fuel file = image_load L qsort 2 file.
Proof.
  intros Hq Hp Hf Hr Hfuel.
  pose proof (one_reparse L qsort file i1 i2 Hq Hp Hf Hr) as Hne.
  split; [done|].
  replace fuel with (2 + (fuel - 2))%nat by lia.
  apply reparse_more_fuel; done.
Qed.

End Loaded.

(** ** The digest input *)

Lemma hash_regions_app mem rs1 rs2 :
  hash_regions mem (rs1 ++ rs2)
  = (h1 <- hash_regions mem rs1 ;; h2 <- hash_regions mem rs2 ;;
     Done (h1 ++ h2)).
Proof.
  induction rs1 as [|r rs1 IH]; cbn [app hash_regions obind].
  - destruct (hash_regions mem rs2); done.
  - destruct (load_bytes mem (data r) _) as [bs|]; cbn [obind]; [|done].
    rewrite IH.
    destruct (hash_regions mem rs1) as [h1|]; cbn [obind]; [|done].
    destruct (hash_regions mem rs2) as [h2|]; cbn [obind]; [|done].
    rewrite app_assoc. done.
Qed.

Lemma load_bytes_slice mem a b :
  0 <= a <= b -> b <= len mem -> load_bytes mem a (b - a) = Done (slice mem a b).
Proof. intros H1 H2. apply load_bytes_in_range; lia. Qed.

(** Regions that lie back to back are hashed as one range. *)
Lemma hash_regions_chain mem a rs b :
  chain a rs b -> 0 <= a -> b <= len mem -> len mem < 2 ^ 64 ->
  hash_regions mem rs = Done (slice mem a b).
Proof.
  induction 1 as [a|a r rs b Hd Hs Hc IH]; intros Ha Hb Hl.
  - cbn [hash_regions]. unfold slice.
    rewrite Z.sub_diag. done.
  - pose proof (chain_bounds _ _ _ Hc) as (Hab & _ & _).
    cbn [hash_regions]. rewrite Hd, cast_size_t_id by lia.
    rewrite IH by lia.
    replace (size r) with ((a + size r) - a) at 1 by lia.
    rewrite load_bytes_slice by lia. cbn [obind]. f_equal.
    unfold slice.
    replace (Z.to_nat (b - a))
      with (Z.to_nat (a + size r - a) + Z.to_nat (b - (a + size r)))%nat
      by lia.
    rewrite <- take_take_drop, drop_drop. do 3 f_equal. lia.
Qed.

(** X10.  When the regions of an image tile its buffer up to an offset
    [e] (the region up to the checksum field, the region from its end to
    the security directory entry, and the others back to back from the end
    of that entry up to [e]), [image_hash_sha256] reads within the buffer
    and hashes the first [e] bytes of the buffer with the 4 bytes of the
    checksum field and the 8 bytes of the security directory entry cut
    out. *)
Theorem hash_of_tiled_image SHA256 img e :
  tiled img (checksum_regions img) e ->
  e <= len (buf img) -> len (buf img) < 2 ^ 64 ->
  image_hash_sha256 SHA256 img
  = Done (SHA256 (slice (buf img) 0 (checksum img)
                  ++ slice (buf img) (checksum img + 4)
                       (data_dir_sigtable img)
                  ++ slice (buf img) (data_dir_sigtable img + 8) e)).
Proof.
  intros (r0 & r1 & rest & Hrs & C0 & C1 & C2) He Hl.
  pose proof (chain_bounds _ _ _ C0) as (B0 & _ & _).
  pose proof (chain_bounds _ _ _ C1) as (B1 & _ & _).
  pose proof (chain_bounds _ _ _ C2) as (B2 & _ & _).
  unfold image_hash_sha256. rewrite Hrs.
  change (r0 :: r1 :: rest) with ([r0] ++ [r1] ++ rest).
  rewrite !hash_regions_app.
  rewrite (hash_regions_chain _ _ _ _ C0) by lia.
  rewrite (hash_regions_chain _ _ _ _ C1) by lia.
  rewrite (hash_regions_chain _ _ _ _ C2) by lia.
  done.
Qed.

Lemma tiled_clear_of_fields img e :
  tiled img (checksum_regions img) e -> e < 2 ^ 64 -> clear_of_fields img.
Proof.
  intros (r0 & r1 & rest & Hrs & C0 & C1 & C2) He.
  pose proof (chain_bounds _ _ _ C0) as (B0 & F0 & _).
  pose proof (chain_bounds _ _ _ C1) as (B1 & F1 & _).
  pose proof (chain_bounds _ _ _ C2) as (B2 & F2 & _).
  unfold clear_of_fields. rewrite Hrs.
  change (r0 :: r1 :: rest) with ([r0] ++ [r1] ++ rest).
  assert (Hpos : forall a rs b, chain a rs b -> Forall (fun r => 0 < size r) rs).
  { induction 1; constructor; done. }
  pose proof (Hpos _ _ _ C0) as P0. pose proof (Hpos _ _ _ C1) as P1.
  pose proof (Hpos _ _ _ C2) as P2.
  rewrite !Forall_app. repeat split.
  - rewrite Forall_forall in F0, P0 |- *. intros r Hr.
    specialize (F0 r Hr). specialize (P0 r Hr). cbn in F0.
    rewrite cast_size_t_id by lia. lia.
  - rewrite Forall_forall in F1, P1 |- *. intros r Hr.
    specialize (F1 r Hr). specialize (P1 r Hr). cbn in F1.
    rewrite cast_size_t_id by lia. lia.
  - rewrite Forall_forall in F2, P2 |- *. intros r Hr.
    specialize (F2 r Hr). specialize (P2 r Hr). cbn in F2.
    rewrite cast_size_t_id by lia. lia.
Qed.

(** The editor leaves everything but [sigbuf], [sigsize] and
    [cert_table] alone. *)
Lemma run_edit_image img e rc img' :
  run_edit img e = Done (rc, img') ->
  buf img' = buf img /\ image_size img' = image_size img /\
  data_size img' = data_size img /\ checksum img' = checksum img /\
  data_dir_sigtable img' = data_dir_sigtable img /\
  checksum_regions img' = checksum_regions img.
Proof.
  destruct e as [sig n|signum]; cbn [run_edit]; intros H.
  - unfold image_add_signature in H. repeat bind_inv H.
    injection H as <- <-. done.
  - unfold image_remove_signature in H. bind_inv H.
    destruct v as [[b s]|]; [|injection H as <- <-; done].
    destruct (sigbuf img) as [mem|]; [|discriminate].
    destruct (_ <=? _).
    + destruct (_ =? 0); injection H as <- <-; done.
    + repeat bind_inv H. injection H as <- <-. done.
Qed.

Lemma run_edits_image img es img' :
  run_edits img es = Done img' ->
  buf img' = buf img /\ image_size img' = image_size img /\
  data_size img' = data_size img /\ checksum img' = checksum img /\
  data_dir_sigtable img' = data_dir_sigtable img /\
  checksum_regions img' = checksum_regions img.
Proof.
  revert img. induction es as [|e es IH]; intros img H.
  - injection H as <-. done.
  - cbn [run_edits] in H. bind_inv H. destruct v as [rc img1].
    apply run_edit_image in E as (? & ? & ? & ? & ? & ?).
    cbn [snd] in H. apply IH in H as (? & ? & ? & ? & ? & ?).
    repeat split; congruence.
Qed.

(** The three stores of [image_write]. *)
Lemma image_write_stores img rc img' out :
  image_write img = Done (rc, img', out) ->
  exists v1 v2 v3 buf1 buf2,
    wr_u32 (buf img) (data_dir_sigtable img) v1 = Done buf1 /\
    wr_u32 buf1 (data_dir_sigtable img + 4) v2 = Done buf2 /\
    wr_u32 buf2 (checksum img) v3 = Done (buf img') /\
    image_size img' = image_size img /\ data_size img' = data_size img /\
    checksum img' = checksum img /\
    data_dir_sigtable img' = data_dir_sigtable img /\
    checksum_regions img' = checksum_regions img /\
    sigbuf img' = sigbuf img /\ sigsize img' = sigsize img /\
    cert_table_size img' = cert_table_size img.
Proof.
  intros H. apply image_write_Done in H
    as (buf1 & buf2 & image_bytes & E1 & E2 & E3 & _).
  apply update_checksum_Done in E3
    as (p1 & p2 & p3 & buf' & _ & _ & _ & _ & _ & W & ->).
  unfold off_dd_addr, off_dd_size in *. rewrite Z.add_0_r in E1.
  cbn [buf checksum set_buf] in W.
  eexists _, _, _, buf1, buf2. repeat split; eauto.
Qed.

Lemma hash_regions_stored mem off bs mem' rs :
  store_bytes mem off bs = Done mem' ->
  Forall (fun r => data r + cast_size_t (size r) <= off \/
                   off + len bs <= data r) rs ->
  hash_regions mem' rs = hash_regions mem rs.
Proof.
  intros Hs. induction 1 as [|r rs Hr _ IH]; [done|].
  cbn [hash_regions].
  rewrite (load_store_other _ _ _ _ _ _ Hs) by lia.
  rewrite IH. done.
Qed.

(** X11.  Neither the editor nor the writer changes the digest: when no
    region holds a byte of the checksum field or of the security directory
    entry (as when the regions tile the file), [image_hash_sha256] returns
    after [image_add_signature] and [image_remove_signature] calls and
    after [image_write] what it returned on the image as loaded. *)
Theorem hash_kept_by_editor_and_writer SHA256 img es img1 rc img2 out :
  clear_of_fields img ->
  run_edits img es = Done img1 ->
  image_write img1 = Done (rc, img2, out) ->
  image_hash_sha256 SHA256 img1 = image_hash_sha256 SHA256 img /\
  image_hash_sha256 SHA256 img2 = image_hash_sha256 SHA256 img.
Proof.
  intros Hc He Hw.
  apply run_edits_image in He as (Hb & _ & _ & Hk & Hd & Hr).
  apply image_write_stores in Hw
    as (v1 & v2 & v3 & b1 & b2 & E1 & E2 & E3 & _ & _ & _ & _ & Hr2 & _).
  unfold image_hash_sha256. rewrite Hr2, Hr, Hb. split; [done|].
  unfold wr_u32 in *. rewrite Hb, Hk, Hd in *.
  unfold clear_of_fields in Hc.
  rewrite (hash_regions_stored _ _ _ _ _ E3).
  2:{ eapply Forall_impl; [exact Hc|]. intros r [? ?].
      rewrite len_le_bytes. lia. }
  rewrite (hash_regions_stored _ _ _ _ _ E2).
  2:{ eapply Forall_impl; [exact Hc|]. intros r [? ?].
      rewrite len_le_bytes. lia. }
  rewrite (hash_regions_stored _ _ _ _ _ E1).
  2:{ eapply Forall_impl; [exact Hc|]. intros r [? ?].
      rewrite len_le_bytes. lia. }
  done.
Qed.

Lemma store_bytes_lookup_other mem off bs mem' (i : nat) :
  store_bytes mem off bs = Done mem' ->
  ~ (off <= Z.of_nat i < off + len bs) ->
  mem' !! i = mem !! i.
Proof.
  intros H Hi. apply store_bytes_Done in H as (H1 & H2 & -> & _).
  unfold len in *.
  destruct (decide (Z.of_nat i < off)) as [Hlt|Hge].
  - rewrite lookup_app_l by (rewrite length_take; lia).
    apply lookup_take_lt. lia.
  - rewrite lookup_app_r by (rewrite length_take; lia).
    rewrite lookup_app_r by (rewrite length_take; lia).
    rewrite lookup_drop, length_take. f_equal. lia.
Qed.

(** X12.  [image_write] changes no byte of the buffer other than the 4
    bytes of the checksum field and the 8 bytes of the security directory
    entry, keeps the length of the buffer, and leaves the regions,
    [data_size] and the signature buffer as they were. *)
Theorem write_changes_two_fields img rc img' out :
  image_write img = Done (rc, img', out) ->
  length (buf img') = length (buf img) /\
  (forall i : nat,
     ~ (checksum img <= Z.of_nat i < checksum img + 4) ->
     ~ (data_dir_sigtable img <= Z.of_nat i < data_dir_sigtable img + 8) ->
     buf img' !! i = buf img !! i) /\
  checksum_regions img' = checksum_regions img /\
  data_size img' = data_size img /\ image_size img' = image_size img /\
  sigbuf img' = sigbuf img /\ sigsize img' = sigsize img.
Proof.
  intros Hw.
  apply image_write_stores in Hw
    as (v1 & v2 & v3 & b1 & b2 & E1 & E2 & E3
        & Hs & Hd & _ & _ & Hr & Hsb & Hsz & _).
  unfold wr_u32 in *.
  split.
  { pose proof (store_bytes_len _ _ _ _ E1).
    pose proof (store_bytes_len _ _ _ _ E2).
    pose proof (store_bytes_len _ _ _ _ E3). unfold len in *. lia. }
  split; [|done].
  intros i Hk Hdd.
  rewrite (store_bytes_lookup_other _ _ _ _ _ E3)
    by (rewrite len_le_bytes; lia).
  rewrite (store_bytes_lookup_other _ _ _ _ _ E2)
    by (rewrite len_le_bytes; lia).
  rewrite (store_bytes_lookup_other _ _ _ _ _ E1)
    by (rewrite len_le_bytes; lia).
  done.
Qed.

(** ** The certificate table: removal and detached output *)

Lemma cert_table_of_nil_inv sigs : cert_table_of sigs = [] -> sigs = [].
Proof.
  destruct sigs as [|s sigs]; [done|].
  rewrite cert_table_of_cons. intros H. apply app_eq_nil in H as [H _].
  apply (f_equal len) in H. rewrite len_win_certificate in H.
  pose proof (len_nonneg s). pose proof (align8_bounds (len s + 8)).
  change (len []) with 0 in H. lia.
Qed.

Lemma cert_table_split sigs i sig :
  sigs !! i = Some sig ->
  cert_table_of sigs
  = cert_table_of (take i sigs) ++ win_certificate sig
      ++ cert_table_of (drop (S i) sigs).
Proof.
  intros Hi. rewrite <- (take_drop_middle sigs i sig Hi) at 1.
  rewrite cert_table_of_app, cert_table_of_cons. done.
Qed.

(** X13.  On a table that holds the payloads [sigs],
    [image_remove_signature] of an index [i] below their number returns 0
    and leaves the table that holds the other payloads, in their order:
    the entries after the one removed move down, [sigsize] shrinks by the
    padded size of the entry, and [sigbuf] becomes null when no entry is
    left.  The image buffer and [data_size] are not touched. *)
Theorem remove_signature_deletes img sigs i sig :
  sigbuf img = Some (cert_table_of sigs) ->
  sigsize img = len (cert_table_of sigs) ->
  Forall small_sig sigs ->
  len (cert_table_of sigs) < 2 ^ 63 ->
  sigs !! i = Some sig ->
  exists img',
    image_remove_signature img (Z.of_nat i) = Done (0, img') /\
    sig_bytes img' = cert_table_of (delete i sigs) /\
    sigsize img' = len (cert_table_of (delete i sigs)) /\
    (sigbuf img' = None <-> delete i sigs = []) /\
    buf img' = buf img /\ data_size img' = data_size img.
Proof.
  intros Hb Hz Hall Hlen Hi.
  destruct (get_signature_table img sigs Hb Hz Hall Hlen) as [Hget _].
  destruct (Hget i sig Hi) as [Hg _].
  assert (Hs : small_sig sig).
  { rewrite Forall_forall in Hall. apply Hall.
    eapply list_elem_of_lookup_2; eauto. }
  unfold small_sig in Hs.
  pose proof (cert_table_split sigs i sig Hi) as Hsplit.
  set (pre := cert_table_of (take i sigs)) in *.
  set (post := cert_table_of (drop (S i) sigs)) in *.
  assert (Hdel : cert_table_of (delete i sigs) = pre ++ post).
  { rewrite delete_take_drop, cert_table_of_app. done. }
  pose proof (len_nonneg pre) as Hp0. pose proof (len_nonneg post) as Hq0.
  pose proof (len_nonneg sig) as Hs0.
  pose proof (align8_bounds (len sig + 8)) as Ha.
  assert (Hl : len (cert_table_of sigs)
               = len pre + align8 (len sig + 8) + len post).
  { rewrite Hsplit, !len_app, len_win_certificate. lia. }
  assert (Htake : forall rest,
            take (Z.to_nat (len pre + len post)) ((pre ++ post) ++ rest)
            = pre ++ post).
  { intros rest. unfold len.
    rewrite <- Nat2Z.inj_add, Nat2Z.id, <- length_app.
    apply take_app_length. }
  clearbody pre post.
  unfold image_remove_signature. rewrite Hg. cbv [obind]. rewrite Hb.
  change sizeof_cert_table_header with 8.
  replace (len pre + 8 - 8) with (len pre) by lia.
  rewrite (cast_size_t_id (len sig + 8)) by lia.
  rewrite cast_int_id, align_up_align8 by lia.
  rewrite (cast_size_t_id (align8 _)) by lia.
  rewrite Hz, Hl, Z.add_0_l.
  rewrite !cast_ptrdiff_id by lia.
  replace (len pre + align8 (len sig + 8) + len post - align8 (len sig + 8))
    with (len pre + len post) by lia.
  rewrite (cast_size_t_id (len pre + len post)) by lia.
  assert (Hre : forall m, take (Z.to_nat (len pre + len post)) m = pre ++ post ->
            len pre + len post <> 0 ->
            exists img',
              Done (0, set_sig img
                         (talloc_realloc_sig m (len pre + len post))
                         (len pre + len post)) = Done (0, img') /\
              sig_bytes img' = cert_table_of (delete i sigs) /\
              sigsize img' = len (cert_table_of (delete i sigs)) /\
              (sigbuf img' = None <-> delete i sigs = []) /\
              buf img' = buf img /\ data_size img' = data_size img).
  { intros m Hm Hnz. eexists. split; [reflexivity|].
    unfold sig_bytes, talloc_realloc_sig. cbn [sigbuf sigsize set_sig buf data_size].
    destruct (len pre + len post =? 0) eqn:E0; tests; [done|].
    cbn [default from_option id].
    assert (Ht : talloc_realloc m (len pre + len post) = pre ++ post).
    { unfold talloc_realloc. rewrite Hm.
      replace (Z.to_nat (len pre + len post) - length m)%nat with 0%nat.
      - cbn [replicate]. apply app_nil_r.
      - apply (f_equal length) in Hm. rewrite length_take in Hm.
        rewrite length_app in Hm. unfold len in *. lia. }
    rewrite Ht, Hdel, len_app.
    split; [done|]. split; [done|]. split; [|done].
    split; [discriminate|]. intros Hd.
    rewrite Hd in Hdel. apply (f_equal len) in Hdel.
    rewrite len_app in Hdel. change (len (cert_table_of [])) with 0 in Hdel.
    lia. }
  destruct (_ <=? _) eqn:E; tests.
  - (* the entry is the last one *)
    assert (Hpost : post = []).
    { destruct post; [done|]. unfold len in *. simpl in *. lia. }
    destruct (len pre =? 0) eqn:E0; tests.
    + assert (Hpre : pre = []).
      { destruct pre; [done|]. unfold len in *. simpl in *. lia. }
      eexists. split; [reflexivity|].
      unfold sig_bytes. cbn [sigbuf sigsize set_sig buf data_size].
      rewrite Hdel, Hpre, Hpost.
      split; [done|]. split; [done|]. split; [|done].
      split; [intros _|done].
      apply cert_table_of_nil_inv. rewrite Hdel, Hpre, Hpost. done.
    + apply Hre; [|lia].
      rewrite Hsplit.
      replace (pre ++ win_certificate sig ++ post)
        with ((pre ++ post) ++ win_certificate sig)
        by (rewrite Hpost, !app_nil_r; done).
      apply Htake.
  - (* the entry is in the middle *)
    replace (len pre + align8 (len sig + 8) + len post - (len pre - 0))
      with (align8 (len sig + 8) + len post) by lia.
    rewrite (cast_size_t_id (align8 _ + len post)) by lia.
    replace (align8 (len sig + 8) + len post - align8 (len sig + 8))
      with (len post) by lia.
    rewrite (cast_size_t_id (len post)) by lia.
    assert (Hload : load_bytes (cert_table_of sigs)
                      (len pre + align8 (len sig + 8)) (len post)
                    = Done post).
    { rewrite Hsplit, app_assoc.
      replace ((pre ++ win_certificate sig) ++ post)
        with ((pre ++ win_certificate sig) ++ post ++ [])
        by (rewrite app_nil_r; done).
      apply load_bytes_middle; [|done].
      rewrite len_app, len_win_certificate. done. }
    rewrite Hload. 
    rewrite store_bytes_in_range by lia.
    apply Hre; [|lia].
    replace (take (Z.to_nat (len pre)) (cert_table_of sigs)) with pre.
    2:{ rewrite Hsplit. unfold len. rewrite Nat2Z.id, take_app_length. done. }
    rewrite app_assoc. apply Htake.
Qed.

(** X14.  On a table that holds the payloads [sigs],
    [image_write_detached] of an index below their number returns 0 and
    writes the payload of that index, without the header of its entry and
    without padding; for the index equal to their number it returns -1 and
    writes nothing. *)
Theorem write_detached_payload img sigs :
  sigbuf img = Some (cert_table_of sigs) ->
  sigsize img = len (cert_table_of sigs) ->
  Forall small_sig sigs ->
  len (cert_table_of sigs) < 2 ^ 63 ->
  (forall i sig, sigs !! i = Some sig ->
     image_write_detached img (Z.of_nat i) = Done (0, sig)) /\
  image_write_detached img (len sigs) = Done (-1, []).
Proof.
  intros Hb Hz Hall Hlen.
  destruct (get_signature_table img sigs Hb Hz Hall Hlen) as [Hget Hlast].
  unfold image_write_detached. split.
  - intros i sig Hi. destruct (Hget i sig Hi) as [Hg Hl].
    rewrite Hg. cbv [obind]. rewrite Hb. cbn [default from_option id].
    rewrite Hl. done.
  - rewrite Hlast. done.
Qed.

(** ** [sbsign --detached] *)

(** The loop of [main] stops at the number of entries of the table. *)
Lemma count_signatures_table img sigs :
  sigbuf img = Some (cert_table_of sigs) ->
  sigsize img = len (cert_table_of sigs) ->
  Forall small_sig sigs ->
  len (cert_table_of sigs) < 2 ^ 63 ->
  len sigs < 2 ^ 31 ->
  forall fuel j,
    (j <= length sigs)%nat -> (length sigs - j < fuel)%nat ->
    count_signatures fuel img (Z.of_nat j) = Done (Some (len sigs)).
Proof.
  intros Hb Hz Hall Hlen Hn.
  destruct (get_signature_table img sigs Hb Hz Hall Hlen) as [Hget Hlast].
  induction fuel as [|fuel IH]; intros j Hj Hf; [lia|].
  cbn [count_signatures].
  destruct (decide (j = length sigs)) as [->|Hne].
  - fold (len sigs). rewrite Hlast. done.
  - destruct (lookup_lt_is_Some_2 sigs j) as [sig Hi]; [lia|].
    destruct (Hget j sig Hi) as [-> _]. cbv [obind].
    unfold len in Hn. rewrite cast_int_id by lia.
    replace (Z.of_nat j + 1) with (Z.of_nat (S j)) by lia.
    apply IH; lia.
Qed.

(** X15.  [sbsign --detached] writes the signature it has just made: when
    the table of the image holds the payloads [sigs] (none for an unsigned
    image), adding the blob [sig], counting the entries of the table with
    [image_get_signature] and writing entry [count - 1] with
    [image_write_detached] returns 0 and writes exactly [sig]. *)
Theorem sbsign_detached_output img sigs sig fuel :
  sig_bytes img = cert_table_of sigs ->
  (sigbuf img <> None -> sigsize img = len (sig_bytes img)) ->
  Forall small_sig sigs -> small_sig sig ->
  len (cert_table_of sigs) + len sig + 16 < 2 ^ 63 ->
  len sigs + 1 < 2 ^ 31 ->
  (length sigs + 1 < fuel)%nat ->
  sign_and_write fuel true img sig (len sig) = Done (Some (0, sig)).
Proof.
  intros Ht Hc Hall Hs Hlen Hn Hf.
  pose proof (len_nonneg sig) as Hs0.
  pose proof (align8_bounds (len sig + 8)) as Ha.
  assert (Hs' := Hs). unfold small_sig in Hs'.
  unfold sign_and_write.
  rewrite add_signature_appends; [|exact Hc|lia|rewrite Ht; lia].
  cbv [obind]. cbn [snd].
  set (img1 := set_cert_table _ _).
  assert (Hb1 : sigbuf img1 = Some (cert_table_of (sigs ++ [sig]))).
  { unfold img1. cbn [sigbuf set_cert_table set_sig].
    rewrite Ht, cert_table_of_app, cert_table_of_cons.
    change (cert_table_of []) with (@nil byte). rewrite app_nil_r. done. }
  assert (Hl1 : len (cert_table_of (sigs ++ [sig]))
                = len (cert_table_of sigs) + align8 (len sig + 8)).
  { rewrite cert_table_of_app, len_app, len_cert_table_cons.
    change (len (cert_table_of [])) with 0. lia. }
  assert (Hz1 : sigsize img1 = len (cert_table_of (sigs ++ [sig]))).
  { unfold img1. cbn [sigsize set_cert_table set_sig].
    rewrite Ht, Hl1, len_win_certificate. done. }
  assert (Hall1 : Forall small_sig (sigs ++ [sig])).
  { apply Forall_app. split; [done|]. repeat constructor. done. }
  assert (Hlen1 : len (cert_table_of (sigs ++ [sig])) < 2 ^ 63) by lia.
  assert (Hn1 : len (sigs ++ [sig]) = len sigs + 1).
  { rewrite len_app. done. }
  change 0 with (Z.of_nat 0) at 1.
  rewrite (count_signatures_table img1 _ Hb1 Hz1 Hall1 Hlen1 ltac:(lia)
             fuel 0%nat)
    by (rewrite ?length_app; simpl; lia).
  rewrite Hn1. replace (len sigs + 1 - 1) with (Z.of_nat (length sigs))
    by (unfold len; lia).
  destruct (get_signature_table img1 _ Hb1 Hz1 Hall1 Hlen1) as [Hget _].
  destruct (Hget (length sigs) sig) as [Hg Hl].
  { rewrite lookup_app_r by lia. rewrite Nat.sub_diag. done. }
  unfold image_write_detached. rewrite Hg. cbv [obind].
  rewrite Hb1. cbn [default from_option id]. rewrite Hl. done.
Qed.

(** ** Reading a written file back *)

Section Kept.
Context (B out : list byte) (D ck dd : Z).
Context (Hkept : forall off n bs,
           load_bytes B off n = Done bs -> in_data D ck dd off n ->
           load_bytes out off n = Done bs).

Lemma rd_u8_kept off v :
  rd_u8 B off = Done v -> in_data D ck dd off 1 -> rd_u8 out off = Done v.
Proof.
  unfold rd_u8. intros H Hi. bind_inv H.
  rewrite (Hkept _ _ _ E Hi). done.
Qed.

Lemma rd_u16_kept off v :
  rd_u16 B off = Done v -> in_data D ck dd off 2 -> rd_u16 out off = Done v.
Proof.
  unfold rd_u16. intros H Hi. bind_inv H.
  rewrite (Hkept _ _ _ E Hi). done.
Qed.

Lemma rd_u32_kept off v :
  rd_u32 B off = Done v -> in_data D ck dd off 4 -> rd_u32 out off = Done v.
Proof.
  unfold rd_u32. intros H Hi. bind_inv H.
  rewrite (Hkept _ _ _ E Hi). done.
Qed.

Lemma pehdr_u16_kept off v :
  pehdr_u16 B off = Done v -> in_data D ck dd off 2 ->
  pehdr_u16 out off = Done v.
Proof. rewrite !pehdr_u16_rd_u16. apply rd_u16_kept. Qed.

Lemma pehdr_u32_kept off v :
  pehdr_u32 B off = Done v -> in_data D ck dd off 4 ->
  pehdr_u32 out off = Done v.
Proof. rewrite !pehdr_u32_rd_u32. apply rd_u32_kept. Qed.

Lemma talloc_strndup_kept n : forall off s,
  talloc_strndup B off n = Done s -> in_data D ck dd off (Z.of_nat n) ->
  talloc_strndup out off n = Done s.
Proof.
  induction n as [|n IH]; intros off s H Hi; [done|].
  cbn [talloc_strndup] in *. bind_inv H.
  rewrite (rd_u8_kept _ _ E) by (unfold in_data in *; lia).
  cbn [obind]. destruct (v =? 0); [done|]. bind_inv H.
  rewrite (IH _ _ E0) by (unfold in_data in *; lia). done.
Qed.

End Kept.

Lemma load_bytes_app_r pre l off n :
  0 <= off -> load_bytes (pre ++ l) (len pre + off) n = load_bytes l off n.
Proof.
  intros Ho. unfold load_bytes. rewrite len_app.
  pose proof (len_nonneg pre).
  replace (0 <=? len pre + off) with true by (symmetry; apply Z.leb_le; lia).
  replace (0 <=? off) with true by (symmetry; apply Z.leb_le; lia).
  replace (len pre + off + n <=? len pre + len l) with (off + n <=? len l).
  2:{ destruct (off + n <=? len l) eqn:E; tests; symmetry;
        [apply Z.leb_le|apply Z.leb_gt]; lia. }
  destruct (_ && _ && _); [|done]. f_equal. f_equal.
  unfold len. rewrite Z2Nat.inj_add, Nat2Z.id by lia.
  rewrite <- drop_drop, drop_app_length. done.
Qed.

(** The file that [image_write] emits, read where the writer has stored
    nothing: the bytes of the buffer. *)
Lemma written_kept B D T ck dd v1 v2 v3 b1 b2 B2 :
  wr_u32 B dd v1 = Done b1 -> wr_u32 b1 (dd + 4) v2 = Done b2 ->
  wr_u32 b2 ck v3 = Done B2 -> 0 <= D <= len B ->
  forall off n bs,
    load_bytes B off n = Done bs -> in_data D ck dd off n ->
    load_bytes (take (Z.to_nat D) B2 ++ T) off n = Done bs.
Proof.
  unfold wr_u32. intros E1 E2 E3 HD off n bs H (Hi1 & Hi2 & Hi3).
  pose proof (load_bytes_Done _ _ _ _ H) as (Ho & Hn & _).
  pose proof (store_bytes_len _ _ _ _ E1).
  pose proof (store_bytes_len _ _ _ _ E2).
  pose proof (store_bytes_len _ _ _ _ E3).
  rewrite load_bytes_prefix by lia.
  rewrite (load_store_other _ _ _ _ _ _ E3) by (rewrite len_le_bytes; lia).
  rewrite (load_store_other _ _ _ _ _ _ E2) by (rewrite len_le_bytes; lia).
  rewrite (load_store_other _ _ _ _ _ _ E1) by (rewrite len_le_bytes; lia).
  done.
Qed.

(** The security directory entry of the file that [image_write] emits. *)
Lemma written_entry B D T ck dd v1 v2 v3 b1 b2 B2 :
  wr_u32 B dd v1 = Done b1 -> wr_u32 b1 (dd + 4) v2 = Done b2 ->
  wr_u32 b2 ck v3 = Done B2 -> 0 <= D <= len B ->
  ck + 4 <= dd \/ dd + 8 <= ck -> dd + 8 <= D ->
  rd_u32 (take (Z.to_nat D) B2 ++ T) dd = Done (cast_u32 v1) /\
  rd_u32 (take (Z.to_nat D) B2 ++ T) (dd + 4) = Done (cast_u32 v2).
Proof.
  intros E1 E2 E3 HD Ha Hd.
  assert (R1 := rd_wr_u32 _ _ _ _ E1).
  assert (R2 := rd_wr_u32 _ _ _ _ E2).
  unfold wr_u32 in *.
  pose proof (store_bytes_Done _ _ _ _ E1) as (Hd0 & _ & _ & L1).
  pose proof (store_bytes_len _ _ _ _ E2) as L2.
  pose proof (store_bytes_len _ _ _ _ E3) as L3.
  rewrite <- (rd_u32_other _ _ _ _ dd E2) in R1
    by (rewrite len_le_bytes; lia).
  rewrite <- (rd_u32_other _ _ _ _ dd E3) in R1
    by (rewrite len_le_bytes; lia).
  rewrite <- (rd_u32_other _ _ _ _ (dd + 4) E3) in R2
    by (rewrite len_le_bytes; lia).
  unfold rd_u32 in *.
  rewrite !load_bytes_prefix by lia. done.
Qed.

Lemma parse_written i1 i2 out D T :
  image_pecoff_parse pe_layout i1 = Done (Some i2) ->
  (forall off n bs,
     load_bytes (buf i1) off n = Done bs ->
     in_data D (checksum i2) (data_dir_sigtable i2) off n ->
     load_bytes out off n = Done bs) ->
  rd_u32 out (data_dir_sigtable i2) = Done D ->
  rd_u32 out (data_dir_sigtable i2 + 4) = Done (len T) ->
  (forall off n, 0 <= off -> load_bytes out (D + off) n = load_bytes T off n) ->
  len out = D + len T ->
  128 <= pehdr i2 -> scnhdr i2 <= D -> D < 2 ^ 31 -> len T < 2 ^ 31 ->
  header_ok T 0 (D + len T) ->
  exists j2,
    image_pecoff_parse pe_layout (image_of_file out) = Done (Some j2) /\
    buf j2 = out /\ image_size j2 = D + len T /\
    checksum j2 = checksum i2 /\
    data_dir_sigtable j2 = data_dir_sigtable i2 /\
    header_size j2 = header_size i2 /\
    sections j2 = sections i2 /\
    scnhdr j2 = scnhdr i2 /\
    cert_table_size j2 = len T /\
    sigbuf j2 = Some T /\ sigsize j2 = len T.
Proof.
  intros H Hk Hd1 Hd2 Hsuf Hlen Hpe Hsc HD HT Hok.
  apply image_pecoff_parse_checked in H
    as (A0 & E0 & E1 & Ea & A1 & A2 & Esig & Hdos & Hopt
        & (magic & O & m1 & Em & Hm & M0 & M1 & Efa & Ehs & Hmin & Hdd & Hck)
        & Eosz & A3 & A4 & Hdds & Ens & Hscn).
  cbn [sizeof_doshdr off_e_magic off_e_lfanew sizeof_pehdr off_nt_signature
       off_f_magic off_f_opthdr off_f_nscns pe_layout
       IMAGE_FILE_MACHINE_AMD64 IMAGE_FILE_MACHINE_AARCH64
       IMAGE_FILE_MACHINE_I386 IMAGE_FILE_MACHINE_THUMB] in *.
  change sizeof_data_dir_entry with 8 in *.
  change DATA_DIR_CERT_TABLE with 4 in *.
  change (cast_int (8 * (4 + 1))) with 40 in *.
  set (a := pehdr i2) in *.
  pose proof (len_nonneg T) as HT0.
  destruct Hok as (Hrev & Htyp & c & Hc & Hlt).
  unfold off_cth_revision, off_cth_type, off_cth_size in *.
  pose proof (rd_u32_Done _ _ _ Hc) as (cb & Hcb & _).
  apply load_bytes_Done in Hcb as (_ & _ & Hcb & _).
  assert (Hr16 : rd_u16 out (D + 4) = Done CERT_TABLE_REVISION).
  { unfold rd_u16 in *. rewrite Hsuf by lia. exact Hrev. }
  assert (Ht16 : rd_u16 out (D + 6) = Done CERT_TABLE_TYPE_PKCS).
  { unfold rd_u16 in *. rewrite Hsuf by lia. exact Htyp. }
  assert (Hc32 : rd_u32 out (D + 0) = Done c).
  { unfold rd_u32 in *. rewrite Hsuf by lia. exact Hc. }
  assert (Hcopy : load_bytes out (D + 0) (len T) = Done T).
  { rewrite Hsuf by lia. rewrite load_bytes_in_range by lia.
    f_equal. unfold len. rewrite Nat2Z.id. cbn [Z.to_nat drop].
    apply firstn_all. }
  assert (Hcases :
    O = opt_64 pe_layout /\ m1 = 2 /\
      ((magic =? 34404) || (magic =? 43620)) = true \/
    O = opt_32 pe_layout /\ m1 = 1 /\
      ((magic =? 34404) || (magic =? 43620)) = false /\
      ((magic =? 332) || (magic =? 450)) = true).
  { destruct Hm as [([->| ->] & -> & ->)|([->| ->] & -> & ->)]; auto. }
  clear Hm.
  destruct Hcases as [(-> & -> & Hm64)|(-> & -> & Hm64 & Hm32)].
  - cbn [opt_64 pe_layout pe_opt_64 off_magic off_FileAlignment
         off_SizeOfHeaders off_CheckSum off_DataDirectory sizeof_opthdr
         sizeof_DataDirectory] in *.
    change (cast_u32 (240 - 128)) with 112 in *.
    rewrite Hopt in *. rewrite Hmin in A3. change (cast_u32 (112 + 40)) with 152 in A3.
    rewrite Hdd in Hdds.
    assert (Hckn : checksum i2 = a + 88) by lia.
    assert (Hddn : data_dir_sigtable i2 = a + 168) by lia.
    rewrite Hckn, Hddn in *.
    rewrite ?Z.add_0_l, ?Z.add_0_r in *.
    eexists. split.
    + unfold image_pecoff_parse, reject.
      cbn [image_size buf image_of_file sizeof_doshdr off_e_magic
           off_e_lfanew sizeof_pehdr off_nt_signature off_f_magic
           off_f_opthdr off_f_nscns pe_layout
           IMAGE_FILE_MACHINE_AMD64 IMAGE_FILE_MACHINE_AARCH64
           IMAGE_FILE_MACHINE_I386 IMAGE_FILE_MACHINE_THUMB].
      rewrite ?Z.add_0_l, ?Z.add_0_r.
      destruct (len out <? 128) eqn:T0; tests; [lia|].
      rewrite (rd_u8_kept _ _ _ _ _ Hk _ _ E0) by (unfold in_data; lia).
      cbn [obind]. rewrite Z.eqb_refl. cbn [negb].
      rewrite (rd_u8_kept _ _ _ _ _ Hk _ _ E1) by (unfold in_data; lia).
      cbn [obind]. rewrite Z.eqb_refl. cbn [negb].
      rewrite (pehdr_u32_kept _ _ _ _ _ Hk _ _ Ea) by (unfold in_data; lia).
      cbn [obind].
      destruct (len out <=? a) eqn:T1; tests; [lia|].
      destruct (len out <? a + 24) eqn:T2; tests; [lia|].
      rewrite ?Z.add_0_r.
      rewrite (Hk _ _ _ Esig) by (unfold in_data; lia).
      cbn [obind]. rewrite bool_decide_eq_true_2 by done. cbn [negb].
      rewrite (pehdr_u16_kept _ _ _ _ _ Hk _ _ Em) by (unfold in_data; lia).
      cbn [obind]. rewrite Hm64.
      unfold image_pecoff_parse_64, reject.
      cbn [buf opthdr set_headers image_of_file opt_64 pe_layout pe_opt_64
           off_magic off_FileAlignment off_SizeOfHeaders off_CheckSum
           off_DataDirectory sizeof_opthdr sizeof_DataDirectory].
      rewrite ?Z.add_0_r.
      rewrite (rd_u8_kept _ _ _ _ _ Hk _ _ M0) by (unfold in_data; lia).
      cbn [obind]. rewrite Z.eqb_refl. cbn [negb].
      rewrite (rd_u8_kept _ _ _ _ _ Hk _ _ M1) by (unfold in_data; lia).
      cbn [obind]. rewrite Z.eqb_refl. cbn [negb].
      rewrite (pehdr_u32_kept _ _ _ _ _ Hk _ _ Efa) by (unfold in_data; lia).
      cbn [obind].
      rewrite (pehdr_u32_kept _ _ _ _ _ Hk _ _ Ehs) by (unfold in_data; lia).
      cbn [obind].
      rewrite (pehdr_u16_kept _ _ _ _ _ Hk _ _ Eosz) by (unfold in_data; lia).
      cbn [obind opthdr_min_size data_dir set_aouthdr].
      change sizeof_data_dir_entry with 8. change DATA_DIR_CERT_TABLE with 4.
      change off_dd_size with 4. change off_dd_addr with 0.
      change (cast_u32 (cast_u32 (240 - 128) + cast_int (8 * (4 + 1))))
        with 152.
      destruct (opthdr_size i2 <? 152) eqn:T3; tests; [lia|].
      destruct (len out <? 128 + 24 + opthdr_size i2) eqn:T4; tests; [lia|].
      replace (a + 24 + 112 + 8 * 4 + 4) with (a + 168 + 4) by lia.
      replace (a + 24 + 112 + 8 * 4 + 0) with (a + 168) by lia.
      rewrite Hd2. cbn [obind]. rewrite (cast_int_id (len T)) by lia.
      destruct (len T =? 0) eqn:T5; tests; [lia|].
      rewrite Hd1. cbn [obind].
      unfold valid_cert_table, off_cth_revision, off_cth_type, off_cth_size.
      rewrite ?Z.add_0_r.
      rewrite Hr16. cbn [obind]. rewrite Z.eqb_refl. cbn [negb].
      rewrite Ht16. cbn [obind]. rewrite Z.eqb_refl. cbn [negb].
      rewrite Hc32. cbn [obind].
      destruct (c <? len out) eqn:T6; tests; [|lia].
      rewrite Hcopy. cbn [obind].
      rewrite (pehdr_u16_kept _ _ _ _ _ Hk _ _ Ens) by (unfold in_data; lia).
      cbn [obind]. reflexivity.
    + cbn [buf image_size checksum data_dir_sigtable header_size sections
           scnhdr cert_table_size sigbuf sigsize opthdr set_tables set_sig
           set_aouthdr set_headers image_of_file].
      repeat split; try done; lia.
  - cbn [opt_32 pe_layout pe_opt_32 off_magic off_FileAlignment
         off_SizeOfHeaders off_CheckSum off_DataDirectory sizeof_opthdr
         sizeof_DataDirectory] in *.
    change (cast_u32 (224 - 128)) with 96 in *.
    rewrite Hopt in *. rewrite Hmin in A3. change (cast_u32 (96 + 40)) with 136 in A3.
    rewrite Hdd in Hdds.
    assert (Hckn : checksum i2 = a + 88) by lia.
    assert (Hddn : data_dir_sigtable i2 = a + 152) by lia.
    rewrite Hckn, Hddn in *.
    rewrite ?Z.add_0_l, ?Z.add_0_r in *.
    eexists. split.
    + unfold image_pecoff_parse, reject.
      cbn [image_size buf image_of_file sizeof_doshdr off_e_magic
           off_e_lfanew sizeof_pehdr off_nt_signature off_f_magic
           off_f_opthdr off_f_nscns pe_layout
           IMAGE_FILE_MACHINE_AMD64 IMAGE_FILE_MACHINE_AARCH64
           IMAGE_FILE_MACHINE_I386 IMAGE_FILE_MACHINE_THUMB].
      rewrite ?Z.add_0_l, ?Z.add_0_r.
      destruct (len out <? 128) eqn:T0; tests; [lia|].
      rewrite (rd_u8_kept _ _ _ _ _ Hk _ _ E0) by (unfold in_data; lia).
      cbn [obind]. rewrite Z.eqb_refl. cbn [negb].
      rewrite (rd_u8_kept _ _ _ _ _ Hk _ _ E1) by (unfold in_data; lia).
      cbn [obind]. rewrite Z.eqb_refl. cbn [negb].
      rewrite (pehdr_u32_kept _ _ _ _ _ Hk _ _ Ea) by (unfold in_data; lia).
      cbn [obind].
      destruct (len out <=? a) eqn:T1; tests; [lia|].
      destruct (len out <? a + 24) eqn:T2; tests; [lia|].
      rewrite ?Z.add_0_r.
      rewrite (Hk _ _ _ Esig) by (unfold in_data; lia).
      cbn [obind]. rewrite bool_decide_eq_true_2 by done. cbn [negb].
      rewrite (pehdr_u16_kept _ _ _ _ _ Hk _ _ Em) by (unfold in_data; lia).
      cbn [obind]. rewrite Hm64, Hm32.
      unfold image_pecoff_parse_32, reject.
      cbn [buf opthdr set_headers image_of_file opt_32 pe_layout pe_opt_32
           off_magic off_FileAlignment off_SizeOfHeaders off_CheckSum
           off_DataDirectory sizeof_opthdr sizeof_DataDirectory].
      rewrite ?Z.add_0_r.
      rewrite (rd_u8_kept _ _ _ _ _ Hk _ _ M0) by (unfold in_data; lia).
      cbn [obind]. rewrite Z.eqb_refl. cbn [negb].
      rewrite (rd_u8_kept _ _ _ _ _ Hk _ _ M1) by (unfold in_data; lia).
      cbn [obind]. rewrite Z.eqb_refl. cbn [negb].
      rewrite (pehdr_u32_kept _ _ _ _ _ Hk _ _ Efa) by (unfold in_data; lia).
      cbn [obind].
      rewrite (pehdr_u32_kept _ _ _ _ _ Hk _ _ Ehs) by (unfold in_data; lia).
      cbn [obind].
      rewrite (pehdr_u16_kept _ _ _ _ _ Hk _ _ Eosz) by (unfold in_data; lia).
      cbn [obind opthdr_min_size data_dir set_aouthdr].
      change sizeof_data_dir_entry with 8. change DATA_DIR_CERT_TABLE with 4.
      change off_dd_size with 4. change off_dd_addr with 0.
      change (cast_u32 (cast_u32 (224 - 128) + cast_int (8 * (4 + 1))))
        with 136.
      destruct (opthdr_size i2 <? 136) eqn:T3; tests; [lia|].
      destruct (len out <? 128 + 24 + opthdr_size i2) eqn:T4; tests; [lia|].
      replace (a + 24 + 96 + 8 * 4 + 4) with (a + 152 + 4) by lia.
      replace (a + 24 + 96 + 8 * 4 + 0) with (a + 152) by lia.
      rewrite Hd2. cbn [obind]. rewrite (cast_int_id (len T)) by lia.
      destruct (len T =? 0) eqn:T5; tests; [lia|].
      rewrite Hd1. cbn [obind].
      unfold valid_cert_table, off_cth_revision, off_cth_type, off_cth_size.
      rewrite ?Z.add_0_r.
      rewrite Hr16. cbn [obind]. rewrite Z.eqb_refl. cbn [negb].
      rewrite Ht16. cbn [obind]. rewrite Z.eqb_refl. cbn [negb].
      rewrite Hc32. cbn [obind].
      destruct (c <? len out) eqn:T6; tests; [|lia].
      rewrite Hcopy. cbn [obind].
      rewrite (pehdr_u16_kept _ _ _ _ _ Hk _ _ Ens) by (unfold in_data; lia).
      cbn [obind]. reflexivity.
    + cbn [buf image_size checksum data_dir_sigtable header_size sections
           scnhdr cert_table_size sigbuf sigsize opthdr set_tables set_sig
           set_aouthdr set_headers image_of_file].
      repeat split; try done; lia.
Qed.


Lemma add_coff_sections_kept img j D ck dd count : forall i regions bytes r,
  add_coff_sections pe_layout img count i regions bytes = Done r ->
  (forall off n bs,
     load_bytes (buf img) off n = Done bs -> in_data D ck dd off n ->
     load_bytes (buf j) off n = Done bs) ->
  scnhdr j = scnhdr img ->
  0 <= i -> ck + 4 <= dd -> dd + 8 <= scnhdr img ->
  scnhdr img + 40 * (i + Z.of_nat count) <= D ->
  add_coff_sections pe_layout j count i regions bytes = Done r.
Proof.
  induction count as [|count IH]; intros i regions bytes r H Hk Hs Hi Hc Hd Hb;
    [done|].
  cbn [add_coff_sections] in *. rewrite Hs.
  cbn [sizeof_scnhdr off_s_scnptr off_s_size off_s_name pe_layout] in *.
  apply obind_Done in H as (file_offset & Eo & H).
  apply obind_Done in H as (file_size & Ez & H).
  rewrite (pehdr_u32_kept _ _ _ _ _ Hk _ _ Eo) by (unfold in_data; lia).
  rewrite (pehdr_u32_kept _ _ _ _ _ Hk _ _ Ez) by (unfold in_data; lia).
  cbn [obind]. destruct (file_size =? 0).
  - apply IH; try done; lia.
  - apply obind_Done in H as (name & En & H).
    rewrite (talloc_strndup_kept _ _ _ _ _ Hk _ _ _ En)
      by (unfold in_data; lia).
    cbn [obind]. apply IH; try done; lia.
Qed.

(** The region pass on the file that [image_write] has emitted for an
    image that was loaded from a file without certificate table. *)
Lemma find_regions_written qsort i2 img j2 (T : list byte) :
  is_qsort qsort ->
  image_find_regions pe_layout qsort i2 = Done img ->
  (forall off n bs,
     load_bytes (buf i2) off n = Done bs ->
     in_data (data_size img) (checksum i2) (data_dir_sigtable i2) off n ->
     load_bytes (buf j2) off n = Done bs) ->
  checksum j2 = checksum i2 ->
  data_dir_sigtable j2 = data_dir_sigtable i2 ->
  header_size j2 = header_size i2 ->
  sections j2 = sections i2 ->
  scnhdr j2 = scnhdr i2 ->
  cert_table_size i2 = 0 -> cert_table_size j2 = len T ->
  image_size j2 = data_size img + len T ->
  data_size img <= image_size i2 -> image_size i2 < 2 ^ 31 - 8 ->
  in_range img -> len T < 2 ^ 31 ->
  checksum i2 + 4 <= data_dir_sigtable i2 ->
  data_dir_sigtable i2 + 8 <= scnhdr i2 ->
  0 <= sections i2 ->
  scnhdr i2 + 40 * sections i2 <= data_size img ->
  exists j3,
    image_find_regions pe_layout qsort j2 = Done j3 /\
    checksum_regions j3 = checksum_regions img /\
    data_size j3 = data_size img /\
    buf j3 = buf j2 /\ image_size j3 = image_size j2 /\
    sigbuf j3 = sigbuf j2 /\ sigsize j3 = sigsize j2 /\
    cert_table_size j3 = cert_table_size j2.
Proof.
  intros Hq Hf Hk Hck Hdd Hhs Hn Hsc Hc0 HcT Hsz Hle HS
    (Hpos & Htot & _ & Hds) HT Ha1 Ha2 Hn0 Hsec.
  pose proof (len_nonneg T) as HT0.
  destruct (find_regions_layout _ _ _ _ Hf)
    as (sorted & bytes & Es & Hbr & Hr1 & _ & _).
  destruct (find_regions_last _ _ _ _ Hf) as (r1 & Hl1 & Hd1).
  pose proof (image_find_regions_Done _ _ _ _ Hf) as (_ & _ & _ & _ & _ & Hdr & _).
  destruct (sorted_regions_spec _ _ _ _ _ Hq Es)
    as (_ & _ & _ & _ & _ & Hbt).
  assert (Es2 : sorted_regions pe_layout qsort j2 = Done (sorted, bytes)).
  { unfold sorted_regions in *.
    apply obind_Done in Es as (r & E & Es).
    assert (Hh : header_regions j2 = header_regions i2).
    { unfold header_regions. rewrite Hck, Hdd, Hhs. done. }
    rewrite Hh, Hn.
    rewrite (add_coff_sections_kept i2 j2 (data_size img) (checksum i2)
               (data_dir_sigtable i2) _ _ _ _ _ E Hk Hsc);
      [done|lia|done|done|lia]. }
  rewrite Hc0 in Hr1.
  assert (Hsp : Forall (fun r => 0 <= size r) sorted /\
                total_size sorted <= total_size (checksum_regions img)).
  { rewrite Hr1 in Hpos |- *. destruct (_ <? _).
    - rewrite Forall_app in Hpos. destruct Hpos as [Hp Hej].
      split; [done|]. rewrite total_size_app.
      apply total_size_nonneg in Hej. lia.
    - split; [done|lia]. }
  destruct Hsp as [Hsp Hle2]. apply total_size_nonneg in Hsp.
  assert (Hbytes : bytes = 12 + total_size sorted).
  { rewrite <- (cast_size_t_id bytes) by done. rewrite Hbt.
    apply cast_size_t_id. lia. }
  set (S := image_size i2) in *. set (D := data_size img) in *.
  rewrite (cast_size_t_id (bytes + 0)) in Hr1 by lia.
  assert (Hregs : (if cast_size_t (bytes + cert_table_size j2)
                      <? image_size j2
                   then sorted ++ [endjunk j2 bytes] else sorted)
                  = checksum_regions img).
  { rewrite HcT, Hsz, Hr1. rewrite (cast_size_t_id (bytes + len T)) by lia.
    destruct (bytes + 0 <? S) eqn:E1; tests.
    - assert (HDS : D = S).
      { rewrite Hr1, last_snoc in Hl1. injection Hl1 as <-.
        unfold endjunk in Hd1. cbn [data size] in Hd1.
        rewrite Hc0 in Hd1. fold S in Hd1.
        rewrite Z.add_0_l, !Z.sub_0_r in Hd1.
        rewrite (cast_ptrdiff_id bytes) in Hd1 by lia.
        rewrite (cast_ptrdiff_id bytes) in Hd1 by lia.
        rewrite (cast_size_t_id (S - bytes)) in Hd1 by lia.
        rewrite (cast_size_t_id (S - bytes)) in Hd1 by lia.
        rewrite (cast_int_id (S - bytes)) in Hd1 by lia.
        replace (bytes + (S - bytes)) with S in Hd1 by lia.
        rewrite cast_int_id in Hd1 by lia.
        pose proof (align_up_bounds S ltac:(lia)).
        rewrite cast_size_t_id in Hd1 by lia. lia. }
      destruct (bytes + len T <? D + len T) eqn:E2; tests; [|lia].
      f_equal. unfold endjunk. rewrite HcT, Hsz, Hc0. fold S.
      rewrite (cast_size_t_id (D + len T - bytes)) by lia.
      rewrite (cast_size_t_id (S - bytes)) by lia.
      rewrite Z.sub_0_r.
      do 4 f_equal. lia.
    - destruct (bytes + len T <? D + len T) eqn:E2; tests; [lia|done]. }
  unfold image_find_regions. rewrite Es2. cbn [obind fst snd].
  rewrite Hregs, Hl1. eexists. split; [reflexivity|].
  cbn [checksum_regions data_size buf image_size sigbuf sigsize
       cert_table_size set_regions].
  split; [done|]. split; [|done]. symmetry. exact Hd1.
Qed.

Lemma rd_u16_nonneg mem off v : rd_u16 mem off = Done v -> 0 <= v.
Proof.
  unfold rd_u16. intros H. bind_inv H. injection H as <-.
  pose proof (le_val_range v0). lia.
Qed.

Lemma rd_u32_nonneg mem off v : rd_u32 mem off = Done v -> 0 <= v.
Proof.
  unfold rd_u32. intros H. bind_inv H. injection H as <-.
  pose proof (le_val_range v0). lia.
Qed.

(** Where [image_pecoff_parse] puts the checksum field, the security
    directory entry and the section table, for the structures of
    [coff/pe.h]. *)
Lemma parse_field_offsets i1 i2 :
  image_pecoff_parse pe_layout i1 = Done (Some i2) ->
  0 <= pehdr i2 /\ 0 <= sections i2 /\
  checksum i2 = pehdr i2 + 88 /\
  checksum i2 + 4 <= data_dir_sigtable i2 /\
  data_dir_sigtable i2 + 8 <= scnhdr i2.
Proof.
  intros H. apply image_pecoff_parse_checked in H
    as (_ & _ & _ & Ea & _ & _ & _ & _ & Hopt
        & (magic & O & m1 & _ & Hm & _ & _ & _ & _ & Hmin & Hdd & Hck)
        & _ & A3 & _ & Hdds & Ens & Hscn).
  rewrite pehdr_u32_rd_u32 in Ea. apply rd_u32_nonneg in Ea.
  rewrite pehdr_u16_rd_u16 in Ens. apply rd_u16_nonneg in Ens.
  cbn [sizeof_pehdr pe_layout] in *.
  change sizeof_data_dir_entry with 8 in *.
  change DATA_DIR_CERT_TABLE with 4 in *.
  change (cast_int (8 * (4 + 1))) with 40 in *.
  destruct Hm as [(_ & -> & _)|(_ & -> & _)];
    cbn [opt_64 opt_32 pe_layout pe_opt_64 pe_opt_32 off_CheckSum
         off_DataDirectory sizeof_opthdr sizeof_DataDirectory] in *;
    rewrite Hmin in A3.
  - change (cast_u32 (cast_u32 (240 - 128) + 40)) with 152 in A3. lia.
  - change (cast_u32 (cast_u32 (224 - 128) + 40)) with 136 in A3. lia.
Qed.

(** The file that [image_write] emits for an image that was loaded from a
    file without certificate table and then given the table [T], loaded
    again. *)
Lemma written_file_loads qsort fuel file img img1 (T : list byte) rc img2 out :
  is_qsort qsort ->
  image_load pe_layout qsort fuel file = Loaded img ->
  cert_table_size img = 0 -> in_range img ->
  image_size img < 2 ^ 31 - 8 -> 128 <= pehdr img ->
  scnhdr img + 40 * sections img <= data_size img ->
  buf img1 = buf img -> data_size img1 = data_size img ->
  checksum img1 = checksum img ->
  data_dir_sigtable img1 = data_dir_sigtable img ->
  sigbuf img1 = Some T -> sigsize img1 = len T -> len T < 2 ^ 31 ->
  header_ok T 0 (data_size img + len T) ->
  image_write img1 = Done (rc, img2, out) ->
  exists img3,
    image_load pe_layout qsort 1 out = Loaded img3 /\
    buf img3 = out /\
    image_size img3 = data_size img + len T /\
    checksum img3 = checksum img /\
    data_dir_sigtable img3 = data_dir_sigtable img /\
    checksum_regions img3 = checksum_regions img /\
    data_size img3 = data_size img /\
    cert_table_size img3 = len T /\
    sigbuf img3 = Some T /\ sigsize img3 = len T /\
    (forall off n bs,
       load_bytes (buf img) off n = Done bs ->
       in_data (data_size img) (checksum img) (data_dir_sigtable img) off n ->
       load_bytes out off n = Done bs).
Proof.
  intros Hq Hl Hc0 Hr HS Hpe Hsec Hb1 Hd1 Hk1 Hdd1 Hsb Hsz HT Hok Hw.
  unfold image_load in Hl.
  pose proof (reparse_buffer pe_layout qsort _ _ _ Hl eq_refl)
    as (n & _ & Hlen & _).
  pose proof (reparse_Loaded _ _ _ _ _ Hl) as (i1 & i2 & Hp & Hf & Hle).
  pose proof (image_pecoff_parse_Done _ _ _ Hp) as (Hbi & Hsi & _).
  pose proof (image_find_regions_Done _ _ _ _ Hf)
    as (Hb2 & Hs2 & _ & _ & Hct & Hdr & _).
  destruct (image_find_regions_frame _ _ _ _ Hf) as (rs & ds & Himg).
  assert (Hfl : checksum img = checksum i2 /\
                data_dir_sigtable img = data_dir_sigtable i2 /\
                header_size img = header_size i2 /\
                sections img = sections i2 /\
                scnhdr img = scnhdr i2 /\ pehdr img = pehdr i2)
    by (rewrite Himg; done).
  destruct Hfl as (Fck & Fdd & Fhs & Fns & Fsc & Fpe).
  pose proof (parse_field_offsets _ _ Hp) as (Pa & Pn & Pck & Pdd & Psc).
  pose proof (len_nonneg T) as HT0.
  assert (Hr' := Hr). destruct Hr' as (_ & _ & _ & HD).
  set (D := data_size img) in *.
  set (B := buf img) in *.
  assert (HT4 : 4 <= len T).
  { destruct Hok as (_ & _ & c & Hc & _). unfold off_cth_size in Hc.
    apply rd_u32_Done in Hc as (cb & Hcb & _).
    apply load_bytes_Done in Hcb. lia. }
  assert (Hsg : is_signed img1 = true).
  { unfold is_signed. rewrite Hsb, Hsz.
    rewrite bool_decide_eq_true_2 by done.
    destruct (len T =? 0) eqn:E; tests; [lia|done]. }
  apply image_write_Done in Hw
    as (buf1 & buf2 & image_bytes & E1 & E2 & E3 & E4 & -> & Hout).
  rewrite Hsg in *. destruct Hout as (sig & Esig & ->).
  unfold sig_bytes in Esig. rewrite Hsb, Hsz in Esig.
  cbn [default from_option id] in Esig.
  rewrite load_bytes_in_range in Esig by lia.
  injection Esig as <-.
  apply update_checksum_Done in E3
    as (p1 & p2 & p3 & B2 & _ & _ & _ & _ & _ & W & ->).
  cbn [buf checksum set_buf] in W, E4.
  unfold off_dd_addr, off_dd_size in *.
  rewrite Hb1, Hd1, Hk1, Hdd1, Hsz, ?Z.add_0_r in *.
  fold B in E1. fold D in E4.
  assert (L2 : len B2 = len B).
  { unfold wr_u32 in *.
    pose proof (store_bytes_len _ _ _ _ E1).
    pose proof (store_bytes_len _ _ _ _ E2).
    pose proof (store_bytes_len _ _ _ _ W). lia. }
  assert (HDB : 0 <= D <= len B).
  { rewrite <- Hlen. lia. }
  apply load_bytes_Done in E4 as (_ & _ & _ & -> & Lib).
  change (Z.to_nat 0) with 0%nat in *. rewrite !drop_0 in *.
  rewrite (take_ge T (Z.to_nat (len T))) by (unfold len; lia).
  set (out := take (Z.to_nat D) B2 ++ T).
  assert (Hk : forall off n bs,
             load_bytes B off n = Done bs ->
             in_data D (checksum img) (data_dir_sigtable img) off n ->
             load_bytes out off n = Done bs).
  { apply (written_kept B D T _ _ _ _ _ _ _ _ E1 E2 W HDB). }
  destruct (written_entry B D T _ _ _ _ _ _ _ _ E1 E2 W HDB) as [R1 R2];
    [lia|lia|].
  fold out in R1, R2.
  rewrite !cast_u32_id in R1 by (try apply cast_u32_range; lia).
  rewrite !cast_u32_id in R2 by (try apply cast_u32_range; lia).
  assert (Lpre : len (take (Z.to_nat D) B2) = D).
  { unfold len in *. rewrite length_take. lia. }
  assert (Hsuf : forall off n, 0 <= off ->
             load_bytes out (D + off) n = load_bytes T off n).
  { intros off k Ho. unfold out. rewrite <- Lpre at 2.
    apply load_bytes_app_r. done. }
  assert (Lout : len out = D + len T).
  { unfold out. rewrite len_app. lia. }
  clearbody out.
  destruct (parse_written i1 i2 out D T)
    as (j2 & Hp2 & Jb & Js & Jck & Jdd & Jhs & Jns & Jsc & Jct & Jsb & Jsz).
  { exact Hp. }
  { rewrite <- Hbi, <- Hb2, <- Fck, <- Fdd. exact Hk. }
  { rewrite <- Fdd. exact R1. }
  { rewrite <- Fdd. exact R2. }
  { exact Hsuf. }
  { exact Lout. }
  { lia. }
  { lia. }
  { lia. }
  { lia. }
  { exact Hok. }
  destruct (find_regions_written qsort i2 img j2 T)
    as (j3 & Hf2 & Kr & Kd & Kb & Ks & Ksb & Ksz & Kct); try done; try lia.
  { rewrite Jb, <- Fck, <- Fdd, <- Hb2. exact Hk. }
  exists j3. split.
  { unfold image_load. cbn [reparse]. rewrite Hp2, Hf2.
    destruct (image_size j3 <? data_size j3) eqn:E; tests; [|done].
    fold D in Kd. lia. }
  destruct (image_find_regions_frame _ _ _ _ Hf2) as (rs3 & ds3 & Hj3).
  assert (checksum j3 = checksum j2 /\
          data_dir_sigtable j3 = data_dir_sigtable j2) as [Mck Mdd]
    by (rewrite Hj3; done).
  repeat split; try congruence; [exact Kd|exact Hk].
Qed.

Section Unsigned.
Context (L : layout) (qsort : list region -> list region).

(** A file whose security directory gives size 0 is loaded without
    signature buffer. *)
Lemma unsigned_loaded fuel file img :
  image_load L qsort fuel file = Loaded img ->
  cert_table_size img = 0 -> sigbuf img = None /\ sigsize img = 0.
Proof.
  unfold image_load. intros H Hz.
  assert (exists i0, image_pecoff_parse L (image_of_file file)
                     = Done (Some i0)) as [i0 Hp0].
  { destruct fuel; [discriminate|]. cbn [reparse] in H.
    destruct (image_pecoff_parse L _) as [[i0|]|]; try discriminate.
    eauto. }
  pose proof (image_pecoff_parse_Done _ _ _ Hp0)
    as (_ & _ & _ & dsize & valid & Hd & Hcs & Hct & _).
  cbn [buf image_size image_of_file] in Hd.
  eapply (reparse_shadows L qsort file i0 dsize) in H as
    (_ & _ & _ & Hcz & Hsh & _); eauto.
  - rewrite Hcz in Hz. rewrite Hz in Hct. cbn in Hct.
    unfold shadows in Hsh. rewrite Hct in Hsh.
    destruct (sigbuf img) as [copy|]; [|done].
    destruct Hsh as (addr & Hx & _). discriminate.
  - exists 0%nat. cbn [buf image_size image_of_file replicate].
    rewrite app_nil_r. split; [done|lia].
  - unfold shadows. done.
Qed.

End Unsigned.

(** The first header of a table that [image_add_signature] has built. *)
Lemma header_ok_cert_table s sigs size :
  small_sig s -> len s + 8 < size ->
  header_ok (cert_table_of (s :: sigs)) 0 size.
Proof.
  intros Hs Hlt. unfold header_ok. rewrite cert_table_of_cons.
  split; [|split].
  - unfold win_certificate, cert_entry, rd_u16, off_cth_revision.
    rewrite <- !app_assoc.
    rewrite load_bytes_middle by (rewrite ?len_le_bytes; done).
    done.
  - unfold win_certificate, cert_entry, rd_u16, off_cth_type.
    rewrite <- !app_assoc.
    rewrite (app_assoc (le_bytes 4 _)).
    rewrite load_bytes_middle
      by (rewrite ?len_app, ?len_le_bytes; done).
    done.
  - exists (len s + 8). split; [|done].
    apply (rd_u32_entry [] s (cert_table_of sigs) 0); done.
Qed.

Lemma chain_last a rs b :
  chain a rs b -> rs <> [] ->
  exists r, last rs = Some r /\ data r + size r = b.
Proof.
  induction 1 as [a|a r rs b Hd Hs Hc IH]; intros Hn; [done|].
  destruct rs as [|r' rs].
  - inversion Hc; subst. exists r. split; [done|lia].
  - destruct IH as (x & Hx & He); [done|]. exists x. split; [|done].
    rewrite <- Hx. done.
Qed.

(** The digest input of regions that are read where [out] holds the bytes
    of [B]. *)
Lemma hash_regions_kept B out D ck dd rs :
  (forall off n bs,
     load_bytes B off n = Done bs -> in_data D ck dd off n ->
     load_bytes out off n = Done bs) ->
  Forall (fun r => 0 <= data r /\ 0 <= size r < 2 ^ 64 /\
                   data r + size r <= len B /\
                   in_data D ck dd (data r) (size r)) rs ->
  hash_regions out rs = hash_regions B rs.
Proof.
  intros Hk. induction 1 as [|r rs (H0 & Hs & Hl & Hi) _ IH]; [done|].
  cbn [hash_regions]. rewrite cast_size_t_id by done.
  rewrite (load_bytes_in_range B) by lia.
  rewrite (Hk _ _ _ (load_bytes_in_range B _ _ H0 (proj1 Hs) Hl) Hi).
  rewrite IH. done.
Qed.

(** X16.  Signing an unsigned binary and reading the result back: for a
    file that [image_load] accepts with a security directory of size 0
    (regions of non-negative size, sizes below 2^31, the PE header at
    offset 128 or later, the section table within [data_size]),
    [image_add_signature] for each of the payloads [sigs] in turn and then
    [image_write] return 0, and the file written is accepted by
    [image_load] in one pass: that image has the regions and [data_size] of
    the first one, its signature buffer is the table of [sigs],
    [image_get_signature] finds each payload of [sigs] at its index and
    nothing at index [length sigs], and when the regions tile the buffer
    [image_hash_sha256] returns the digest it returned before signing. *)
Theorem signed_file_loads_back SHA256 qsort fuel file img sigs :
  is_qsort qsort ->
  image_load pe_layout qsort fuel file = Loaded img ->
  cert_table_size img = 0 -> in_range img ->
  image_size img < 2 ^ 31 - 8 -> 128 <= pehdr img ->
  scnhdr img + 40 * sections img <= data_size img ->
  sigs <> [] -> Forall small_sig sigs ->
  len (cert_table_of sigs) < 2 ^ 31 ->
  exists img1 img2 out img3,
    add_signatures img sigs = Done img1 /\
    image_write img1 = Done (0, img2, out) /\
    image_load pe_layout qsort 1 out = Loaded img3 /\
    len out = data_size img + len (cert_table_of sigs) /\
    checksum_regions img3 = checksum_regions img /\
    data_size img3 = data_size img /\
    sig_bytes img3 = cert_table_of sigs /\
    (forall i sig, sigs !! i = Some sig ->
       exists off,
         image_get_signature img3 (Z.of_nat i) = Done (Some (off, len sig)) /\
         load_bytes (sig_bytes img3) off (len sig) = Done sig) /\
    image_get_signature img3 (len sigs) = Done None /\
    (forall e, tiled img (checksum_regions img) e -> e <= image_size img ->
       image_hash_sha256 SHA256 img3 = image_hash_sha256 SHA256 img).
Proof.
  intros Hq Hl Hc0 Hr HS Hpe Hsec Hne Hall HT.
  destruct (unsigned_loaded _ _ _ _ _ Hl Hc0) as [Hnone Hz0].
  pose proof (len_nonneg (cert_table_of sigs)) as HT0.
  destruct (add_signatures_table sigs img)
    as (img1 & Ha & Hsb & Hcons & Hsome & Hb1 & Hd1).
  { intros Hx. rewrite Hnone in Hx. done. }
  { done. }
  { unfold sig_bytes. rewrite Hnone. cbn [default from_option id].
    change (len []) with 0. lia. }
  unfold sig_bytes at 2 in Hsb. rewrite Hnone in Hsb.
  cbn [default from_option id app] in Hsb.
  set (T := cert_table_of sigs) in *.
  assert (Hsb1 : sigbuf img1 = Some T).
  { specialize (Hsome Hne). unfold sig_bytes in Hsb.
    destruct (sigbuf img1) as [t|]; [|done].
    cbn [default from_option id] in Hsb. rewrite Hsb. done. }
  assert (Hsz1 : sigsize img1 = len T).
  { rewrite Hcons by (rewrite Hsb1; done). rewrite Hsb. done. }
  pose proof (run_edits_image _ _ _ Ha) as (_ & _ & _ & Hk1 & Hdd1 & _).
  assert (Hl' := Hl). unfold image_load in Hl'.
  pose proof (reparse_buffer pe_layout qsort _ _ _ Hl' eq_refl)
    as (n & _ & Hlen & _).
  pose proof (reparse_Loaded _ _ _ _ _ Hl') as (i1 & i2 & Hp & Hf & Hle).
  destruct (image_find_regions_frame _ _ _ _ Hf) as (rs & ds & Himg).
  assert (Hfl : checksum img = checksum i2 /\
                data_dir_sigtable img = data_dir_sigtable i2 /\
                sections img = sections i2 /\
                scnhdr img = scnhdr i2 /\ pehdr img = pehdr i2)
    by (rewrite Himg; done).
  destruct Hfl as (Fck & Fdd & Fns & Fsc & Fpe).
  pose proof (parse_field_offsets _ _ Hp) as (Pa & Pn & Pck & Pdd & Psc).
  rewrite <- Fck, <- Fdd, <- Fns, <- Fsc, <- Fpe in *.
  clear Fck Fdd Fns Fsc Fpe Himg.
  assert (Hr' := Hr). destruct Hr' as (_ & _ & _ & HD).
  destruct (image_write_returns img1) as (img2 & out & Hw).
  { unfold sig_consistent. rewrite Hsb1. done. }
  { lia. }
  { rewrite Hb1, Hdd1, <- Hlen. lia. }
  { lia. }
  { rewrite Hd1, Hk1. lia. }
  { rewrite Hb1, Hd1, <- Hlen. lia. }
  { rewrite Hd1. lia. }
  { rewrite Hsz1. lia. }
  assert (Hok : header_ok T 0 (data_size img + len T)).
  { unfold T in *. destruct sigs as [|s sigs']; [done|].
    apply Forall_cons in Hall as [Hs _].
    apply header_ok_cert_table; [done|].
    rewrite len_cert_table_cons.
    pose proof (align8_bounds (len s + 8)).
    pose proof (len_nonneg (cert_table_of sigs')). lia. }
  destruct (written_file_loads qsort fuel file img img1 T 0 img2 out)
    as (img3 & Hl3 & Hb3 & Hs3 & Hck3 & Hdd3 & Hr3 & Hd3 & Hct3 & Hsb3
        & Hsz3 & Hk); try done.
  exists img1, img2, out, img3.
  split; [done|]. split; [done|]. split; [done|].
  split.
  { destruct (load_unpadded _ _ _ _ Hl3) as [_ Hx]. rewrite <- Hx. done. }
  split; [done|]. split; [done|].
  assert (Hsig3 : sig_bytes img3 = T).
  { unfold sig_bytes. rewrite Hsb3. done. }
  split; [done|].
  destruct (get_signature_table img3 sigs Hsb3 Hsz3 Hall) as [Hget Hend];
    [fold T; lia|].
  split.
  { intros i sig Hi. destruct (Hget i sig Hi) as [G1 G2].
    rewrite Hsig3. eauto. }
  split; [done|].
  intros e (r0 & r1 & rest & Hrs & C0 & C1 & C2) He.
  pose proof (chain_bounds _ _ _ C0) as (B0 & F0 & _).
  pose proof (chain_bounds _ _ _ C1) as (B1 & F1 & _).
  pose proof (chain_bounds _ _ _ C2) as (B2 & F2 & _).
  assert (Hpos : forall a rs b, chain a rs b -> Forall (fun r => 0 < size r) rs).
  { induction 1; constructor; done. }
  pose proof (Hpos _ _ _ C0) as P0. pose proof (Hpos _ _ _ C1) as P1.
  pose proof (Hpos _ _ _ C2) as P2.
  assert (HeD : e <= data_size img).
  { destruct rest as [|x rest'].
    - inversion C2; subst. lia.
    - destruct (chain_last _ _ _ C2) as (y & Hy & Hye); [done|].
      destruct (find_regions_last _ _ _ _ Hf) as (z & Hz & HzD).
      rewrite Hrs in Hz.
      change (last (r0 :: r1 :: x :: rest')) with (last (x :: rest')) in Hz.
      rewrite Hy in Hz. injection Hz as <-.
      rewrite Forall_forall in F2.
      assert (Hin : y ∈ x :: rest').
      { apply last_Some in Hy as [l' Hl3']. rewrite Hl3'.
        apply elem_of_app. right. constructor. }
      specialize (F2 y Hin). cbn in F2.
      rewrite Forall_forall in P2. specialize (P2 y Hin).
      rewrite Z.sub_0_r in HzD.
      rewrite (cast_ptrdiff_id (data y)) in HzD by lia.
      rewrite cast_int_id in HzD by lia.
      pose proof (align_up_bounds (data y + size y) ltac:(lia)).
      rewrite cast_size_t_id in HzD by lia. lia. }
  unfold image_hash_sha256. rewrite Hr3, Hb3.
  rewrite (hash_regions_kept (buf img) out (data_size img) (checksum img)
             (data_dir_sigtable img) _ Hk); [done|].
  rewrite Hrs. change (r0 :: r1 :: rest) with ([r0] ++ [r1] ++ rest).
  rewrite !Forall_app. unfold in_data. repeat split.
  - rewrite Forall_forall in F0, P0 |- *. intros r Hin.
    specialize (F0 r Hin). specialize (P0 r Hin). cbn in F0. lia.
  - rewrite Forall_forall in F1, P1 |- *. intros r Hin.
    specialize (F1 r Hin). specialize (P1 r Hin). cbn in F1. lia.
  - rewrite Forall_forall in F2, P2 |- *. intros r Hin.
    specialize (F2 r Hin). specialize (P2 r Hin). cbn in F2. lia.
Qed.

(** ** Indices outside the table *)

Lemma get_signature_walk_add mem n m : forall a,
  get_signature_walk mem (n + m) a
  = (a' <- get_signature_walk mem n a ;; get_signature_walk mem m a').
Proof.
  induction n as [|n IH]; intros a; [done|].
  cbn [Nat.add get_signature_walk].
  destruct (rd_u32 mem (a + off_cth_size)) as [h|]; cbn [obind]; [|done].
  apply IH.
Qed.

(** X17.  [image_get_signature] checks its index only after the walk: on a
    table that holds the payloads [sigs], a negative index gives what
    index 0 gives (the loop is not entered), and an index above the number
    of entries makes the walk read a header at the end of the signature
    buffer, outside of it.  (The index equal to the number of entries
    gives -1.) *)
Theorem get_signature_index_range img sigs signum :
  sigbuf img = Some (cert_table_of sigs) ->
  sigsize img = len (cert_table_of sigs) ->
  Forall small_sig sigs ->
  len (cert_table_of sigs) < 2 ^ 63 ->
  (signum < 0 -> image_get_signature img signum = image_get_signature img 0) /\
  (signum = len sigs -> image_get_signature img signum = Done None) /\
  (len sigs < signum -> image_get_signature img signum = Fault).
Proof.
  intros Hb Hz Hall Hlen. split; [|split].
  - intros Hs. unfold image_get_signature.
    replace (Z.to_nat signum) with (Z.to_nat 0) by lia. done.
  - intros ->. apply (get_signature_table img sigs Hb Hz Hall Hlen).
  - intros Hs. unfold image_get_signature. rewrite Hb.
    replace (Z.to_nat signum)
      with (length sigs + S (Z.to_nat (signum - len sigs - 1)))%nat
      by (unfold len in *; lia).
    rewrite get_signature_walk_add.
    pose proof (get_signature_walk_table [] sigs [] (length sigs) Hall) as Hw.
    rewrite app_nil_r in Hw. cbn [app] in Hw.
    change (len []) with 0 in Hw.
    rewrite Hw by (rewrite ?Z.add_0_l; lia).
    cbn [obind get_signature_walk]. rewrite firstn_all.
    unfold rd_u32, load_bytes, off_cth_size.
    pose proof (len_nonneg (cert_table_of sigs)).
    replace (0 + len (cert_table_of sigs) + 0 + 4 <=? len (cert_table_of sigs))
      with false by (symmetry; apply Z.leb_gt; lia).
    rewrite !andb_false_r. done.
Qed.

(** ** Writing twice *)

Lemma store_bytes_same mem off bs :
  load_bytes mem off (len bs) = Done bs -> store_bytes mem off bs = Done mem.
Proof.
  intros H. apply load_bytes_Done in H as (H1 & H2 & H3 & H4 & _).
  rewrite store_bytes_in_range by lia. f_equal.
  remember (len bs) as n eqn:Hn. clear Hn. subst bs.
  rewrite Z2Nat.inj_add, <- drop_drop by lia.
  rewrite take_drop. apply take_drop.
Qed.

Lemma is_signed_set_buf img b s : is_signed (set_buf img b s) = is_signed img.
Proof. done. Qed.

Lemma csum_bytes_stored c mem off bs mem' off' n :
  store_bytes mem off bs = Done mem' ->
  off' + n <= off \/ off + len bs <= off' ->
  csum_bytes c mem' off' n = csum_bytes c mem off' n.
Proof.
  intros H Hd. unfold csum_bytes.
  rewrite (load_store_other _ _ _ _ _ _ H Hd). done.
Qed.

(** X18.  [image_write] is idempotent: called again on the image it has
    left, it stores the same directory entry and the same checksum, leaves
    the image as it is and emits the same bytes.  (The checksum field is
    not part of the checksummed bytes, and it lies apart from the security
    directory entry.) *)
Theorem write_twice img rc img' out :
  len (buf img) < 2 ^ 64 ->
  checksum img + 4 <= data_dir_sigtable img \/
    data_dir_sigtable img + 8 <= checksum img ->
  image_write img = Done (rc, img', out) ->
  image_write img' = Done (rc, img', out).
Proof.
  intros Hlen Hap H. unfold image_write in H.
  apply obind_Done in H as (b1 & E1 & H).
  apply obind_Done in H as (b2 & E2 & H).
  apply obind_Done in H as (i3 & E3 & H).
  assert (Hi : img' = i3).
  { apply obind_Done in H as (o & _ & H).
    destruct (negb _); [injection H as _ <- _; done|].
    apply obind_Done in H as (so & _ & H). injection H as _ <- _. done. }
  subst img'.
  unfold image_pecoff_update_checksum in E3.
  rewrite ?is_signed_set_buf in E3.
  cbn [buf checksum data_size sigbuf sigsize image_size set_buf] in E3.
  apply obind_Done in E3 as (c1 & C1 & E3).
  apply obind_Done in E3 as (c2 & C2 & E3).
  apply obind_Done in E3 as (c3 & C3 & E3).
  apply obind_Done in E3 as (B2 & W & E3).
  injection E3 as <-.
  unfold off_dd_addr, off_dd_size in *. rewrite Z.add_0_r in *.
  assert (W' := W). assert (E1' := E1). assert (E2' := E2).
  unfold wr_u32 in W', E1', E2'.
  pose proof (store_bytes_Done _ _ _ _ E1') as (D0 & D1 & _ & L1).
  pose proof (store_bytes_Done _ _ _ _ E2') as (_ & _ & _ & L2).
  pose proof (store_bytes_Done _ _ _ _ W') as (K0 & K1 & _ & L3).
  rewrite len_le_bytes in *.
  assert (S1 : wr_u32 B2 (data_dir_sigtable img)
                 (if is_signed img then cast_u32 (data_size img) else 0)
               = Done B2).
  { unfold wr_u32. apply store_bytes_same. rewrite len_le_bytes.
    rewrite (load_store_other _ _ _ _ _ _ W')
      by (rewrite len_le_bytes; lia).
    rewrite (load_store_other _ _ _ _ _ _ E2')
      by (rewrite len_le_bytes; lia).
    rewrite <- (len_le_bytes 4 (if is_signed img
                                then cast_u32 (data_size img) else 0)).
    apply (load_store_same _ _ _ _ E1'). }
  assert (S2 : wr_u32 B2 (data_dir_sigtable img + 4)
                 (if is_signed img then cast_u32 (sigsize img) else 0)
               = Done B2).
  { unfold wr_u32. apply store_bytes_same. rewrite len_le_bytes.
    rewrite (load_store_other _ _ _ _ _ _ W')
      by (rewrite len_le_bytes; lia).
    rewrite <- (len_le_bytes 4 (if is_signed img
                                then cast_u32 (sigsize img) else 0)).
    apply (load_store_same _ _ _ _ E2'). }
  unfold image_write, image_pecoff_update_checksum.
  rewrite ?is_signed_set_buf.
  cbn [buf checksum data_size data_dir_sigtable sigbuf sigsize image_size
       set_buf].
  unfold off_dd_addr, off_dd_size. rewrite Z.add_0_r.
  rewrite S1. cbn [obind]. rewrite S2. cbn [obind].
  rewrite ?is_signed_set_buf.
  cbn [buf checksum data_size data_dir_sigtable sigbuf sigsize image_size
       set_buf].
  rewrite (csum_bytes_stored _ _ _ _ _ _ _ W').
  2:{ left. rewrite Z.sub_0_r, cast_size_t_id by lia. lia. }
  rewrite C1. cbn [obind].
  rewrite (csum_bytes_stored _ _ _ _ _ _ _ W')
    by (right; rewrite len_le_bytes; lia).
  rewrite C2. cbn [obind]. rewrite C3. cbn [obind].
  assert (S3 : wr_u32 B2 (checksum img)
                 (let csum := cast_u32 (c3 + data_size img) in
                  if is_signed img then cast_u32 (csum + sigsize img)
                  else csum) = Done B2).
  { unfold wr_u32. apply store_bytes_same.
    apply (load_store_same _ _ _ _ W'). }
  cbv zeta in S3. rewrite S3. cbn [obind].
  exact H.
Qed.

(** ** The further properties at sample inputs *)

Lemma tiled_minimal :
  tiled minimal_image (checksum_regions minimal_image) 0x400.
Proof.
  do 3 eexists. split; [vm_compute; reflexivity|].
  repeat split; repeat (econstructor; try (vm_compute; reflexivity)).
Qed.

Lemma in_range_minimal : in_range minimal_image.
Proof.
  split; [vm_compute; repeat constructor; vm_compute; discriminate|].
  split; [vm_compute; reflexivity|].
  split; [vm_compute; discriminate|vm_compute; reflexivity].
Qed.

Lemma align_up_least_witness :
  0 <= 3 /\ 0 <= 13 /\ 13 + 2 ^ 3 < 2 ^ 31 /\
  align_up 13 (2 ^ 3) mod 2 ^ 3 = 0 /\
  13 <= align_up 13 (2 ^ 3) < 13 + 2 ^ 3 /\
  forall m, m mod 2 ^ 3 = 0 -> 13 <= m -> align_up 13 (2 ^ 3) <= m.
Proof.
  split; [lia|]. split; [lia|]. split; [lia|].
  apply (align_up_least 13 3); lia.
Defined.

Lemma csum_words_order_witness :
  0 <= 7 < 2 ^ 16 /\
  Permutation (le_words (bytes_of [1; 2; 3; 4]))
    (le_words (bytes_of [3; 4; 1; 2])) /\
  csum_words 7 (bytes_of [1; 2; 3; 4]) = csum_words 7 (bytes_of [3; 4; 1; 2]).
Proof.
  split; [lia|].
  split; [vm_compute; apply perm_swap|].
  apply (csum_words_order 7 (bytes_of [1; 2; 3; 4]) (bytes_of [3; 4; 1; 2]));
    [lia|vm_compute; apply perm_swap].
Defined.

Lemma csum_bytes_compose_witness :
  0 <= 2 /\ 0 <= 4 /\ 2 + 4 < 2 ^ 32 /\ Z.even 2 = true /\
  csum_bytes 0 (bytes_of [1; 2; 3; 4; 5; 6]) 0 (2 + 4)
  = (c1 <- csum_bytes 0 (bytes_of [1; 2; 3; 4; 5; 6]) 0 2 ;;
     csum_bytes c1 (bytes_of [1; 2; 3; 4; 5; 6]) (0 + 2) 4).
Proof.
  split; [lia|]. split; [lia|]. split; [lia|]. split; [reflexivity|].
  apply (csum_bytes_compose 0 (bytes_of [1; 2; 3; 4; 5; 6]) 0 2 4);
    [lia|lia|lia|reflexivity].
Defined.

Lemma loaded_image_checked_witness :
  image_load pe_layout qsort_regions 1 minimal_pe = Loaded minimal_image /\
  sizeof_doshdr pe_layout <= image_size minimal_image /\
  rd_u8 (buf minimal_image) (off_e_magic pe_layout) = Done 0x4d /\
  rd_u8 (buf minimal_image) (off_e_magic pe_layout + 1) = Done 0x5a /\
  pehdr_u32 (buf minimal_image) (off_e_lfanew pe_layout)
  = Done (pehdr minimal_image) /\
  pehdr minimal_image < image_size minimal_image /\
  pehdr minimal_image + sizeof_pehdr pe_layout <= image_size minimal_image /\
  load_bytes (buf minimal_image)
    (pehdr minimal_image + off_nt_signature pe_layout) 4 = Done nt_sig /\
  doshdr minimal_image = 0 /\
  opthdr minimal_image = pehdr minimal_image + sizeof_pehdr pe_layout /\
  (exists magic O m1,
     pehdr_u16 (buf minimal_image) (pehdr minimal_image + off_f_magic pe_layout)
     = Done magic /\
     ((magic = IMAGE_FILE_MACHINE_AMD64 pe_layout \/
       magic = IMAGE_FILE_MACHINE_AARCH64 pe_layout) /\
      O = opt_64 pe_layout /\ m1 = 0x02 \/
      (magic = IMAGE_FILE_MACHINE_I386 pe_layout \/
       magic = IMAGE_FILE_MACHINE_THUMB pe_layout) /\
      O = opt_32 pe_layout /\ m1 = 0x01) /\
     rd_u8 (buf minimal_image) (opthdr minimal_image + off_magic O)
     = Done 0x0b /\
     rd_u8 (buf minimal_image) (opthdr minimal_image + off_magic O + 1)
     = Done m1 /\
     pehdr_u32 (buf minimal_image) (opthdr minimal_image + off_FileAlignment O)
     = Done (file_alignment minimal_image) /\
     pehdr_u32 (buf minimal_image) (opthdr minimal_image + off_SizeOfHeaders O)
     = Done (header_size minimal_image) /\
     opthdr_min_size minimal_image
     = cast_u32 (sizeof_opthdr O - sizeof_DataDirectory O) /\
     data_dir minimal_image = opthdr minimal_image + off_DataDirectory O /\
     checksum minimal_image = opthdr minimal_image + off_CheckSum O) /\
  pehdr_u16 (buf minimal_image) (pehdr minimal_image + off_f_opthdr pe_layout)
  = Done (opthdr_size minimal_image) /\
  cast_u32 (opthdr_min_size minimal_image
            + cast_int (sizeof_data_dir_entry * (DATA_DIR_CERT_TABLE + 1)))
  <= opthdr_size minimal_image /\
  sizeof_doshdr pe_layout + sizeof_pehdr pe_layout + opthdr_size minimal_image
  <= image_size minimal_image /\
  data_dir_sigtable minimal_image
  = data_dir minimal_image + sizeof_data_dir_entry * DATA_DIR_CERT_TABLE /\
  pehdr_u16 (buf minimal_image) (pehdr minimal_image + off_f_nscns pe_layout)
  = Done (sections minimal_image) /\
  scnhdr minimal_image = opthdr minimal_image + opthdr_size minimal_image.
Proof.
  split; [vm_compute; reflexivity|].
  apply (loaded_image_checked pe_layout qsort_regions 1 minimal_pe
           minimal_image).
  vm_compute. reflexivity.
Defined.

Lemma load_refuses_early_witness :
  len (@nil byte) < 128 /\
  image_load pe_layout qsort_regions 1 [] = LoadFailed.
Proof.
  split; [vm_compute; reflexivity|].
  apply (load_refuses_early qsort_regions 0 []).
  left. vm_compute. reflexivity.
Defined.

Lemma load_appends_zeros_witness :
  image_load pe_layout qsort_regions 2 late_table_pe
  = Loaded late_table_image /\
  exists n,
    buf late_table_image = late_table_pe ++ replicate n x00 /\
    image_size late_table_image = len late_table_pe + Z.of_nat n /\
    (n = 0%nat \/ image_size late_table_image mod 8 = 0) /\
    data_size late_table_image <= image_size late_table_image /\
    data_size late_table_image mod 8 = 0 /\
    sig_consistent late_table_image.
Proof.
  split; [vm_compute; reflexivity|].
  apply (load_appends_zeros pe_layout qsort_regions 2 late_table_pe
           late_table_image).
  vm_compute. reflexivity.
Defined.

Lemma load_in_two_passes_witness :
  is_qsort qsort_regions /\
  image_pecoff_parse pe_layout (image_of_file late_table_pe)
  = Done (Some late_table_parsed) /\
  image_find_regions pe_layout qsort_regions late_table_parsed
  = Done late_table_regions /\
  in_range late_table_regions /\
  (2 <= 5)%nat /\
  image_load pe_layout qsort_regions 2 late_table_pe <> OutOfFuel /\
  image_load pe_layout qsort_regions 5 late_table_pe
  = image_load pe_layout qsort_regions 2 late_table_pe.
Proof.
  assert (Hr : in_range late_table_regions).
  { split; [vm_compute; repeat constructor; vm_compute; discriminate|].
    split; [vm_compute; reflexivity|].
    split; [vm_compute; discriminate|vm_compute; reflexivity]. }
  split; [apply qsort_regions_is_qsort|].
  split; [vm_compute; reflexivity|].
  split; [vm_compute; reflexivity|].
  split; [exact Hr|].
  split; [lia|].
  apply (load_in_two_passes pe_layout qsort_regions late_table_pe
           late_table_parsed late_table_regions 5).
  - apply qsort_regions_is_qsort.
  - vm_compute. reflexivity.
  - vm_compute. reflexivity.
  - exact Hr.
  - lia.
Defined.

Lemma hash_of_tiled_image_witness :
  tiled minimal_image (checksum_regions minimal_image) 0x400 /\
  0x400 <= len (buf minimal_image) /\
  len (buf minimal_image) < 2 ^ 64 /\
  image_hash_sha256 id minimal_image
  = Done (id (slice (buf minimal_image) 0 (checksum minimal_image)
              ++ slice (buf minimal_image) (checksum minimal_image + 4)
                   (data_dir_sigtable minimal_image)
              ++ slice (buf minimal_image)
                   (data_dir_sigtable minimal_image + 8) 0x400)).
Proof.
  split; [apply tiled_minimal|].
  split; [vm_compute; discriminate|].
  split; [vm_compute; reflexivity|].
  apply (hash_of_tiled_image id minimal_image 0x400).
  - apply tiled_minimal.
  - vm_compute. discriminate.
  - vm_compute. reflexivity.
Defined.

Lemma hash_kept_by_editor_and_writer_witness :
  clear_of_fields minimal_image /\
  run_edits minimal_image [Add sig_aa 10] = Done signed_image /\
  image_write signed_image = Done written /\
  image_hash_sha256 id signed_image = image_hash_sha256 id minimal_image /\
  image_hash_sha256 id (snd (fst written))
  = image_hash_sha256 id minimal_image.
Proof.
  assert (Hc : clear_of_fields minimal_image).
  { apply (tiled_clear_of_fields minimal_image 0x400);
      [apply tiled_minimal|vm_compute; reflexivity]. }
  split; [exact Hc|].
  split; [vm_compute; reflexivity|].
  split; [vm_compute; reflexivity|].
  apply (hash_kept_by_editor_and_writer id minimal_image [Add sig_aa 10]
           signed_image (fst (fst written)) (snd (fst written))
           (snd written)).
  - exact Hc.
  - vm_compute. reflexivity.
  - vm_compute. reflexivity.
Defined.

Lemma write_changes_two_fields_witness :
  image_write signed_image = Done written /\
  length (buf (snd (fst written))) = length (buf signed_image) /\
  (forall i : nat,
     ~ (checksum signed_image <= Z.of_nat i < checksum signed_image + 4) ->
     ~ (data_dir_sigtable signed_image <= Z.of_nat i
        < data_dir_sigtable signed_image + 8) ->
     buf (snd (fst written)) !! i = buf signed_image !! i) /\
  checksum_regions (snd (fst written)) = checksum_regions signed_image /\
  data_size (snd (fst written)) = data_size signed_image /\
  image_size (snd (fst written)) = image_size signed_image /\
  sigbuf (snd (fst written)) = sigbuf signed_image /\
  sigsize (snd (fst written)) = sigsize signed_image.
Proof.
  split; [vm_compute; reflexivity|].
  apply (write_changes_two_fields signed_image (fst (fst written))
           (snd (fst written)) (snd written)).
  vm_compute. reflexivity.
Defined.

Lemma remove_signature_deletes_witness :
  sigbuf twice_signed = Some (cert_table_of two_sigs) /\
  sigsize twice_signed = len (cert_table_of two_sigs) /\
  Forall small_sig two_sigs /\
  len (cert_table_of two_sigs) < 2 ^ 63 /\
  two_sigs !! 0%nat = Some (replicate 16 x0a) /\
  exists img',
    image_remove_signature twice_signed (Z.of_nat 0) = Done (0, img') /\
    sig_bytes img' = cert_table_of (delete 0%nat two_sigs) /\
    sigsize img' = len (cert_table_of (delete 0%nat two_sigs)) /\
    (sigbuf img' = None <-> delete 0%nat two_sigs = []) /\
    buf img' = buf twice_signed /\ data_size img' = data_size twice_signed.
Proof.
  split; [vm_compute; reflexivity|].
  split; [vm_compute; reflexivity|].
  split; [repeat constructor; vm_compute; reflexivity|].
  split; [vm_compute; reflexivity|].
  split; [reflexivity|].
  apply (remove_signature_deletes twice_signed two_sigs 0
           (replicate 16 x0a)).
  - vm_compute. reflexivity.
  - vm_compute. reflexivity.
  - repeat constructor; vm_compute; reflexivity.
  - vm_compute. reflexivity.
  - reflexivity.
Defined.

Lemma write_detached_payload_witness :
  sigbuf twice_signed = Some (cert_table_of two_sigs) /\
  sigsize twice_signed = len (cert_table_of two_sigs) /\
  Forall small_sig two_sigs /\
  len (cert_table_of two_sigs) < 2 ^ 63 /\
  (forall i sig, two_sigs !! i = Some sig ->
     image_write_detached twice_signed (Z.of_nat i) = Done (0, sig)) /\
  image_write_detached twice_signed (len two_sigs) = Done (-1, []).
Proof.
  split; [vm_compute; reflexivity|].
  split; [vm_compute; reflexivity|].
  split; [repeat constructor; vm_compute; reflexivity|].
  split; [vm_compute; reflexivity|].
  apply (write_detached_payload twice_signed two_sigs).
  - vm_compute. reflexivity.
  - vm_compute. reflexivity.
  - repeat constructor; vm_compute; reflexivity.
  - vm_compute. reflexivity.
Defined.

Lemma sbsign_detached_output_witness :
  sig_bytes twice_signed = cert_table_of two_sigs /\
  (sigbuf twice_signed <> None ->
   sigsize twice_signed = len (sig_bytes twice_signed)) /\
  Forall small_sig two_sigs /\ small_sig sig_aa /\
  len (cert_table_of two_sigs) + len sig_aa + 16 < 2 ^ 63 /\
  len two_sigs + 1 < 2 ^ 31 /\
  (length two_sigs + 1 < 4)%nat /\
  sign_and_write 4 true twice_signed sig_aa (len sig_aa)
  = Done (Some (0, sig_aa)).
Proof.
  split; [vm_compute; reflexivity|].
  split; [intros _; vm_compute; reflexivity|].
  split; [repeat constructor; vm_compute; reflexivity|].
  split; [vm_compute; reflexivity|].
  split; [vm_compute; reflexivity|].
  split; [vm_compute; reflexivity|].
  split; [simpl; lia|].
  apply (sbsign_detached_output twice_signed two_sigs sig_aa 4).
  - vm_compute. reflexivity.
  - intros _. vm_compute. reflexivity.
  - repeat constructor; vm_compute; reflexivity.
  - vm_compute. reflexivity.
  - vm_compute. reflexivity.
  - vm_compute. reflexivity.
  - simpl. lia.
Defined.

Lemma signed_file_loads_back_witness :
  is_qsort qsort_regions /\
  image_load pe_layout qsort_regions 1 minimal_pe = Loaded minimal_image /\
  cert_table_size minimal_image = 0 /\ in_range minimal_image /\
  image_size minimal_image < 2 ^ 31 - 8 /\ 128 <= pehdr minimal_image /\
  scnhdr minimal_image + 40 * sections minimal_image
  <= data_size minimal_image /\
  two_sigs <> [] /\ Forall small_sig two_sigs /\
  len (cert_table_of two_sigs) < 2 ^ 31 /\
  exists img1 img2 out img3,
    add_signatures minimal_image two_sigs = Done img1 /\
    image_write img1 = Done (0, img2, out) /\
    image_load pe_layout qsort_regions 1 out = Loaded img3 /\
    len out = data_size minimal_image + len (cert_table_of two_sigs) /\
    checksum_regions img3 = checksum_regions minimal_image /\
    data_size img3 = data_size minimal_image /\
    sig_bytes img3 = cert_table_of two_sigs /\
    (forall i sig, two_sigs !! i = Some sig ->
       exists off,
         image_get_signature img3 (Z.of_nat i) = Done (Some (off, len sig)) /\
         load_bytes (sig_bytes img3) off (len sig) = Done sig) /\
    image_get_signature img3 (len two_sigs) = Done None /\
    (forall e, tiled minimal_image (checksum_regions minimal_image) e ->
       e <= image_size minimal_image ->
       image_hash_sha256 id img3 = image_hash_sha256 id minimal_image).
Proof.
  split; [apply qsort_regions_is_qsort|].
  split; [vm_compute; reflexivity|].
  split; [vm_compute; reflexivity|].
  split; [apply in_range_minimal|].
  split; [vm_compute; reflexivity|].
  split; [vm_compute; discriminate|].
  split; [vm_compute; discriminate|].
  split; [discriminate|].
  split; [repeat constructor; vm_compute; reflexivity|].
  split; [vm_compute; reflexivity|].
  apply (signed_file_loads_back id qsort_regions 1 minimal_pe minimal_image
           two_sigs).
  - apply qsort_regions_is_qsort.
  - vm_compute. reflexivity.
  - vm_compute. reflexivity.
  - apply in_range_minimal.
  - vm_compute. reflexivity.
  - vm_compute. discriminate.
  - vm_compute. discriminate.
  - discriminate.
  - repeat constructor; vm_compute; reflexivity.
  - vm_compute. reflexivity.
Defined.

Lemma get_signature_index_range_witness :
  sigbuf twice_signed = Some (cert_table_of two_sigs) /\
  sigsize twice_signed = len (cert_table_of two_sigs) /\
  Forall small_sig two_sigs /\
  len (cert_table_of two_sigs) < 2 ^ 63 /\
  (3 < 0 -> image_get_signature twice_signed 3
            = image_get_signature twice_signed 0) /\
  (3 = len two_sigs -> image_get_signature twice_signed 3 = Done None) /\
  (len two_sigs < 3 -> image_get_signature twice_signed 3 = Fault).
Proof.
  split; [vm_compute; reflexivity|].
  split; [vm_compute; reflexivity|].
  split; [repeat constructor; vm_compute; reflexivity|].
  split; [vm_compute; reflexivity|].
  apply (get_signature_index_range twice_signed two_sigs 3).
  - vm_compute. reflexivity.
  - vm_compute. reflexivity.
  - repeat constructor; vm_compute; reflexivity.
  - vm_compute. reflexivity.
Defined.

Lemma write_twice_witness :
  len (buf signed_image) < 2 ^ 64 /\
  (checksum signed_image + 4 <= data_dir_sigtable signed_image \/
   data_dir_sigtable signed_image + 8 <= checksum signed_image) /\
  image_write signed_image = Done written /\
  image_write (snd (fst written))
  = Done (fst (fst written), snd (fst written), snd written).
Proof.
  split; [vm_compute; reflexivity|].
  split; [left; vm_compute; discriminate|].
  split; [vm_compute; reflexivity|].
  apply (write_twice signed_image (fst (fst written)) (snd (fst written))
           (snd written)).
  - vm_compute. reflexivity.
  - left. vm_compute. discriminate.
  - vm_compute. reflexivity.
Defined.
